(** * OpenAI Realtime voice bridge: session engine and audio codec

    A shallow embedding of [src/utils/audio.js] (the PCM16/WAV container
    conversion) and of [src/session-manager.js] (the session registry, the
    pending-request table and the inbound event dispatcher), followed by the
    properties established about them.

    Conventions of the embedding:
    - a Node [Buffer] is a [list byte]; a JavaScript string is a [string]
      with one character for each UTF-16 code unit, so that [String.length]
      is [.length] and [substring] cuts where [substring] and [slice] cut;
      the texts concerned have their code units below 256, and the
      accented letters of the program's own texts are written as the single
      code units they are;
    - a JavaScript [Map] is an insertion-ordered association list ([JSMap]);
    - session objects live in a heap and are referred to by location, so the
      closures that capture a session object keep acting on that object even
      after the registry has forgotten it;
    - promises and timers are entries of explicit stores in the [World];
    - [Date.now()] and [uuidv4()] are read from the environment, so the
      operations take the clock value and the generated id as arguments;
    - [send] on a transport appends the message to the record of what was
      sent, except while the transport is still connecting: there the
      [send] of the transport library raises, and so do the operations that
      call it;
    - logging has no effect on the state and is left out. *)

From Stdlib Require Import ZArith NArith Ascii String List Lia Bool.
From Stdlib.Strings Require Import Byte.
From stdpp Require Import base list gmap strings.

Open Scope string_scope.
Open Scope list_scope.

(* ===================================================================== *)
(** * Part I: definitions                                                 *)
(* ===================================================================== *)

(** ** Node's base64 codec, as used by [Buffer.from(s, 'base64')] and
       [buf.toString('base64')] *)

Module Base64.

Definition alphabet : string :=
  "ABCDEFGHIJKLMNOPQRSTUVWXYZabcdefghijklmnopqrstuvwxyz0123456789+/".

(** The character of a six-bit value. *)
Definition b64char (v : N) : ascii :=
  match String.get (N.to_nat v) alphabet with
  | Some c => c
  | None => "="%char
  end.

Definition in_range (lo hi c : N) : bool := ((lo <=? c) && (c <=? hi))%N.

(** Node's [unbase64] table: the standard alphabet, and the URL-safe
    characters [-] and [_] as synonyms of [+] and [/]. *)
Definition unbase64 (c : ascii) : option N :=
  let n := N_of_ascii c in
  if in_range 65 90 n then Some (n - 65)%N
  else if in_range 97 122 n then Some (n - 71)%N
  else if in_range 48 57 n then Some (n + 4)%N
  else if (n =? 43)%N || (n =? 45)%N then Some 62%N
  else if (n =? 47)%N || (n =? 95)%N then Some 63%N
  else None.

Definition byte_of_N (n : N) : byte :=
  match Byte.of_N (n mod 256) with
  | Some b => b
  | None => x00
  end.

(** Splitting three octets into four sextets (encoder). *)
Definition sextet1 (a : N) : N := N.shiftr a 2.
Definition sextet2 (a b : N) : N := N.lor (N.shiftl (N.land a 3) 4) (N.shiftr b 4).
Definition sextet3 (b c : N) : N := N.lor (N.shiftl (N.land b 15) 2) (N.shiftr c 6).
Definition sextet4 (c : N) : N := N.land c 63.

(** Joining sextets into octets (decoder): [hi] and [lo] are two
    consecutive sextets. *)
Definition octet1 (hi lo : N) : N :=
  N.lor (N.shiftl (N.land hi 63) 2) (N.shiftr (N.land lo 48) 4).
Definition octet2 (hi lo : N) : N :=
  N.lor (N.shiftl (N.land hi 15) 4) (N.shiftr (N.land lo 60) 2).
Definition octet3 (hi lo : N) : N :=
  N.lor (N.shiftl (N.land hi 3) 6) (N.land lo 63).

(** [buf.toString('base64')]: RFC 4648 with [=] padding. *)
Fixpoint encode (l : list byte) : string :=
  match l with
  | [] => ""
  | [a] =>
      let a := Byte.to_N a in
      String (b64char (sextet1 a)) (String (b64char (sextet2 a 0)) "==")
  | [a; b] =>
      let a := Byte.to_N a in
      let b := Byte.to_N b in
      String (b64char (sextet1 a)) (String (b64char (sextet2 a b))
        (String (b64char (sextet3 b 0)) "="))
  | a :: b :: c :: rest =>
      let a := Byte.to_N a in
      let b := Byte.to_N b in
      let c := Byte.to_N c in
      String (b64char (sextet1 a)) (String (b64char (sextet2 a b))
        (String (b64char (sextet3 b c)) (String (b64char (sextet4 c))
          (encode rest))))
  end.

(** The decoder is lenient: characters outside the alphabet are skipped
    and the first [=] ends the input. *)
Fixpoint sextets (s : string) : list N :=
  match s with
  | EmptyString => []
  | String c s' =>
      match unbase64 c with
      | Some v => v :: sextets s'
      | None => if Ascii.eqb c "=" then [] else sextets s'
      end
  end.

Fixpoint octets (l : list N) : list byte :=
  match l with
  | a :: b :: c :: d :: rest =>
      byte_of_N (octet1 a b) :: byte_of_N (octet2 b c)
        :: byte_of_N (octet3 c d) :: octets rest
  | [a; b; c] => [byte_of_N (octet1 a b); byte_of_N (octet2 b c)]
  | [a; b] => [byte_of_N (octet1 a b)]
  | _ => []
  end.

(** [Buffer.from(s, 'base64')]. *)
Definition decode (s : string) : list byte := octets (sextets s).

(** Exhaustive check of a predicate on the numbers below [n]. *)
Fixpoint all_below (n : nat) (P : N -> bool) : bool :=
  match n with
  | O => true
  | S k => P (N.of_nat k) && all_below k P
  end.

End Base64.

(** ** [src/utils/audio.js] *)

Module Audio.

(** A statement that may raise: [None] is the exception. *)
Notation "'let?' x ':=' e 'in' k" :=
  (match e with Some x => k | None => None end)
  (at level 10, x name, e at level 100, k at level 200, only parsing).

Abbreviation Buffer := (list byte) (only parsing).

(** [Buffer.alloc(n)]: [n] zero bytes. *)
Definition Buffer_alloc (n : nat) : Buffer := repeat x00 n.

(** Writing bytes at an offset; what does not fit is dropped, the length of
    the buffer never changes. *)
Fixpoint write_bytes (buf : Buffer) (offset : nat) (bs : list byte) : Buffer :=
  match bs with
  | [] => buf
  | x :: bs' => write_bytes (<[offset:=x]> buf) (S offset) bs'
  end.

(** [buf.write(s, offset)] for an ASCII string. *)
Definition Buffer_write (buf : Buffer) (s : string) (offset : nat) : Buffer :=
  write_bytes buf offset (list_byte_of_string s).

Definition le_bytes (n : nat) (value : Z) : list byte :=
  map (fun i => Base64.byte_of_N (Z.to_N (Z.shiftr value (8 * Z.of_nat i))))
      (seq 0 n).

(** [buf.writeUIntLE]-family: a value outside the unsigned range of the
    width, or a write that does not fit, raises a [RangeError] ([None]). *)
Definition writeUIntLE (width : nat) (buf : Buffer) (value : Z) (offset : nat)
  : option Buffer :=
  if (0 <=? value)%Z && (value <? 2 ^ (8 * Z.of_nat width))%Z
     && (offset + width <=? length buf)%nat
  then Some (write_bytes buf offset (le_bytes width value))
  else None.

Definition writeUInt32LE := writeUIntLE 4.
Definition writeUInt16LE := writeUIntLE 2.

(** The same writes for a number that need not be an integer.  The
    division in [bitsPerSample / 8] is the division of numbers, not of
    integers, so with integer arguments [byteRate] and [blockAlign] are
    multiples of one eighth: such a number is kept as its numerator
    [eighths], its value being [eighths / 8].  The range check of the write
    compares the number itself with the bounds ([value > max || value <
    min]); the bytes stored are those of its integer part. *)
Definition writeUIntLE_eighths (width : nat) (buf : Buffer) (eighths : Z) (offset : nat)
  : option Buffer :=
  if (eighths <=? 8 * (2 ^ (8 * Z.of_nat width) - 1))%Z
  then writeUIntLE width buf (eighths / 8) offset
  else None.

Definition writeUInt32LE_eighths := writeUIntLE_eighths 4.
Definition writeUInt16LE_eighths := writeUIntLE_eighths 2.

(** [addWavHeader(pcmData, sampleRate = 24000, numChannels = 1,
    bitsPerSample = 16)], the arguments being integers.  [byteRate8] and
    [blockAlign8] are eight times [byteRate] and [blockAlign]. *)
Definition addWavHeader (pcmData : Buffer) (sampleRate numChannels bitsPerSample : Z)
  : option Buffer :=
  let byteRate8 := (sampleRate * numChannels * bitsPerSample)%Z in
  let blockAlign8 := (numChannels * bitsPerSample)%Z in
  let dataSize := Z.of_nat (length pcmData) in
  let headerSize := 44%nat in
  let header := Buffer_alloc headerSize in
  let offset := 0%nat in
  (* RIFF chunk *)
  let header := Buffer_write header "RIFF" offset in
  let offset := (offset + 4)%nat in
  let? header := writeUInt32LE header (36 + dataSize) offset in
  let offset := (offset + 4)%nat in
  let header := Buffer_write header "WAVE" offset in
  let offset := (offset + 4)%nat in
  (* fmt sub-chunk *)
  let header := Buffer_write header "fmt " offset in
  let offset := (offset + 4)%nat in
  let? header := writeUInt32LE header 16 offset in
  let offset := (offset + 4)%nat in
  let? header := writeUInt16LE header 1 offset in
  let offset := (offset + 2)%nat in
  let? header := writeUInt16LE header numChannels offset in
  let offset := (offset + 2)%nat in
  let? header := writeUInt32LE header sampleRate offset in
  let offset := (offset + 4)%nat in
  let? header := writeUInt32LE_eighths header byteRate8 offset in
  let offset := (offset + 4)%nat in
  let? header := writeUInt16LE_eighths header blockAlign8 offset in
  let offset := (offset + 2)%nat in
  let? header := writeUInt16LE header bitsPerSample offset in
  let offset := (offset + 2)%nat in
  (* data sub-chunk *)
  let header := Buffer_write header "data" offset in
  let offset := (offset + 4)%nat in
  let? header := writeUInt32LE header dataSize offset in
  Some (header ++ pcmData).

(** [pcm16ToWavBase64(pcm16Base64, sampleRate = 24000)]. *)
Definition pcm16ToWavBase64 (pcm16Base64 : string) (sampleRate : Z) : option string :=
  let pcmBuffer := Base64.decode pcm16Base64 in
  let? wavBuffer := addWavHeader pcmBuffer sampleRate 1 16 in
  Some (Base64.encode wavBuffer).

Definition default_sampleRate : Z := 24000.

(** [wavBase64ToPcm16Base64(wavBase64)]: [wavBuffer.slice(44)]. *)
Definition wavBase64ToPcm16Base64 (wavBase64 : string) : string :=
  let wavBuffer := Base64.decode wavBase64 in
  let pcmData := drop 44 wavBuffer in
  Base64.encode pcmData.

(** [/^[A-Za-z0-9+/]*={0,2}$/]: the characters of the class, then at most
    two [=], then the end of the string.  No [=] is in the class, so the
    match is decided after the longest run of class characters. *)
Definition is_class_char (c : ascii) : bool :=
  let n := N_of_ascii c in
  Base64.in_range 65 90 n || Base64.in_range 97 122 n || Base64.in_range 48 57 n
  || (n =? 43)%N || (n =? 47)%N.

Fixpoint skip_class (s : string) : string :=
  match s with
  | EmptyString => EmptyString
  | String c s' => if is_class_char c then skip_class s' else s
  end.

Definition base64Regex_test (str : string) : bool :=
  let rest := skip_class str in
  String.eqb rest "" || String.eqb rest "=" || String.eqb rest "==".

(** [isValidBase64(str)] for a string argument. *)
Definition isValidBase64 (str : string) : bool :=
  base64Regex_test str && (String.length str mod 4 =? 0)%nat.

(** [buf.slice(start, end)]. *)
Definition Buffer_slice (buf : Buffer) (start stop : nat) : Buffer :=
  take (stop - start) (drop start buf).

(** The unsigned value of little-endian bytes, and [buf.readUIntLE]-style
    reads, which raise when the bytes are not all there. *)
Definition le_value (bs : list byte) : Z :=
  fold_right (fun b acc => (Z.of_N (Byte.to_N b) + 256 * acc)%Z) 0%Z bs.

Definition readUIntLE (width : nat) (buf : Buffer) (offset : nat) : option Z :=
  if (offset + width <=? length buf)%nat
  then Some (le_value (Buffer_slice buf offset (offset + width)))
  else None.

Definition readUInt32LE := readUIntLE 4.
Definition readUInt16LE := readUIntLE 2.

(** The header values that [addWavHeader] writes with a range check, each
    within the range of its field; for the byte rate
    [sampleRate * numChannels * bitsPerSample / 8] and the block align
    [numChannels * bitsPerSample / 8], which need not be integers, the
    bounds are stated on eight times the value. *)
Definition header_fields_in_range (dataSize sampleRate numChannels bitsPerSample : Z)
  : Prop :=
  (0 <= 36 + dataSize <= 0xFFFFFFFF
   /\ 0 <= numChannels <= 0xFFFF
   /\ 0 <= sampleRate <= 0xFFFFFFFF
   /\ 0 <= sampleRate * numChannels * bitsPerSample <= 8 * 0xFFFFFFFF
   /\ 0 <= numChannels * bitsPerSample <= 8 * 0xFFFF
   /\ 0 <= bitsPerSample <= 0xFFFF)%Z.

(** The largest payload whose sizes still fit the header's 32-bit fields. *)
Definition max_dataSize : Z := 0xFFFFFFFF - 36.

(** The longest string the runtime can hold
    ([buffer.constants.MAX_STRING_LENGTH] on 64-bit builds). *)
Definition MAX_STRING_LENGTH : Z := 2 ^ 29 - 24.

End Audio.

(** ** JavaScript [Map] with string keys

    Keys are unique and iteration follows insertion order. *)

Module JSMap.

Definition t (V : Type) : Type := list (string * V).

Definition empty {V : Type} : t V := [].

Fixpoint get {V : Type} (k : string) (m : t V) : option V :=
  match m with
  | [] => None
  | (k', v) :: m' => if String.eqb k' k then Some v else get k m'
  end.

(** [m.set(k, v)]: an existing key keeps its position, a new key goes last. *)
Fixpoint set {V : Type} (k : string) (v : V) (m : t V) : t V :=
  match m with
  | [] => [(k, v)]
  | (k', v') :: m' =>
      if String.eqb k' k then (k, v) :: m' else (k', v') :: set k v m'
  end.

(** [m.delete(k)]. *)
Fixpoint delete {V : Type} (k : string) (m : t V) : t V :=
  match m with
  | [] => []
  | (k', v) :: m' =>
      if String.eqb k' k then delete k m' else (k', v) :: delete k m'
  end.

Definition size {V : Type} (m : t V) : nat := length m.

Definition keys {V : Type} (m : t V) : list string := map fst m.

Definition values {V : Type} (m : t V) : list V := map snd m.

Definition clear {V : Type} (m : t V) : t V := [].

(** The entry inserted last, [entries[entries.length - 1]]. *)
Definition last_entry {V : Type} (m : t V) : option (string * V) := last m.

(** Mutation of the object held by the last entry. *)
Fixpoint update_last {V : Type} (f : V -> V) (m : t V) : t V :=
  match m with
  | [] => []
  | [(k, v)] => [(k, f v)]
  | e :: m' => e :: update_last f m'
  end.

End JSMap.

(** ** [src/session-manager.js] *)

Module SessionManager.

Definition OPENAI_WS_URL : string := "wss://api.openai.com/v1/realtime".

(** The accented letters of the program's texts, each one UTF-16 code
    unit: U+00F3 and U+00FA. *)
Definition o_acute : ascii := "243"%char.
Definition u_acute : ascii := "250"%char.

(** *** Data *)

Inductive Status : Type :=
| status_connecting
| status_connected
| status_error
| status_closed.

(** The [Error] values the module creates, one constructor per message. *)
Inductive JsError : Type :=
| LimitReached (maxSessions : Z)
| ConnectTimeout
| TransportError (err : string)
| SessionClosed (code : Z)
| ClosedManually
| ResponseTimeout (responseTimeoutMs : Z)
| OpenAIError (message : string)
| SessionNotFound (sessionId : string)
| SessionUnavailable (status : Status).

Inductive Modality : Type := modality_text | modality_audio.

(** Messages written to the transport with [ws.send(JSON.stringify(...))]. *)
Inductive ClientEvent : Type :=
| session_update (instructions voice : string)
| session_update_instructions (instructions : string)
| conversation_item_create (text event_id : string)
| response_create (event_id : string) (modalities : list Modality)
| input_audio_buffer_clear
| input_audio_buffer_append (audio : string)
| input_audio_buffer_commit (event_id : string).

(** The transport object: what was sent on it and whether it was
    terminated. *)
Record WebSocket : Type := {
  ws_url : string;
  ws_sent : list ClientEvent;
  ws_terminated : bool
}.

Inductive Role : Type := role_user | role_assistant.

Record Turn : Type := {
  role : Role;
  content : string;
  timestamp : Z;
  content_type : option string;
  has_audio : option bool
}.

Record ResponseBuffer : Type := {
  textDelta : string;
  audioDelta : list string;
  inputTranscript : string;
  eventId : option string;
  itemId : option string
}.

(** Which method created a pending entry; [sendText] closes over the
    caller's text. *)
Inductive CallKind : Type :=
| TextCall (text : string)
| AudioCall.

(** An entry of [pendingResponses].  The fields [buffer], [returnAudio] and
    [isAudioInput] are the entry's own; the others are what its [resolve]
    and [reject] closures capture. *)
Record Pending : Type := {
  p_kind : CallKind;
  p_session : nat;
  p_sessionId : string;
  p_requestId : string;
  p_options_returnAudio : option bool;
  p_startTime : Z;
  p_promise : nat;
  buffer : ResponseBuffer;
  returnAudio : bool;
  isAudioInput : bool
}.

Record SessionState : Type := {
  id : string;
  ws : WebSocket;
  status : Status;
  instructions : string;
  voice : string;
  model : string;
  metadata : list (string * string);
  createdAt : Z;
  lastActivityAt : Z;
  conversationHistory : list Turn;
  pendingResponses : JSMap.t Pending
}.

Record Config : Type := {
  cfg_model : string;
  defaultVoice : string;
  apiKey : string;
  responseTimeoutMs : Z;
  sessionMaxIdleMs : Z;
  defaultInstructions : string;
  maxSessions : Z
}.

(** The configuration when neither the constructor argument nor the
    process environment overrides anything. *)
Definition default_config : Config := {|
  cfg_model := "gpt-4o-mini-realtime-preview";
  defaultVoice := "alloy";
  apiKey := "";
  responseTimeoutMs := 30000;
  sessionMaxIdleMs := 300000;
  defaultInstructions := String.append "Eres un asistente " (String u_acute "til.");
  maxSessions := 0
|}.

(** What the promise of [createSession] resolves with. *)
Record SessionInfo : Type := {
  si_session_id : string;
  si_status : string;
  si_model : string;
  si_voice : string;
  si_instructions_preview : string;
  si_created_at : Z
}.

(** What the promise of [sendText] or [sendAudio] resolves with; the
    optional fields are the properties that may be absent. *)
Record SendResult : Type := {
  response_text : string;
  input_transcript : option string;
  duration_ms : Z;
  session_id : string;
  request_id : string;
  audio_base64 : option string;
  audio_format : option string;
  audio_sample_rate : option Z
}.

Inductive Value : Type :=
| VSession (info : SessionInfo)
| VResult (result : SendResult).

Inductive PromiseState : Type :=
| Unsettled
| Resolved (v : Value)
| Rejected (e : JsError).

(** The manager together with the objects its closures refer to: the
    session objects by location, the promises by handle, and the set of
    armed timers (a timer has the handle of the promise it guards). *)
Record World : Type := {
  config : Config;
  sessions : JSMap.t nat;
  heap : list SessionState;
  promises : list PromiseState;
  timers : gset nat
}.

(** [new SessionManager(config)], the configuration already resolved. *)
Definition constructor (cfg : Config) : World := {|
  config := cfg;
  sessions := JSMap.empty;
  heap := [];
  promises := [];
  timers := ∅
|}.

(** *** Field updates *)

Definition set_ws (x : WebSocket) (s : SessionState) : SessionState :=
  {| id := id s; ws := x; status := status s; instructions := instructions s;
     voice := voice s; model := model s; metadata := metadata s;
     createdAt := createdAt s; lastActivityAt := lastActivityAt s;
     conversationHistory := conversationHistory s;
     pendingResponses := pendingResponses s |}.

Definition set_status (x : Status) (s : SessionState) : SessionState :=
  {| id := id s; ws := ws s; status := x; instructions := instructions s;
     voice := voice s; model := model s; metadata := metadata s;
     createdAt := createdAt s; lastActivityAt := lastActivityAt s;
     conversationHistory := conversationHistory s;
     pendingResponses := pendingResponses s |}.

Definition set_instructions (x : string) (s : SessionState) : SessionState :=
  {| id := id s; ws := ws s; status := status s; instructions := x;
     voice := voice s; model := model s; metadata := metadata s;
     createdAt := createdAt s; lastActivityAt := lastActivityAt s;
     conversationHistory := conversationHistory s;
     pendingResponses := pendingResponses s |}.

Definition set_lastActivityAt (x : Z) (s : SessionState) : SessionState :=
  {| id := id s; ws := ws s; status := status s; instructions := instructions s;
     voice := voice s; model := model s; metadata := metadata s;
     createdAt := createdAt s; lastActivityAt := x;
     conversationHistory := conversationHistory s;
     pendingResponses := pendingResponses s |}.

Definition set_conversationHistory (x : list Turn) (s : SessionState) : SessionState :=
  {| id := id s; ws := ws s; status := status s; instructions := instructions s;
     voice := voice s; model := model s; metadata := metadata s;
     createdAt := createdAt s; lastActivityAt := lastActivityAt s;
     conversationHistory := x;
     pendingResponses := pendingResponses s |}.

Definition set_pendingResponses (x : JSMap.t Pending) (s : SessionState) : SessionState :=
  {| id := id s; ws := ws s; status := status s; instructions := instructions s;
     voice := voice s; model := model s; metadata := metadata s;
     createdAt := createdAt s; lastActivityAt := lastActivityAt s;
     conversationHistory := conversationHistory s;
     pendingResponses := x |}.

Definition set_buffer (x : ResponseBuffer) (p : Pending) : Pending :=
  {| p_kind := p_kind p; p_session := p_session p; p_sessionId := p_sessionId p;
     p_requestId := p_requestId p;
     p_options_returnAudio := p_options_returnAudio p;
     p_startTime := p_startTime p; p_promise := p_promise p;
     buffer := x; returnAudio := returnAudio p; isAudioInput := isAudioInput p |}.

Definition set_textDelta (x : string) (b : ResponseBuffer) : ResponseBuffer :=
  {| textDelta := x; audioDelta := audioDelta b;
     inputTranscript := inputTranscript b; eventId := eventId b; itemId := itemId b |}.

Definition set_audioDelta (x : list string) (b : ResponseBuffer) : ResponseBuffer :=
  {| textDelta := textDelta b; audioDelta := x;
     inputTranscript := inputTranscript b; eventId := eventId b; itemId := itemId b |}.

Definition set_inputTranscript (x : string) (b : ResponseBuffer) : ResponseBuffer :=
  {| textDelta := textDelta b; audioDelta := audioDelta b;
     inputTranscript := x; eventId := eventId b; itemId := itemId b |}.

Definition set_sessions (x : JSMap.t nat) (w : World) : World :=
  {| config := config w; sessions := x; heap := heap w;
     promises := promises w; timers := timers w |}.

Definition set_heap (x : list SessionState) (w : World) : World :=
  {| config := config w; sessions := sessions w; heap := x;
     promises := promises w; timers := timers w |}.

Definition set_promises (x : list PromiseState) (w : World) : World :=
  {| config := config w; sessions := sessions w; heap := heap w;
     promises := x; timers := timers w |}.

Definition set_timers (x : gset nat) (w : World) : World :=
  {| config := config w; sessions := sessions w; heap := heap w;
     promises := promises w; timers := x |}.

(** *** Objects, promises and timers *)

(** Mutation of the session object at a location. *)
Definition modify (session : nat) (f : SessionState -> SessionState) (w : World) : World :=
  set_heap (alter f session (heap w)) w.

(** [ws.send(message)] on the transport of a session object once the
    transport has left its connecting state: the message joins the record
    of what was sent.  While the transport is connecting [ws.send] raises
    and records nothing; the operations that send test [ws_connecting]
    below before they use [ws_send], and fail with [NOT_OPEN] there. *)
Definition ws_send (message : ClientEvent) (s : SessionState) : SessionState :=
  set_ws {| ws_url := ws_url (ws s);
            ws_sent := ws_sent (ws s) ++ [message];
            ws_terminated := ws_terminated (ws s) |} s.

(** Whether the transport of a session object is still connecting.  The
    object has status [connecting] from its creation until the handler of
    the [open], [error] or [close] event of its transport runs, and the
    transport emits [open] as it leaves its connecting state.  As long as
    it is connecting, [ws.send] raises [NOT_OPEN] instead of sending. *)
Definition ws_connecting (w : World) (session : nat) : bool :=
  match heap w !! session with
  | Some s =>
      match status s with
      | status_connecting => true
      | _ => false
      end
  | None => false
  end.

Definition NOT_OPEN : JsError :=
  TransportError "WebSocket is not open: readyState 0 (CONNECTING)".

(** [ws.terminate()]. *)
Definition ws_terminate (s : SessionState) : SessionState :=
  set_ws {| ws_url := ws_url (ws s);
            ws_sent := ws_sent (ws s);
            ws_terminated := true |} s.

(** Settling a promise: only the first [resolve] or [reject] counts. *)
Definition settle (h : nat) (outcome : PromiseState) (w : World) : World :=
  match promises w !! h with
  | Some Unsettled => set_promises (<[h:=outcome]> (promises w)) w
  | _ => w
  end.

Definition setTimeout (h : nat) (w : World) : World :=
  set_timers ({[h]} ∪ timers w) w.

Definition clearTimeout (h : nat) (w : World) : World :=
  set_timers (timers w ∖ {[h]}) w.

(** [a || b] on strings: the empty string and [undefined] are falsy. *)
Definition or_string (a : option string) (b : string) : string :=
  match a with
  | Some s => if String.eqb s "" then b else s
  | None => b
  end.

Definition truthy (s : string) : bool := negb (String.eqb s "").

(** [s.substring(0, 100) + (s.length > 100 ? '...' : '')]; lengths and
    positions count UTF-16 code units, the characters of a [string]
    here. *)
Definition preview (s : string) : string :=
  String.append (substring 0 100 s)
    (if (100 <? String.length s)%nat then "..." else "").

(** [options.returnAudio] as a condition, and [options.returnAudio !== false]. *)
Definition is_true (o : option bool) : bool :=
  match o with
  | Some true => true
  | _ => false
  end.

Definition not_false (o : option bool) : bool :=
  match o with
  | Some false => false
  | _ => true
  end.

(** *** Pending requests *)

Definition push_turn (t : Turn) (s : SessionState) : SessionState :=
  set_conversationHistory (conversationHistory s ++ [t]) s.

(** The result object built by the [resolve] closure of an entry. *)
Definition make_result (p : Pending) (data : ResponseBuffer) (now : Z) : SendResult :=
  let durationMs := (now - p_startTime p)%Z in
  let with_audio :=
    match p_kind p with
    | TextCall _ => is_true (p_options_returnAudio p)
    | AudioCall => not_false (p_options_returnAudio p)
    end && (0 <? length (audioDelta data))%nat in
  {| response_text := textDelta data;
     input_transcript :=
       match p_kind p with
       | TextCall _ => None
       | AudioCall => Some (inputTranscript data)
       end;
     duration_ms := durationMs;
     session_id := p_sessionId p;
     request_id := p_requestId p;
     audio_base64 := if with_audio then Some (String.concat "" (audioDelta data)) else None;
     audio_format := if with_audio then Some "pcm16" else None;
     audio_sample_rate := if with_audio then Some 24000%Z else None |}.

Definition user_turn (p : Pending) (data : ResponseBuffer) (now : Z) : Turn :=
  match p_kind p with
  | TextCall text =>
      {| role := role_user; content := text; timestamp := now;
         content_type := None; has_audio := None |}
  | AudioCall =>
      {| role := role_user;
         content := or_string (Some (inputTranscript data)) "[audio]";
         timestamp := now; content_type := Some "audio"; has_audio := None |}
  end.

Definition assistant_turn (data : ResponseBuffer) (now : Z) : Turn :=
  {| role := role_assistant; content := textDelta data; timestamp := now;
     content_type := None;
     has_audio := Some (0 <? length (audioDelta data))%nat |}.

(** [pending.resolve(data)]: disarm the timeout, record the two turns in
    the history of the captured session, resolve the caller's promise. *)
Definition pending_resolve (p : Pending) (data : ResponseBuffer) (now : Z) (w : World) : World :=
  let w := clearTimeout (p_promise p) w in
  let w := modify (p_session p) (push_turn (user_turn p data now)) w in
  let w := modify (p_session p) (push_turn (assistant_turn data now)) w in
  settle (p_promise p) (Resolved (VResult (make_result p data now))) w.

(** [pending.reject(err)]. *)
Definition pending_reject (p : Pending) (err : JsError) (w : World) : World :=
  let w := clearTimeout (p_promise p) w in
  settle (p_promise p) (Rejected err) w.

Definition _getLatestPending (s : SessionState) : option Pending :=
  option_map snd (JSMap.last_entry (pendingResponses s)).

Definition _getLatestPendingId (s : SessionState) : option string :=
  last (JSMap.keys (pendingResponses s)).

Definition _rejectAllPending (w : World) (session : nat) (err : JsError) : World :=
  match heap w !! session with
  | None => w
  | Some s =>
      let w := fold_left (fun w e => pending_reject (snd e) err w)
                 (pendingResponses s) w in
      modify session (fun s => set_pendingResponses (JSMap.clear (pendingResponses s)) s) w
  end.

Definition _getSession (w : World) (sessionId : string) : JsError + nat :=
  match JSMap.get sessionId (sessions w) with
  | None => inl (SessionNotFound sessionId)
  | Some session =>
      match heap w !! session with
      | None => inl (SessionNotFound sessionId)
      | Some s =>
          match status s with
          | status_closed | status_error => inl (SessionUnavailable (status s))
          | _ => inr session
          end
      end
  end.

(** *** Session creation and the transport handlers *)

Record CreateOptions : Type := {
  opt_instructions : option string;
  opt_voice : option string;
  opt_sessionId : option string;
  opt_metadata : option (list (string * string))
}.

(** What the handlers registered on the transport close over. *)
Record Connection : Type := {
  c_session : nat;
  c_sessionId : string;
  c_promise : nat;
  c_voice : string;
  c_instructions : string
}.

Definition createSession (w : World) (options : CreateOptions) (uuid : string) (now : Z)
  : World * (JsError + Connection) :=
  if (0 <? maxSessions (config w))%Z
     && (maxSessions (config w) <=? Z.of_nat (JSMap.size (sessions w)))%Z
  then (w, inl (LimitReached (maxSessions (config w))))
  else
    let sessionId := or_string (opt_sessionId options) uuid in
    let voice := or_string (opt_voice options) (defaultVoice (config w)) in
    let instructions :=
      or_string (opt_instructions options) (defaultInstructions (config w)) in
    let h := length (promises w) in
    let w := set_promises (promises w ++ [Unsettled]) w in
    let wsUrl := String.append OPENAI_WS_URL
                   (String.append "?model=" (cfg_model (config w))) in
    let ws := {| ws_url := wsUrl; ws_sent := []; ws_terminated := false |} in
    let sessionState :=
      {| id := sessionId;
         ws := ws;
         status := status_connecting;
         instructions := instructions;
         voice := voice;
         model := cfg_model (config w);
         metadata := default [] (opt_metadata options);
         createdAt := now;
         lastActivityAt := now;
         conversationHistory := [];
         pendingResponses := JSMap.empty |} in
    let session := length (heap w) in
    let w := set_heap (heap w ++ [sessionState]) w in
    let w := set_sessions (JSMap.set sessionId session (sessions w)) w in
    let w := setTimeout h w in
    (w, inr {| c_session := session; c_sessionId := sessionId; c_promise := h;
               c_voice := voice; c_instructions := instructions |}).

(** The 15 s connect timer; a cleared timer never fires. *)
Definition connectTimeout_fires (w : World) (c : Connection) : World :=
  if bool_decide (c_promise c ∈ timers w) then
    let w := clearTimeout (c_promise c) w in
    let w := modify (c_session c) ws_terminate w in
    let w := set_sessions (JSMap.delete (c_sessionId c) (sessions w)) w in
    settle (c_promise c) (Rejected ConnectTimeout) w
  else w.

Definition ws_on_open (w : World) (c : Connection) : World :=
  match heap w !! c_session c with
  | None => w
  | Some sessionState =>
      let w := clearTimeout (c_promise c) w in
      let w := modify (c_session c) (set_status status_connected) w in
      let w := modify (c_session c)
                 (ws_send (session_update (c_instructions c) (c_voice c))) w in
      settle (c_promise c)
        (Resolved (VSession
           {| si_session_id := c_sessionId c;
              si_status := "ready";
              si_model := cfg_model (config w);
              si_voice := c_voice c;
              si_instructions_preview := preview (c_instructions c);
              si_created_at := createdAt sessionState |})) w
  end.

Definition status_at (w : World) (session : nat) : option Status :=
  status <$> heap w !! session.

Definition status_eqb (a b : Status) : bool :=
  match a, b with
  | status_connecting, status_connecting
  | status_connected, status_connected
  | status_error, status_error
  | status_closed, status_closed => true
  | _, _ => false
  end.

Definition ws_on_error (w : World) (c : Connection) (err : string) : World :=
  let w := clearTimeout (c_promise c) w in
  let w := modify (c_session c) (set_status status_error) w in
  let w := _rejectAllPending w (c_session c) (TransportError err) in
  match status_at w (c_session c) with
  | Some st =>
      if status_eqb st status_connecting then
        let w := set_sessions (JSMap.delete (c_sessionId c) (sessions w)) w in
        settle (c_promise c) (Rejected (TransportError err)) w
      else w
  | None => w
  end.

Definition ws_on_close (w : World) (c : Connection) (code : Z) : World :=
  let w := modify (c_session c) (set_status status_closed) w in
  let closeErr := SessionClosed code in
  let w := _rejectAllPending w (c_session c) closeErr in
  set_sessions (JSMap.delete (c_sessionId c) (sessions w)) w.

(** *** Caller operations *)

Record SendOptions : Type := { opt_returnAudio : option bool }.

(** What the timeout closure of a call captures, and the promise the call
    returned. *)
Record Call : Type := {
  call_session : nat;
  call_requestId : string;
  call_promise : nat
}.

Definition register (session : nat) (requestId : string) (p : Pending) (w : World) : World :=
  modify session
    (fun s => set_pendingResponses (JSMap.set requestId p (pendingResponses s)) s) w.

Definition unregister (session : nat) (requestId : string) (w : World) : World :=
  modify session
    (fun s => set_pendingResponses (JSMap.delete requestId (pendingResponses s)) s) w.

Definition sendText (w : World) (sessionId text : string) (options : SendOptions)
    (uuid : string) (now : Z) : World * (JsError + Call) :=
  match _getSession w sessionId with
  | inl e => (w, inl e)
  | inr session =>
      let w := modify session (set_lastActivityAt now) w in
      let requestId := uuid in
      let h := length (promises w) in
      let w := set_promises (promises w ++ [Unsettled]) w in
      let startTime := now in
      let responseBuffer :=
        {| textDelta := ""; audioDelta := []; inputTranscript := text;
           eventId := None; itemId := None |} in
      let w := setTimeout h w in
      let w := register session requestId
                 {| p_kind := TextCall text;
                    p_session := session;
                    p_sessionId := sessionId;
                    p_requestId := requestId;
                    p_options_returnAudio := opt_returnAudio options;
                    p_startTime := startTime;
                    p_promise := h;
                    buffer := responseBuffer;
                    returnAudio := is_true (opt_returnAudio options) || false;
                    isAudioInput := false |} w in
      let call := {| call_session := session; call_requestId := requestId;
                     call_promise := h |} in
      if ws_connecting w session then
        (* the first [send] raises inside the executor of the promise,
           which rejects the promise; the entry and its timer stay *)
        (settle h (Rejected NOT_OPEN) w, inr call)
      else
        let w := modify session
                   (ws_send (conversation_item_create text
                               (String.append "msg_" requestId))) w in
        let w := modify session
                   (ws_send (response_create (String.append "res_" requestId)
                               (if is_true (opt_returnAudio options)
                                then [modality_text; modality_audio]
                                else [modality_text]))) w in
        (w, inr call)
  end.

(** The response timer of a call; a cleared timer never fires. *)
Definition responseTimeout_fires (w : World) (call : Call) : World :=
  if bool_decide (call_promise call ∈ timers w) then
    let w := clearTimeout (call_promise call) w in
    let w := unregister (call_session call) (call_requestId call) w in
    settle (call_promise call)
      (Rejected (ResponseTimeout (responseTimeoutMs (config w)))) w
  else w.

Definition CHUNK_SIZE : nat := Z.to_nat 15000.

(** [for (let i = 0; i < audioBase64.length; i += CHUNK_SIZE)]: the
    messages of the loop from index [i] on.  Every turn advances [i], so
    [audioBase64.length] turns are always enough. *)
Fixpoint append_chunks (fuel : nat) (audioBase64 : string) (i : nat) : list ClientEvent :=
  match fuel with
  | O => []
  | S fuel' =>
      if (i <? String.length audioBase64)%nat then
        input_audio_buffer_append (substring i CHUNK_SIZE audioBase64)
          :: append_chunks fuel' audioBase64 (i + CHUNK_SIZE)
      else []
  end.

Definition ws_send_all (messages : list ClientEvent) (s : SessionState) : SessionState :=
  fold_left (fun s m => ws_send m s) messages s.

Definition sendAudio (w : World) (sessionId audioBase64 : string) (options : SendOptions)
    (uuid : string) (now : Z) : World * (JsError + Call) :=
  match _getSession w sessionId with
  | inl e => (w, inl e)
  | inr session =>
      let w := modify session (set_lastActivityAt now) w in
      let requestId := uuid in
      let h := length (promises w) in
      let w := set_promises (promises w ++ [Unsettled]) w in
      let startTime := now in
      let responseBuffer :=
        {| textDelta := ""; audioDelta := []; inputTranscript := "";
           eventId := None; itemId := None |} in
      let w := setTimeout h w in
      let w := register session requestId
                 {| p_kind := AudioCall;
                    p_session := session;
                    p_sessionId := sessionId;
                    p_requestId := requestId;
                    p_options_returnAudio := opt_returnAudio options;
                    p_startTime := startTime;
                    p_promise := h;
                    buffer := responseBuffer;
                    returnAudio := not_false (opt_returnAudio options);
                    isAudioInput := true |} w in
      let call := {| call_session := session; call_requestId := requestId;
                     call_promise := h |} in
      if ws_connecting w session then
        (settle h (Rejected NOT_OPEN) w, inr call)
      else
        let w := modify session (ws_send input_audio_buffer_clear) w in
        let w := modify session
                   (ws_send_all
                      (append_chunks (String.length audioBase64) audioBase64 0)) w in
        let w := modify session
                   (ws_send (input_audio_buffer_commit
                               (String.append "audio_" requestId))) w in
        let w := modify session
                   (ws_send (response_create (String.append "res_" requestId)
                               (if not_false (opt_returnAudio options)
                                then [modality_text; modality_audio]
                                else [modality_text]))) w in
        (w, inr call)
  end.

Record UpdateResult : Type := { ur_success : bool; ur_session_id : string }.

Definition updateInstructions (w : World) (sessionId instructions : string) (now : Z)
  : World * (JsError + UpdateResult) :=
  match _getSession w sessionId with
  | inl e => (w, inl e)
  | inr session =>
      let w := modify session (set_instructions instructions) w in
      let w := modify session (set_lastActivityAt now) w in
      if ws_connecting w session then
        (* [send] raises: the two fields are written, the call fails *)
        (w, inl NOT_OPEN)
      else
        let w := modify session
                   (ws_send (session_update_instructions instructions)) w in
        (w, inr {| ur_success := true; ur_session_id := sessionId |})
  end.

Record SessionSummary : Type := {
  ss_session_id : string;
  ss_status : Status;
  ss_model : string;
  ss_voice : string;
  ss_created_at : Z;
  ss_last_activity_at : Z;
  ss_message_count : nat;
  ss_instructions_preview : string;
  ss_metadata : list (string * string)
}.

Definition getSession (w : World) (sessionId : string) : option SessionSummary :=
  match JSMap.get sessionId (sessions w) with
  | None => None
  | Some l =>
      session ← heap w !! l;
      Some {| ss_session_id := id session;
              ss_status := status session;
              ss_model := model session;
              ss_voice := voice session;
              ss_created_at := createdAt session;
              ss_last_activity_at := lastActivityAt session;
              ss_message_count := length (conversationHistory session);
              ss_instructions_preview := preview (instructions session);
              ss_metadata := metadata session |}
  end.

Record HistoryResult : Type := {
  hr_session_id : string;
  hr_messages : list Turn;
  hr_total : nat
}.

Definition getHistory (w : World) (sessionId : string) : JsError + HistoryResult :=
  match _getSession w sessionId with
  | inl e => inl e
  | inr l =>
      match heap w !! l with
      | None => inl (SessionNotFound sessionId)
      | Some session =>
          inr {| hr_session_id := sessionId;
                 hr_messages := conversationHistory session;
                 hr_total := length (conversationHistory session) |}
      end
  end.

Definition listSessions (w : World) : list (option SessionSummary) :=
  map (fun e => getSession w (fst e)) (sessions w).

Record CloseResult : Type := {
  cr_success : bool;
  cr_error : option string;
  cr_session_id : option string
}.

Definition not_found : CloseResult :=
  {| cr_success := false;
     cr_error := Some (String.append "Sesi" (String o_acute "n no encontrada"));
     cr_session_id := None |}.

Definition closed_ok (sessionId : string) : CloseResult :=
  {| cr_success := true; cr_error := None; cr_session_id := Some sessionId |}.

Definition closeSession (w : World) (sessionId : string) : World * CloseResult :=
  match JSMap.get sessionId (sessions w) with
  | None => (w, not_found)
  | Some session =>
      let w := _rejectAllPending w session ClosedManually in
      let w := modify session ws_terminate w in
      let w := set_sessions (JSMap.delete sessionId (sessions w)) w in
      (w, closed_ok sessionId)
  end.

Definition lastActivityAt_at (w : World) (session : nat) : option Z :=
  lastActivityAt <$> heap w !! session.

Definition is_idle (w : World) (now : Z) (session : nat) : bool :=
  match lastActivityAt_at w session with
  | Some t => (sessionMaxIdleMs (config w) <? now - t)%Z
  | None => false
  end.

Definition _cleanupIdleSessions (w : World) (now : Z) : World :=
  fold_left
    (fun w e => if is_idle w now (snd e) then fst (closeSession w (fst e)) else w)
    (sessions w) w.

Definition destroy (w : World) : World :=
  fold_left (fun w e => fst (closeSession w (fst e))) (sessions w) w.

(** *** The inbound event dispatcher *)

Record ErrorObj : Type := { message : option string }.

(** A parsed server event: its [type] and the properties the dispatcher
    reads. *)
Record Event : Type := {
  type : string;
  delta : option string;
  transcript : option string;
  error : option ErrorObj
}.

(** [case a: case b: ...] labels sharing one body. *)
Definition one_of (type : string) (labels : list string) : bool :=
  existsb (String.eqb type) labels.

Definition mutate_latest (f : Pending -> Pending) (s : SessionState) : SessionState :=
  set_pendingResponses (JSMap.update_last f (pendingResponses s)) s.

Definition append_text (d : string) (p : Pending) : Pending :=
  set_buffer (set_textDelta (String.append (textDelta (buffer p)) d) (buffer p)) p.

Definition push_audio (d : string) (p : Pending) : Pending :=
  set_buffer (set_audioDelta (audioDelta (buffer p) ++ [d]) (buffer p)) p.

Definition store_transcript (t : string) (p : Pending) : Pending :=
  set_buffer (set_inputTranscript t (buffer p)) p.

(** [event.error?.message || 'Error desconocido de OpenAI']. *)
Definition error_message (event : Event) : string :=
  or_string (e ← error event; message e) "Error desconocido de OpenAI".

Definition informational : list string :=
  [ "rate_limits.updated"; "response.created"; "response.output_item.added";
    "response.content_part.added"; "response.content_part.done";
    "response.output_item.done"; "input_audio_buffer.committed";
    "input_audio_buffer.cleared"; "conversation.item.created";
    "conversation.item.added"; "conversation.item.done";
    "conversation.item.input_audio_transcription.delta" ].

Definition _handleOpenAIEvent (w : World) (session : nat) (event : Event) (now : Z) : World :=
  match heap w !! session with
  | None => w
  | Some s =>
      if one_of (type event) ["session.created"; "session.updated"] then w
      else if one_of (type event)
                ["response.text.delta"; "response.output_text.delta"] then
        match _getLatestPending s with
        | Some pending =>
            modify session
              (mutate_latest (append_text (or_string (delta event) ""))) w
        | None => w
        end
      else if one_of (type event)
                ["response.audio.delta"; "response.output_audio.delta"] then
        match _getLatestPending s with
        | Some pending =>
            if returnAudio pending then
              modify session
                (mutate_latest (push_audio (or_string (delta event) ""))) w
            else w
        | None => w
        end
      else if one_of (type event)
                ["response.audio_transcript.delta";
                 "response.output_audio_transcript.delta"] then
        match _getLatestPending s with
        | Some pending =>
            if negb (truthy (textDelta (buffer pending))) then
              modify session
                (mutate_latest (append_text (or_string (delta event) ""))) w
            else w
        | None => w
        end
      else if one_of (type event)
                ["conversation.item.input_audio_transcription.completed"] then
        match _getLatestPending s with
        | Some pending =>
            if isAudioInput pending then
              modify session
                (mutate_latest (store_transcript (or_string (transcript event) ""))) w
            else w
        | None => w
        end
      else if one_of (type event) ["response.done"] then
        match _getLatestPending s with
        | Some pending =>
            let requestId := _getLatestPendingId s in
            let w := pending_resolve pending (buffer pending) now w in
            match requestId with
            | Some requestId =>
                if truthy requestId then unregister session requestId w else w
            | None => w
            end
        | None => w
        end
      else if one_of (type event) ["error"] then
        match _getLatestPending s with
        | Some pending =>
            let requestId := _getLatestPendingId s in
            let w := pending_reject pending (OpenAIError (error_message event)) w in
            match requestId with
            | Some requestId =>
                if truthy requestId then unregister session requestId w else w
            | None => w
            end
        | None => w
        end
      else if one_of (type event) informational then w
      else w
  end.

(** [ws.on('message')]: the parsed event goes to the dispatcher with the
    session object of the connection. *)
Definition ws_on_message (w : World) (c : Connection) (event : Event) (now : Z) : World :=
  _handleOpenAIEvent w (c_session c) event now.

(** A stream of inbound events on one session, each with the clock value
    at its arrival. *)
Definition dispatch_all (w : World) (session : nat) (events : list (Event * Z)) : World :=
  fold_left (fun w e => _handleOpenAIEvent w session (fst e) (snd e)) events w.

(** *** Views used in the statements *)

Definition session_at (w : World) (session : nat) : option SessionState :=
  heap w !! session.

Definition pending_at (w : World) (session : nat) : JSMap.t Pending :=
  match heap w !! session with
  | Some s => pendingResponses s
  | None => []
  end.

Definition history_at (w : World) (session : nat) : list Turn :=
  match heap w !! session with
  | Some s => conversationHistory s
  | None => []
  end.

Definition sent_at (w : World) (session : nat) : list ClientEvent :=
  match heap w !! session with
  | Some s => ws_sent (ws s)
  | None => []
  end.

Definition promise_at (w : World) (h : nat) : option PromiseState :=
  promises w !! h.

Definition armed (w : World) (h : nat) : bool := bool_decide (h ∈ timers w).

(** The events that end a request: the terminal event and the error event. *)
Definition ends_request (event : Event) : bool :=
  one_of (type event) ["response.done"; "error"].

(** The promise handles of the entries of a pending table, and the loop of
    [_rejectAllPending] on its own. *)
Definition handles (entries : JSMap.t Pending) : list nat :=
  map (fun e => p_promise (snd e)) entries.

Definition reject_each (err : JsError) (entries : JSMap.t Pending) (w : World) : World :=
  fold_left (fun w e => pending_reject (snd e) err w) entries w.

(** *** The caller-facing operations as one type *)

Inductive CallerOp : Type :=
| OpCreateSession (options : CreateOptions)
| OpSendText (sessionId text : string) (options : SendOptions)
| OpSendAudio (sessionId audioBase64 : string) (options : SendOptions)
| OpUpdateInstructions (sessionId instructions : string)
| OpGetSession (sessionId : string)
| OpGetHistory (sessionId : string)
| OpListSessions
| OpCloseSession (sessionId : string).

(** The world after an operation invoked when the clock reads [now]. *)
Definition run (w : World) (op : CallerOp) (uuid : string) (now : Z) : World :=
  match op with
  | OpCreateSession options => fst (createSession w options uuid now)
  | OpSendText sessionId text options => fst (sendText w sessionId text options uuid now)
  | OpSendAudio sessionId audio options => fst (sendAudio w sessionId audio options uuid now)
  | OpUpdateInstructions sessionId instructions =>
      fst (updateInstructions w sessionId instructions now)
  | OpGetSession sessionId => let _ := getSession w sessionId in w
  | OpGetHistory sessionId => let _ := getHistory w sessionId in w
  | OpListSessions => let _ := listSessions w in w
  | OpCloseSession sessionId => fst (closeSession w sessionId)
  end.

(** Whether a request call on [sessionId] finds the transport open, so
    that its messages are sent.  A call that [_getSession] refuses never
    reaches [send]. *)
Definition transport_open (w : World) (sessionId : string) : bool :=
  match _getSession w sessionId with
  | inr session =>
      match heap w !! session with
      | Some s => status_eqb (status s) status_connected
      | None => false
      end
  | inl _ => true
  end.

(** The entries [sendText] and [sendAudio] put in the pending table, [h]
    being the promise of the call. *)
Definition text_entry (session : nat) (sessionId text : string)
    (options : SendOptions) (requestId : string) (startTime : Z) (h : nat) : Pending :=
  {| p_kind := TextCall text;
     p_session := session;
     p_sessionId := sessionId;
     p_requestId := requestId;
     p_options_returnAudio := opt_returnAudio options;
     p_startTime := startTime;
     p_promise := h;
     buffer := {| textDelta := ""; audioDelta := []; inputTranscript := text;
                  eventId := None; itemId := None |};
     returnAudio := is_true (opt_returnAudio options) || false;
     isAudioInput := false |}.

Definition audio_entry (session : nat) (sessionId : string)
    (options : SendOptions) (requestId : string) (startTime : Z) (h : nat) : Pending :=
  {| p_kind := AudioCall;
     p_session := session;
     p_sessionId := sessionId;
     p_requestId := requestId;
     p_options_returnAudio := opt_returnAudio options;
     p_startTime := startTime;
     p_promise := h;
     buffer := {| textDelta := ""; audioDelta := []; inputTranscript := "";
                  eventId := None; itemId := None |};
     returnAudio := not_false (opt_returnAudio options);
     isAudioInput := true |}.

(** The state a request call leaves when the transport is open: one more
    pending entry, the latest; one more promise, unsettled, its timer
    armed; the history untouched. *)
Record Registered (w w1 : World) (session : nat) (uuid : string) (p : Pending) : Prop := {
  reg_pending : JSMap.get uuid (pending_at w session) = None ->
                pending_at w1 session = pending_at w session ++ [(uuid, p)];
  reg_promises : promises w1 = promises w ++ [Unsettled];
  reg_timers : timers w1 = {[length (promises w)]} ∪ timers w;
  reg_history : forall l, history_at w1 l = history_at w l;
  reg_heap : is_Some (heap w1 !! session);
  reg_sessions : sessions w1 = sessions w;
  reg_config : config w1 = config w
}.

End SessionManager.

(** ** The effect of the accumulating events, as a function on the entry

    What an event other than the terminal and the error event does to the
    latest pending entry; [dispatch_accumulates] below shows that the
    dispatcher does exactly this. *)

Module Accumulation.
Import SessionManager.

Definition accumulate (event : Event) (p : Pending) : Pending :=
  if one_of (type event) ["response.text.delta"; "response.output_text.delta"] then
    append_text (or_string (delta event) "") p
  else if one_of (type event)
            ["response.audio.delta"; "response.output_audio.delta"] then
    if returnAudio p then push_audio (or_string (delta event) "") p else p
  else if one_of (type event)
            ["response.audio_transcript.delta";
             "response.output_audio_transcript.delta"] then
    if negb (truthy (textDelta (buffer p)))
    then append_text (or_string (delta event) "") p
    else p
  else if one_of (type event)
            ["conversation.item.input_audio_transcription.completed"] then
    if isAudioInput p then store_transcript (or_string (transcript event) "") p else p
  else p.

Definition accumulate_all (events : list (Event * Z)) (p : Pending) : Pending :=
  fold_left (fun p e => accumulate (fst e) p) events p.

Definition is_audio_delta (event : Event) : bool :=
  one_of (type event) ["response.audio.delta"; "response.output_audio.delta"].

(** The chunks carried by the audio-delta events of a stream, in order. *)
Definition audio_payloads (events : list (Event * Z)) : list string :=
  flat_map
    (fun e => if is_audio_delta (fst e) then [or_string (delta (fst e)) ""] else [])
    events.

Definition is_transcript_delta (event : Event) : bool :=
  one_of (type event)
    ["response.audio_transcript.delta"; "response.output_audio_transcript.delta"].

Definition payloads (events : list (Event * Z)) : list string :=
  map (fun e => or_string (delta (fst e)) "") events.

Fixpoint first_nonempty (l : list string) : string :=
  match l with
  | [] => ""
  | x :: l' => if truthy x then x else first_nonempty l'
  end.

Definition is_text_delta (event : Event) : bool :=
  one_of (type event) ["response.text.delta"; "response.output_text.delta"].

(** The text carried by the text-delta events of a stream, in order. *)
Definition text_payloads (events : list (Event * Z)) : list string :=
  flat_map
    (fun e => if is_text_delta (fst e) then [or_string (delta (fst e)) ""] else [])
    events.

Definition is_transcription (event : Event) : bool :=
  one_of (type event) ["conversation.item.input_audio_transcription.completed"].

(** The transcripts carried by the input-transcription events of a stream,
    in order. *)
Definition transcriptions (events : list (Event * Z)) : list string :=
  flat_map
    (fun e => if is_transcription (fst e)
              then [or_string (transcript (fst e)) ""] else [])
    events.

End Accumulation.

(** ** The manager in its environment

    The callers, the transports and the timers drive the manager.  A
    [System] is a world together with the closures the environment still
    holds: the handlers registered on the transports created so far and
    the timeout closures of the calls made so far. *)

Module Runs.
Import SessionManager.

Record System : Type := {
  world : World;
  connections : list Connection;
  calls : list Call
}.

Inductive Action : Type :=
| ACreateSession (options : CreateOptions) (uuid : string) (now : Z)
| ASendText (sessionId text : string) (options : SendOptions) (uuid : string) (now : Z)
| ASendAudio (sessionId audioBase64 : string) (options : SendOptions)
    (uuid : string) (now : Z)
| AUpdateInstructions (sessionId instructions : string) (now : Z)
| ACloseSession (sessionId : string)
| ACleanupIdleSessions (now : Z)
| AConnectTimeout (c : Connection)
| AOpen (c : Connection)
| AMessage (c : Connection) (event : Event) (now : Z)
| AError (c : Connection) (err : string)
| AClose (c : Connection) (code : Z)
| AResponseTimeout (call : Call).

Definition with_world (w : World) (sys : System) : System :=
  {| world := w; connections := connections sys; calls := calls sys |}.

Definition add_connection (r : JsError + Connection) (l : list Connection)
  : list Connection :=
  match r with
  | inr c => c :: l
  | inl _ => l
  end.

Definition add_call (r : JsError + Call) (l : list Call) : list Call :=
  match r with
  | inr call => call :: l
  | inl _ => l
  end.

Definition exec (sys : System) (a : Action) : System :=
  let w := world sys in
  match a with
  | ACreateSession options uuid now =>
      {| world := fst (createSession w options uuid now);
         connections :=
           add_connection (snd (createSession w options uuid now)) (connections sys);
         calls := calls sys |}
  | ASendText sessionId text options uuid now =>
      {| world := fst (sendText w sessionId text options uuid now);
         connections := connections sys;
         calls := add_call (snd (sendText w sessionId text options uuid now)) (calls sys) |}
  | ASendAudio sessionId audio options uuid now =>
      {| world := fst (sendAudio w sessionId audio options uuid now);
         connections := connections sys;
         calls := add_call (snd (sendAudio w sessionId audio options uuid now)) (calls sys) |}
  | AUpdateInstructions sessionId instructions now =>
      with_world (fst (updateInstructions w sessionId instructions now)) sys
  | ACloseSession sessionId => with_world (fst (closeSession w sessionId)) sys
  | ACleanupIdleSessions now => with_world (_cleanupIdleSessions w now) sys
  | AConnectTimeout c => with_world (connectTimeout_fires w c) sys
  | AOpen c => with_world (ws_on_open w c) sys
  | AMessage c event now => with_world (ws_on_message w c event now) sys
  | AError c err => with_world (ws_on_error w c err) sys
  | AClose c code => with_world (ws_on_close w c code) sys
  | AResponseTimeout call => with_world (responseTimeout_fires w call) sys
  end.

(** What the environment can do: a transport event runs the handlers of a
    transport that was created, a response timer belongs to a call that
    was made, and [uuidv4()] never returns the empty string.  Callers may
    call any operation at any time. *)
Definition enabled (sys : System) (a : Action) : Prop :=
  match a with
  | ASendText _ _ _ uuid _ | ASendAudio _ _ _ uuid _ => uuid <> ""
  | AConnectTimeout c | AOpen c | AMessage c _ _ | AError c _ | AClose c _ =>
      c ∈ connections sys
  | AResponseTimeout call => call ∈ calls sys
  | _ => True
  end.

Definition initial (cfg : Config) : System :=
  {| world := constructor cfg; connections := []; calls := [] |}.

Inductive reachable (cfg : Config) : System -> Prop :=
| reachable_initial : reachable cfg (initial cfg)
| reachable_step sys a :
    reachable cfg sys -> enabled sys a -> reachable cfg (exec sys a).

(** The promise of a request that is still in a pending table: not
    settled, or rejected at once because the transport was still
    connecting when the call tried to send. *)
Definition awaiting (o : option PromiseState) : Prop :=
  o = Some Unsettled \/ o = Some (Rejected NOT_OPEN).

(** The invariant of the pending tables: every entry of every session
    object has a non-empty key, an armed timer and a promise that is still
    [awaiting]; a promise handle identifies its entry; the handlers of a
    transport and the timeout closure of a call never settle the promise
    of another request; the registry only holds session objects that
    exist. *)
Record Inv (sys : System) : Prop := {
  inv_registry : forall k l,
    JSMap.get k (sessions (world sys)) = Some l -> l < length (heap (world sys));
  inv_key : forall l k p,
    (k, p) ∈ pending_at (world sys) l -> k <> "" /\ p_session p = l;
  inv_awaiting : forall l k p,
    (k, p) ∈ pending_at (world sys) l ->
    awaiting (promise_at (world sys) (p_promise p));
  inv_armed : forall l k p,
    (k, p) ∈ pending_at (world sys) l -> p_promise p ∈ timers (world sys);
  inv_distinct : forall l k p l' k' p',
    (k, p) ∈ pending_at (world sys) l ->
    (k', p') ∈ pending_at (world sys) l' ->
    p_promise p = p_promise p' -> l = l' /\ k = k';
  inv_connection : forall c,
    c ∈ connections sys ->
    c_promise c < length (promises (world sys))
    /\ forall l k p, (k, p) ∈ pending_at (world sys) l -> p_promise p <> c_promise c;
  inv_call : forall call,
    call ∈ calls sys ->
    call_promise call < length (promises (world sys))
    /\ forall l k p,
         (k, p) ∈ pending_at (world sys) l ->
         p_promise p = call_promise call ->
         l = call_session call /\ k = call_requestId call
}.

End Runs.

(** ** The registry over a run *)

Module Registry.
Import SessionManager.

(** The session objects of [w] are still there in [w'], each with the id
    it was created with. *)
Definition ids_kept (w w' : World) : Prop :=
  forall l s, heap w !! l = Some s ->
    exists s', heap w' !! l = Some s' /\ id s' = id s.

Definition delete_all {V : Type} (ks : list string) (m : JSMap.t V) : JSMap.t V :=
  fold_left (fun m k => JSMap.delete k m) ks m.

(** A step that leaves the configuration alone and, from the registry,
    at most deletes ids. *)
Definition shrinks (w w' : World) : Prop :=
  config w' = config w
  /\ ids_kept w w'
  /\ exists ks, sessions w' = delete_all ks (sessions w).

(** The registry of a manager built with [cfg]: at most one entry per id,
    every entry leading to a session object created with that id, and no
    more entries than [maxSessions] when that limit is set. *)
Record Wf (cfg : Config) (w : World) : Prop := {
  wf_config : config w = cfg;
  wf_unique : NoDup (JSMap.keys (sessions w));
  wf_ids : forall k l,
    JSMap.get k (sessions w) = Some l ->
    exists s, heap w !! l = Some s /\ id s = k;
  wf_bound :
    (0 < maxSessions cfg)%Z ->
    (Z.of_nat (JSMap.size (sessions w)) <= maxSessions cfg)%Z
}.

(** What the idle sweep leaves of the entry of an id. *)
Definition swept (w : World) (now : Z) (k : string) : option nat :=
  match JSMap.get k (sessions w) with
  | Some l => if is_idle w now l then None else Some l
  | None => None
  end.

End Registry.

(** ** Concrete runs *)

Module Scenario.
Import SessionManager.

Definition options_for (sessionId : string) : CreateOptions :=
  {| opt_instructions := None; opt_voice := None;
     opt_sessionId := Some sessionId; opt_metadata := None |}.

Definition absent : SendOptions := {| opt_returnAudio := None |}.

Definition ev (t : string) (d : option string) : Event :=
  {| type := t; delta := d; transcript := None; error := None |}.

Definition w_new : World := constructor default_config.

(** [createSession({sessionId: 's1'})] at time 1000. *)
Definition w_connecting : World :=
  fst (createSession w_new (options_for "s1") "uuid-1" 1000).

Definition c1 : Connection :=
  {| c_session := 0; c_sessionId := "s1"; c_promise := 0;
     c_voice := "alloy"; c_instructions := defaultInstructions default_config |}.

(** The transport opens. *)
Definition w_connected : World := ws_on_open w_connecting c1.

(** [sendText('s1', 'hola')] at time 2000, the request id being [req-1]. *)
Definition w_text_pending : World :=
  fst (sendText w_connected "s1" "hola" absent "req-1" 2000).

(** [sendAudio('s1', 'AAAA')] at time 2000. *)
Definition w_audio_pending : World :=
  fst (sendAudio w_connected "s1" "AAAA" absent "req-1" 2000).

(** The entry that request leaves in the pending table. *)
Definition p1 : Pending :=
  {| p_kind := TextCall "hola"; p_session := 0; p_sessionId := "s1";
     p_requestId := "req-1"; p_options_returnAudio := None;
     p_startTime := 2000; p_promise := 1;
     buffer := {| textDelta := ""; audioDelta := []; inputTranscript := "hola";
                  eventId := None; itemId := None |};
     returnAudio := false; isAudioInput := false |}.


(** That text request answered: one text delta, then the terminal event. *)
Definition w_answered : World :=
  dispatch_all w_text_pending 0
    [ (ev "response.text.delta" (Some "buenas"), 2100%Z);
      (ev "response.done" None, 2300%Z) ].

(** The same run as a system in its environment, up to the pending text
    request. *)
Definition sys_text_pending : Runs.System :=
  Runs.exec
    (Runs.exec
       (Runs.exec (Runs.initial default_config)
          (Runs.ACreateSession (options_for "s1") "uuid-1" 1000))
       (Runs.AOpen c1))
    (Runs.ASendText "s1" "hola" absent "req-1" 2000).

(** A manager limited to one session, one session created. *)
Definition limited_config : Config :=
  {| cfg_model := cfg_model default_config;
     defaultVoice := defaultVoice default_config;
     apiKey := apiKey default_config;
     responseTimeoutMs := responseTimeoutMs default_config;
     sessionMaxIdleMs := sessionMaxIdleMs default_config;
     defaultInstructions := defaultInstructions default_config;
     maxSessions := 1 |}.

Definition sys_limited : Runs.System :=
  Runs.exec (Runs.initial limited_config)
    (Runs.ACreateSession (options_for "s1") "uuid-1" 1000).

End Scenario.

(* ===================================================================== *)
(** * Part II: properties                                                 *)
(* ===================================================================== *)

Section Base64Facts.
Import Base64.

Lemma all_below_spec (n : nat) (P : N -> bool) :
  all_below n P = true -> forall k : N, (k < N.of_nat n)%N -> P k = true.
Proof.
  induction n as [|n IH]; simpl; intros H k Hk.
  - lia.
  - apply andb_prop in H as [Hn Hrest].
    destruct (N.eq_dec k (N.of_nat n)) as [->|Hne]; [exact Hn|].
    apply IH; [exact Hrest | lia].
Qed.

Lemma all_below2_spec (n m : nat) (P : N -> N -> bool) :
  all_below n (fun x => all_below m (P x)) = true ->
  forall x y : N, (x < N.of_nat n)%N -> (y < N.of_nat m)%N -> P x y = true.
Proof.
  intros H x y Hx Hy.
  apply (all_below_spec m (P x)); [|exact Hy].
  apply (all_below_spec n (fun x => all_below m (P x))); assumption.
Qed.

Lemma byte_lt_256 (b : byte) : (Byte.to_N b < N.of_nat 256)%N.
Proof. pose proof (Byte.to_N_bounded b). lia. Qed.

Lemma byte_of_to_N (b : byte) : byte_of_N (Byte.to_N b) = b.
Proof.
  unfold byte_of_N. pose proof (Byte.to_N_bounded b).
  rewrite N.mod_small by lia. now rewrite Byte.of_to_N.
Qed.

(** Every character the encoder emits for a sextet is decoded back to it
    (so it is neither skipped nor taken for padding). *)
Lemma unbase64_b64char (v : N) :
  (v < 64)%N -> unbase64 (b64char v) = Some v.
Proof.
  intros Hv.
  assert (H : all_below 64 (fun v =>
            match unbase64 (b64char v) with
            | Some w => N.eqb w v
            | None => false
            end) = true) by (vm_compute; reflexivity).
  pose proof (all_below_spec _ _ H v Hv) as Hk. simpl in Hk.
  destruct (unbase64 (b64char v)) as [w|]; [|discriminate].
  apply N.eqb_eq in Hk. now subst.
Qed.

Lemma sextet1_lt (a : N) : (a < N.of_nat 256)%N -> (sextet1 a < 64)%N.
Proof.
  intros Ha.
  assert (H : all_below 256 (fun a => N.ltb (sextet1 a) 64) = true)
    by (vm_compute; reflexivity).
  apply N.ltb_lt. exact (all_below_spec _ _ H a Ha).
Qed.

Lemma sextet4_lt (a : N) : (a < N.of_nat 256)%N -> (sextet4 a < 64)%N.
Proof.
  intros Ha.
  assert (H : all_below 256 (fun a => N.ltb (sextet4 a) 64) = true)
    by (vm_compute; reflexivity).
  apply N.ltb_lt. exact (all_below_spec _ _ H a Ha).
Qed.

Lemma sextet2_lt (a b : N) :
  (a < N.of_nat 256)%N -> (b < N.of_nat 256)%N -> (sextet2 a b < 64)%N.
Proof.
  intros Ha Hb.
  assert (H : all_below 256 (fun a => all_below 256 (fun b =>
            N.ltb (sextet2 a b) 64)) = true) by (vm_compute; reflexivity).
  apply N.ltb_lt. exact (all_below2_spec _ _ _ H a b Ha Hb).
Qed.

Lemma sextet3_lt (a b : N) :
  (a < N.of_nat 256)%N -> (b < N.of_nat 256)%N -> (sextet3 a b < 64)%N.
Proof.
  intros Ha Hb.
  assert (H : all_below 256 (fun a => all_below 256 (fun b =>
            N.ltb (sextet3 a b) 64)) = true) by (vm_compute; reflexivity).
  apply N.ltb_lt. exact (all_below2_spec _ _ _ H a b Ha Hb).
Qed.

(** The first octet is recovered from the first two sextets. *)
Lemma octet1_sextets (a b : N) :
  (a < N.of_nat 256)%N -> (b < N.of_nat 256)%N ->
  octet1 (sextet1 a) (sextet2 a b) = a.
Proof.
  intros Ha Hb.
  assert (H : all_below 256 (fun a => all_below 256 (fun b =>
            N.eqb (octet1 (sextet1 a) (sextet2 a b)) a)) = true)
    by (vm_compute; reflexivity).
  apply N.eqb_eq. exact (all_below2_spec _ _ _ H a b Ha Hb).
Qed.

(** The second octet takes its high nibble from the second sextet and its
    low nibble from the third; each half only involves two octets. *)
Lemma octet2_high (a b : N) :
  (a < N.of_nat 256)%N -> (b < N.of_nat 256)%N ->
  N.land (sextet2 a b) 15 = N.shiftr b 4.
Proof.
  intros Ha Hb.
  assert (H : all_below 256 (fun a => all_below 256 (fun b =>
            N.eqb (N.land (sextet2 a b) 15) (N.shiftr b 4))) = true)
    by (vm_compute; reflexivity).
  apply N.eqb_eq. exact (all_below2_spec _ _ _ H a b Ha Hb).
Qed.

Lemma octet2_low (b c : N) :
  (b < N.of_nat 256)%N -> (c < N.of_nat 256)%N ->
  N.shiftr (N.land (sextet3 b c) 60) 2 = N.land b 15.
Proof.
  intros Hb Hc.
  assert (H : all_below 256 (fun b => all_below 256 (fun c =>
            N.eqb (N.shiftr (N.land (sextet3 b c) 60) 2) (N.land b 15))) = true)
    by (vm_compute; reflexivity).
  apply N.eqb_eq. exact (all_below2_spec _ _ _ H b c Hb Hc).
Qed.

Lemma nibbles_join (b : N) :
  (b < N.of_nat 256)%N ->
  N.lor (N.shiftl (N.shiftr b 4) 4) (N.land b 15) = b.
Proof.
  intros Hb.
  assert (H : all_below 256 (fun b =>
            N.eqb (N.lor (N.shiftl (N.shiftr b 4) 4) (N.land b 15)) b) = true)
    by (vm_compute; reflexivity).
  apply N.eqb_eq. exact (all_below_spec _ _ H b Hb).
Qed.

Lemma octet2_sextets (a b c : N) :
  (a < N.of_nat 256)%N -> (b < N.of_nat 256)%N -> (c < N.of_nat 256)%N ->
  octet2 (sextet2 a b) (sextet3 b c) = b.
Proof.
  intros Ha Hb Hc. unfold octet2.
  rewrite octet2_high, octet2_low by assumption.
  now apply nibbles_join.
Qed.

Lemma octet3_sextets (b c : N) :
  (b < N.of_nat 256)%N -> (c < N.of_nat 256)%N ->
  octet3 (sextet3 b c) (sextet4 c) = c.
Proof.
  intros Hb Hc.
  assert (H : all_below 256 (fun b => all_below 256 (fun c =>
            N.eqb (octet3 (sextet3 b c) (sextet4 c)) c)) = true)
    by (vm_compute; reflexivity).
  apply N.eqb_eq. exact (all_below2_spec _ _ _ H b c Hb Hc).
Qed.

End Base64Facts.

Section Base64RoundTrip.
Import Base64.

Lemma list_ind3 {A : Type} (P : list A -> Prop) :
  P [] -> (forall a, P [a]) -> (forall a b, P [a; b]) ->
  (forall a b c l, P l -> P (a :: b :: c :: l)) ->
  forall l, P l.
Proof.
  intros H0 H1 H2 H3 l.
  assert (H : P l /\ (forall a, P (a :: l)) /\ (forall a b, P (a :: b :: l))).
  { induction l as [|x l (IH0 & IH1 & IH2)].
    - auto.
    - repeat split; auto. }
  exact (proj1 H).
Qed.

Lemma sextets_valid (c : ascii) (s : string) (v : N) :
  unbase64 c = Some v -> sextets (String c s) = v :: sextets s.
Proof. intros H. simpl. now rewrite H. Qed.

Lemma sextets_b64char (v : N) (s : string) :
  (v < 64)%N -> sextets (String (b64char v) s) = v :: sextets s.
Proof. intros Hv. apply sextets_valid. now apply unbase64_b64char. Qed.

Lemma sextets_padding (s : string) : sextets (String "=" s) = [].
Proof. reflexivity. Qed.

(** Decoding what the encoder produced gives the bytes back. *)
Lemma decode_encode (l : list byte) : decode (encode l) = l.
Proof.
  unfold decode. induction l as [|a|a b|a b c l IH] using list_ind3.
  - reflexivity.
  - pose proof (byte_lt_256 a) as Ha.
    assert (H0 : (0 < N.of_nat 256)%N) by (simpl; lia).
    cbn [encode].
    rewrite sextets_b64char by now apply sextet1_lt.
    rewrite sextets_b64char by now apply sextet2_lt.
    rewrite sextets_padding. cbn [octets].
    now rewrite octet1_sextets, byte_of_to_N.
  - pose proof (byte_lt_256 a) as Ha. pose proof (byte_lt_256 b) as Hb.
    assert (H0 : (0 < N.of_nat 256)%N) by (simpl; lia).
    cbn [encode].
    rewrite sextets_b64char by now apply sextet1_lt.
    rewrite sextets_b64char by now apply sextet2_lt.
    rewrite sextets_b64char by now apply sextet3_lt.
    rewrite sextets_padding. cbn [octets].
    now rewrite octet1_sextets, octet2_sextets, !byte_of_to_N.
  - pose proof (byte_lt_256 a) as Ha. pose proof (byte_lt_256 b) as Hb.
    pose proof (byte_lt_256 c) as Hc.
    cbn [encode].
    rewrite sextets_b64char by now apply sextet1_lt.
    rewrite sextets_b64char by now apply sextet2_lt.
    rewrite sextets_b64char by now apply sextet3_lt.
    rewrite sextets_b64char by now apply sextet4_lt.
    cbn [octets]. rewrite IH.
    now rewrite octet1_sextets, octet2_sextets, octet3_sextets, !byte_of_to_N.
Qed.

End Base64RoundTrip.

Section AudioFacts.
Import Audio.

Lemma length_write_bytes (bs : list byte) (buf : Buffer) (offset : nat) :
  length (write_bytes buf offset bs) = length buf.
Proof.
  revert buf offset. induction bs as [|x bs IH]; intros buf offset; simpl.
  - reflexivity.
  - now rewrite IH, length_insert.
Qed.

Lemma length_Buffer_write (buf : Buffer) (s : string) (offset : nat) :
  length (Buffer_write buf s offset) = length buf.
Proof. apply length_write_bytes. Qed.

Lemma writeUIntLE_Some (width : nat) (buf : Buffer) (value : Z) (offset : nat) :
  (0 <= value < 2 ^ (8 * Z.of_nat width))%Z ->
  (offset + width <= length buf)%nat ->
  exists buf', writeUIntLE width buf value offset = Some buf'
               /\ length buf' = length buf.
Proof.
  intros [Hlo Hhi] Hoff. unfold writeUIntLE.
  apply Z.leb_le in Hlo. apply Z.ltb_lt in Hhi. apply Nat.leb_le in Hoff.
  rewrite Hlo, Hhi, Hoff. simpl.
  eexists. split; [reflexivity|]. apply length_write_bytes.
Qed.

Lemma writeUIntLE_range (width : nat) (buf : Buffer) (value : Z) (offset : nat) :
  (2 ^ (8 * Z.of_nat width) <= value)%Z ->
  writeUIntLE width buf value offset = None.
Proof.
  intros H. unfold writeUIntLE.
  apply Z.ltb_ge in H. rewrite H. now rewrite andb_false_r.
Qed.

Lemma writeUIntLE_eighths_Some (width : nat) (buf : Buffer) (eighths : Z)
    (offset : nat) :
  (0 <= eighths <= 8 * (2 ^ (8 * Z.of_nat width) - 1))%Z ->
  (offset + width <= length buf)%nat ->
  exists buf', writeUIntLE_eighths width buf eighths offset = Some buf'
               /\ length buf' = length buf.
Proof.
  intros [Hlo Hhi] Hoff. unfold writeUIntLE_eighths.
  rewrite (proj2 (Z.leb_le _ _) Hhi). apply writeUIntLE_Some; [|exact Hoff].
  split; [apply Z.div_pos; lia|].
  apply Z.div_lt_upper_bound; lia.
Qed.

Ltac header_step :=
  lazymatch goal with
  | |- exists _, match writeUIntLE ?w ?b ?v ?o with _ => _ end = _ /\ _ =>
      let h := fresh "header" in
      let E := fresh "E" in
      let L := fresh "L" in
      destruct (writeUIntLE_Some w b v o) as (h & E & L);
      [ unfold default_sampleRate; simpl;
        first [ lia | vm_compute; split; [discriminate | reflexivity] ]
      | rewrite ?length_Buffer_write;
        try (match goal with L' : length _ = 44%nat |- _ => rewrite L' end);
        simpl; lia
      | rewrite E; clear E; rewrite ?length_Buffer_write in L;
        try (match goal with
             | L' : length _ = 44%nat |- _ => rewrite L' in L; clear L'
             end);
        simpl in L ]
  | |- exists _, match writeUIntLE_eighths ?w ?b ?v ?o with _ => _ end = _ /\ _ =>
      let h := fresh "header" in
      let E := fresh "E" in
      let L := fresh "L" in
      destruct (writeUIntLE_eighths_Some w b v o) as (h & E & L);
      [ unfold default_sampleRate; vm_compute; split; discriminate
      | rewrite ?length_Buffer_write;
        try (match goal with L' : length _ = 44%nat |- _ => rewrite L' end);
        simpl; lia
      | rewrite E; clear E; rewrite ?length_Buffer_write in L;
        try (match goal with
             | L' : length _ = 44%nat |- _ => rewrite L' in L; clear L'
             end);
        simpl in L ]
  end.

(** With the default format the header is written whenever the sizes fit
    its 32-bit fields, and it is 44 bytes long. *)
Lemma addWavHeader_default (pcmData : Buffer) :
  (Z.of_nat (length pcmData) <= max_dataSize)%Z ->
  exists header, addWavHeader pcmData default_sampleRate 1 16 = Some (header ++ pcmData)
                 /\ length header = 44%nat.
Proof.
  unfold max_dataSize. intros Hsize.
  unfold addWavHeader, writeUInt32LE, writeUInt16LE, writeUInt32LE_eighths,
    writeUInt16LE_eighths.
  cbv zeta.
  repeat header_step.
  eexists. split; [reflexivity|].
  now rewrite ?length_Buffer_write.
Qed.

(** Beyond that size the first size field overflows and the call raises. *)
Lemma addWavHeader_too_large (pcmData : Buffer) (sampleRate numChannels bitsPerSample : Z) :
  (max_dataSize < Z.of_nat (length pcmData))%Z ->
  addWavHeader pcmData sampleRate numChannels bitsPerSample = None.
Proof.
  unfold max_dataSize. intros Hsize. unfold addWavHeader, writeUInt32LE. cbv zeta.
  rewrite writeUIntLE_range; [reflexivity|]. simpl. lia.
Qed.

(** Whatever string is supplied, the round trip re-encodes the bytes it
    denotes. *)
Lemma roundtrip_any_string (x : string) :
  (Z.of_nat (length (Base64.decode x)) <= max_dataSize)%Z ->
  option_map wavBase64ToPcm16Base64 (pcm16ToWavBase64 x default_sampleRate)
  = Some (Base64.encode (Base64.decode x)).
Proof.
  intros Hsize. unfold pcm16ToWavBase64.
  destruct (addWavHeader_default _ Hsize) as (header & -> & Hlen).
  simpl. unfold wavBase64ToPcm16Base64.
  rewrite decode_encode.
  rewrite drop_app_length'; [reflexivity | now rewrite Hlen].
Qed.

(** The encoding is at least as long as the bytes it encodes, so the
    payload of any base64 string the runtime can hold fits the header. *)
Lemma length_le_encode (l : list byte) :
  (length l <= String.length (Base64.encode l))%nat.
Proof.
  induction l as [|a|a b|a b c l IH] using list_ind3;
    cbn [Base64.encode String.length length]; lia.
Qed.

Lemma js_string_fits (x : list byte) :
  (Z.of_nat (String.length (Base64.encode x)) <= MAX_STRING_LENGTH)%Z ->
  (Z.of_nat (length x) <= max_dataSize)%Z.
Proof.
  pose proof (length_le_encode x). unfold MAX_STRING_LENGTH, max_dataSize.
  assert (2 ^ 29 = 536870912)%Z by reflexivity. lia.
Qed.

(** C1: for every byte sequence [x] that fits a WAV container, given as
    its base64 string, wrapping it in the 44-byte container and unwrapping
    it again returns exactly that string:
    [wavBase64ToPcm16Base64(pcm16ToWavBase64(x)) == x]. *)
Theorem wav_roundtrip (x : list byte) :
  (Z.of_nat (length x) <= Audio.max_dataSize)%Z ->
  option_map wavBase64ToPcm16Base64
    (pcm16ToWavBase64 (Base64.encode x) default_sampleRate)
  = Some (Base64.encode x).
Proof.
  intros Hsize.
  rewrite roundtrip_any_string; rewrite decode_encode; auto.
Qed.

Lemma wav_roundtrip_witness :
  (Z.of_nat (length [x52; x49; x46; x46; x00; xff; x80]) <= Audio.max_dataSize)%Z
  /\ option_map wavBase64ToPcm16Base64
       (pcm16ToWavBase64 (Base64.encode [x52; x49; x46; x46; x00; xff; x80])
          default_sampleRate)
     = Some (Base64.encode [x52; x49; x46; x46; x00; xff; x80]).
Proof.
  assert (H : (Z.of_nat (length [x52; x49; x46; x46; x00; xff; x80])
               <= Audio.max_dataSize)%Z) by (vm_compute; discriminate).
  split; [exact H | exact (wav_roundtrip _ H)].
Defined.

End AudioFacts.

(** ** Facts about [JSMap] *)

Section JSMapFacts.
Context {V : Type}.
Implicit Types (m : JSMap.t V) (k : string) (v : V).

Lemma get_set_same k v m : JSMap.get k (JSMap.set k v m) = Some v.
Proof.
  induction m as [|[k' v'] m IH]; simpl.
  - now rewrite String.eqb_refl.
  - destruct (String.eqb k' k) eqn:E; simpl.
    + now rewrite String.eqb_refl.
    + now rewrite E.
Qed.

Lemma get_set_other k k' v m :
  k <> k' -> JSMap.get k' (JSMap.set k v m) = JSMap.get k' m.
Proof.
  intros Hne. induction m as [|[k0 v0] m IH]; simpl.
  - apply String.eqb_neq in Hne. now rewrite Hne.
  - destruct (String.eqb k0 k) eqn:E; simpl.
    + apply String.eqb_eq in E. subst k0.
      apply String.eqb_neq in Hne. now rewrite Hne.
    + now rewrite IH.
Qed.

Lemma get_delete_same k m : JSMap.get k (JSMap.delete k m) = None.
Proof.
  induction m as [|[k' v'] m IH]; [reflexivity|]. simpl.
  destruct (String.eqb k' k) eqn:E; simpl; [exact IH|].
  now rewrite E.
Qed.

Lemma get_delete_other k k' m :
  k <> k' -> JSMap.get k' (JSMap.delete k m) = JSMap.get k' m.
Proof.
  intros Hne. induction m as [|[k0 v0] m IH]; [reflexivity|]. simpl.
  destruct (String.eqb k0 k) eqn:E; simpl.
  - apply String.eqb_eq in E. subst k0.
    apply String.eqb_neq in Hne. now rewrite Hne.
  - now rewrite IH.
Qed.

Lemma delete_absent k m : JSMap.get k m = None -> JSMap.delete k m = m.
Proof.
  induction m as [|[k' v'] m IH]; [reflexivity|]. simpl.
  destruct (String.eqb k' k) eqn:E; [discriminate|].
  intros H. now rewrite IH.
Qed.

(** Overwriting a key that is present does not change the size. *)
Lemma size_set_present k v m :
  is_Some (JSMap.get k m) -> JSMap.size (JSMap.set k v m) = JSMap.size m.
Proof.
  unfold JSMap.size. induction m as [|[k' v'] m IH]; simpl.
  - intros [x Hx]. discriminate.
  - destruct (String.eqb k' k) eqn:E; simpl; [reflexivity|].
    intros H. now rewrite IH.
Qed.


Lemma get_is_Some_keys k m : is_Some (JSMap.get k m) <-> k ∈ JSMap.keys m.
Proof.
  unfold JSMap.keys. induction m as [|[k' v'] m IH]; simpl.
  - split; [intros [x Hx]; discriminate | intros H; inversion H].
  - destruct (String.eqb k' k) eqn:E.
    + apply String.eqb_eq in E. subst. split; [intros _; left | eauto].
    + apply String.eqb_neq in E. rewrite IH. split.
      * intros H. now right.
      * intros H. inversion H; subst; [congruence | assumption].
Qed.


Lemma update_last_id (f : V -> V) m :
  (forall v, f v = v) -> JSMap.update_last f m = m.
Proof.
  intros Hf. induction m as [|[k v] m IH]; [reflexivity|].
  destruct m as [|e m]; [simpl; now rewrite Hf|].
  change (JSMap.update_last f ((k, v) :: e :: m))
    with ((k, v) :: JSMap.update_last f (e :: m)).
  now rewrite IH.
Qed.

Lemma update_last_compose (f g : V -> V) m :
  JSMap.update_last f (JSMap.update_last g m) = JSMap.update_last (f ∘ g) m.
Proof.
  induction m as [|[k v] m IH]; [reflexivity|].
  destruct m as [|e m]; [reflexivity|].
  change (JSMap.update_last g ((k, v) :: e :: m))
    with ((k, v) :: JSMap.update_last g (e :: m)).
  change (JSMap.update_last (f ∘ g) ((k, v) :: e :: m))
    with ((k, v) :: JSMap.update_last (f ∘ g) (e :: m)).
  rewrite <- IH. destruct (JSMap.update_last g (e :: m)) eqn:E; [|reflexivity].
  destruct m as [|e' m], e; discriminate.
Qed.

Lemma last_update_last (f : V -> V) m :
  JSMap.last_entry (JSMap.update_last f m)
  = prod_map (fun k => k) f <$> JSMap.last_entry m.
Proof.
  unfold JSMap.last_entry. induction m as [|[k v] m IH]; [reflexivity|].
  destruct m as [|e m]; [reflexivity|].
  change (JSMap.update_last f ((k, v) :: e :: m))
    with ((k, v) :: JSMap.update_last f (e :: m)).
  rewrite last_cons_cons. rewrite <- IH.
  destruct (JSMap.update_last f (e :: m)) eqn:E; [|reflexivity].
  destruct m as [|e' m], e; discriminate.
Qed.

End JSMapFacts.

(** ** Facts about the stores of the [World] *)

Section WorldFacts.
Import SessionManager.
Implicit Types (w : World) (s : SessionState) (p : Pending).

Lemma heap_settle h o w : heap (settle h o w) = heap w.
Proof. unfold settle. repeat case_match; reflexivity. Qed.

Lemma sessions_settle h o w : sessions (settle h o w) = sessions w.
Proof. unfold settle. repeat case_match; reflexivity. Qed.

Lemma timers_settle h o w : timers (settle h o w) = timers w.
Proof. unfold settle. repeat case_match; reflexivity. Qed.

Lemma config_settle h o w : config (settle h o w) = config w.
Proof. unfold settle. repeat case_match; reflexivity. Qed.

(** A promise is settled by the first outcome only. *)
Lemma promise_at_settle h h' o w :
  promise_at (settle h o w) h'
  = if decide (h = h') then
      match promise_at w h with
      | Some Unsettled => Some o
      | other => other
      end
    else promise_at w h'.
Proof.
  unfold settle, promise_at.
  destruct (promises w !! h) as [[| |]|] eqn:E; simpl;
    try (case_decide; subst; congruence).
  rewrite list_lookup_insert. apply lookup_lt_Some in E.
  repeat case_decide; subst; try reflexivity; tauto.
Qed.

Lemma session_at_modify l l' (f : SessionState -> SessionState) w :
  session_at (modify l f w) l'
  = if decide (l = l') then f <$> session_at w l else session_at w l'.
Proof. unfold session_at, modify. simpl. apply list_lookup_alter. Qed.

Lemma modify_id l (f : SessionState -> SessionState) w :
  (forall s, f s = s) -> modify l f w = w.
Proof.
  intros Hf. unfold modify. rewrite list_alter_id by assumption.
  now destruct w.
Qed.

Lemma modify_modify l (f g : SessionState -> SessionState) w :
  modify l f (modify l g w) = modify l (f ∘ g) w.
Proof. unfold modify. simpl. now rewrite list_alter_alter_eq. Qed.

Lemma _getSession_inr w sessionId session :
  _getSession w sessionId = inr session ->
  JSMap.get sessionId (sessions w) = Some session
  /\ exists s, heap w !! session = Some s
               /\ status s <> status_closed /\ status s <> status_error.
Proof.
  unfold _getSession. intros H.
  destruct (JSMap.get sessionId (sessions w)) as [l|]; [|discriminate].
  destruct (heap w !! l) as [s|] eqn:Hs; [|discriminate].
  destruct (status s) eqn:Hst; try discriminate;
    injection H as <-; (split; [reflexivity|]);
    exists s; rewrite Hst; repeat split; auto; discriminate.
Qed.

Lemma history_at_modify l l' (f : SessionState -> SessionState) w :
  (forall s, conversationHistory (f s) = conversationHistory s) ->
  history_at (modify l f w) l' = history_at w l'.
Proof.
  intros Hf. unfold history_at.
  change (heap (modify l f w) !! l') with (session_at (modify l f w) l').
  rewrite session_at_modify. unfold session_at.
  case_decide; [subst|reflexivity].
  destruct (heap w !! l'); simpl; [apply Hf | reflexivity].
Qed.

Lemma lastActivityAt_at_modify l l' (f : SessionState -> SessionState) w :
  (forall s, lastActivityAt (f s) = lastActivityAt s) ->
  lastActivityAt_at (modify l f w) l' = lastActivityAt_at w l'.
Proof.
  intros Hf. unfold lastActivityAt_at.
  change (heap (modify l f w) !! l') with (session_at (modify l f w) l').
  rewrite session_at_modify. unfold session_at.
  case_decide; [subst|reflexivity].
  destruct (heap w !! l'); simpl; [now rewrite Hf | reflexivity].
Qed.

End WorldFacts.

(** ** The dispatcher *)

Section Dispatcher.
Import SessionManager.

Lemma _getLatestPending_empty s :
  pendingResponses s = [] -> _getLatestPending s = None.
Proof. unfold _getLatestPending. now intros ->. Qed.

(** C9: an inbound event delivered to a session whose pending-request table
    is empty changes nothing: the status, the history and the table of the
    session, and with them the whole world, are as before.  Every handler
    that touches a request first asks for the latest pending one and does
    nothing when there is none; the dispatcher raises in no branch. *)
Theorem dispatch_without_pending (w : World) (session : nat) (event : Event) (now : Z) :
  pending_at w session = [] ->
  _handleOpenAIEvent w session event now = w.
Proof.
  unfold pending_at, _handleOpenAIEvent. intros Hempty.
  destruct (heap w !! session) as [s|]; [|reflexivity].
  rewrite (_getLatestPending_empty s Hempty).
  repeat case_match; reflexivity.
Qed.

End Dispatcher.

Section DispatcherWitnesses.
Import SessionManager Scenario.

Lemma dispatch_without_pending_witness :
  pending_at w_connected 0 = []
  /\ _handleOpenAIEvent w_connected 0 (ev "response.done" None) 1500 = w_connected.
Proof.
  assert (H : pending_at w_connected 0 = []) by (vm_compute; reflexivity).
  split; [exact H | exact (dispatch_without_pending _ _ _ _ H)].
Defined.

End DispatcherWitnesses.

(** ** Accumulating events only rewrite the latest pending entry *)

Section AccumulationFacts.
Import SessionManager Accumulation.
Implicit Types (w : World) (s : SessionState) (p : Pending).

Lemma modify_absent l (f : SessionState -> SessionState) w :
  heap w !! l = None -> modify l f w = w.
Proof.
  intros H. unfold modify.
  assert (E : alter f l (heap w) = heap w).
  { apply list_eq. intros i. rewrite list_lookup_alter.
    case_decide; [subst; now rewrite H | reflexivity]. }
  rewrite E. now destruct w.
Qed.

Lemma modify_ext l (f g : SessionState -> SessionState) w s :
  heap w !! l = Some s -> f s = g s -> modify l f w = modify l g w.
Proof.
  intros H Hfg. unfold modify. f_equal.
  apply list_alter_ext; [|reflexivity]. intros x Hx. congruence.
Qed.

Lemma modify_fixed l (f : SessionState -> SessionState) w s :
  heap w !! l = Some s -> f s = s -> modify l f w = w.
Proof.
  intros H Hf. rewrite (modify_ext l f (fun s => s) w s H Hf).
  now apply modify_id.
Qed.

Lemma set_pendingResponses_same s : set_pendingResponses (pendingResponses s) s = s.
Proof. now destruct s. Qed.

Lemma update_last_ext {V : Type} (f g : V -> V) (m : JSMap.t V) :
  (forall e, JSMap.last_entry m = Some e -> f (snd e) = g (snd e)) ->
  JSMap.update_last f m = JSMap.update_last g m.
Proof.
  unfold JSMap.last_entry. induction m as [|[k v] m IH]; [reflexivity|].
  destruct m as [|e m].
  - intros H. pose proof (H (k, v) eq_refl) as E. simpl in E.
    simpl. now rewrite E.
  - intros H.
    change (JSMap.update_last f ((k, v) :: e :: m))
      with ((k, v) :: JSMap.update_last f (e :: m)).
    change (JSMap.update_last g ((k, v) :: e :: m))
      with ((k, v) :: JSMap.update_last g (e :: m)).
    rewrite IH; [reflexivity|]. intros e' He'. apply H.
    now rewrite last_cons_cons.
Qed.

(** A guarded mutation of the latest entry, in the shape the handlers
    have: look the entry up, test it, then mutate it. *)
Lemma guarded_mutation l w s (c : Pending -> bool) (f : Pending -> Pending) :
  heap w !! l = Some s ->
  match _getLatestPending s with
  | Some pending => if c pending then modify l (mutate_latest f) w else w
  | None => w
  end
  = modify l (mutate_latest (fun p => if c p then f p else p)) w.
Proof.
  intros Hs. unfold _getLatestPending.
  destruct (JSMap.last_entry (pendingResponses s)) as [[k p]|] eqn:El; simpl.
  - destruct (c p) eqn:Ec.
    + apply (modify_ext _ _ _ _ _ Hs). unfold mutate_latest. f_equal.
      apply update_last_ext. intros e He. rewrite El in He.
      injection He as <-. simpl. now rewrite Ec.
    + symmetry. apply (modify_fixed _ _ _ _ Hs). unfold mutate_latest.
      rewrite (update_last_ext _ (fun p => p)).
      * rewrite update_last_id by reflexivity. apply set_pendingResponses_same.
      * intros e He. rewrite El in He. injection He as <-. simpl. now rewrite Ec.
  - symmetry. apply (modify_fixed _ _ _ _ Hs). unfold mutate_latest.
    unfold JSMap.last_entry in El. apply last_None in El. rewrite El.
    simpl. rewrite <- El. apply set_pendingResponses_same.
Qed.

Lemma unguarded_mutation l w s (f : Pending -> Pending) :
  heap w !! l = Some s ->
  match _getLatestPending s with
  | Some pending => modify l (mutate_latest f) w
  | None => w
  end
  = modify l (mutate_latest f) w.
Proof.
  intros Hs.
  etransitivity; [|exact (guarded_mutation l w s (fun _ => true) f Hs)].
  now destruct (_getLatestPending s).
Qed.

Lemma mutate_latest_id s : mutate_latest (fun p => p) s = s.
Proof.
  unfold mutate_latest. rewrite update_last_id by reflexivity.
  apply set_pendingResponses_same.
Qed.

Lemma ends_request_false event :
  ends_request event = false ->
  one_of (type event) ["response.done"] = false
  /\ one_of (type event) ["error"] = false.
Proof.
  unfold ends_request, one_of. simpl. rewrite !orb_false_r.
  intros H. apply orb_false_elim in H. exact H.
Qed.

(** The dispatcher, on any event but the terminal and the error event,
    applies [accumulate] to the latest pending entry of the session and
    touches nothing else. *)
Lemma dispatch_accumulates w session event now :
  ends_request event = false ->
  _handleOpenAIEvent w session event now
  = modify session (mutate_latest (accumulate event)) w.
Proof.
  intros Hend. destruct (ends_request_false _ Hend) as [Hdone Herr].
  unfold _handleOpenAIEvent.
  destruct (heap w !! session) as [s|] eqn:Hs;
    [|symmetry; now apply modify_absent].
  rewrite Hdone, Herr.
  assert (Hid : w = modify session (mutate_latest (fun p => p)) w).
  { symmetry. apply modify_id. apply mutate_latest_id. }
  unfold accumulate.
  destruct (one_of (type event) ["session.created"; "session.updated"]) eqn:E0.
  { assert (one_of (type event)
              ["response.text.delta"; "response.output_text.delta"] = false
            /\ one_of (type event)
              ["response.audio.delta"; "response.output_audio.delta"] = false
            /\ one_of (type event)
              ["response.audio_transcript.delta";
               "response.output_audio_transcript.delta"] = false
            /\ one_of (type event)
              ["conversation.item.input_audio_transcription.completed"] = false)
      as (-> & -> & -> & ->).
    { unfold one_of in *. simpl in *. rewrite !orb_false_r in *.
      apply orb_prop in E0 as [E0|E0]; apply String.eqb_eq in E0;
        rewrite E0; repeat split; reflexivity. }
    exact Hid. }
  destruct (one_of (type event)
              ["response.text.delta"; "response.output_text.delta"]).
  { now apply unguarded_mutation with (s := s). }
  destruct (one_of (type event)
              ["response.audio.delta"; "response.output_audio.delta"]).
  { now apply (guarded_mutation session w s returnAudio). }
  destruct (one_of (type event)
              ["response.audio_transcript.delta";
               "response.output_audio_transcript.delta"]).
  { now apply (guarded_mutation session w s
                 (fun p => negb (truthy (textDelta (buffer p))))). }
  destruct (one_of (type event)
              ["conversation.item.input_audio_transcription.completed"]).
  { now apply (guarded_mutation session w s isAudioInput). }
  destruct (one_of (type event) informational); exact Hid.
Qed.

Lemma mutate_latest_compose (f g : Pending -> Pending) s :
  mutate_latest f (mutate_latest g s) = mutate_latest (f ∘ g) s.
Proof.
  unfold mutate_latest, set_pendingResponses. simpl.
  now rewrite update_last_compose.
Qed.

Lemma modify_ext_all l (f g : SessionState -> SessionState) w :
  (forall s, f s = g s) -> modify l f w = modify l g w.
Proof.
  intros Hfg. unfold modify. f_equal.
  apply list_alter_ext; [|reflexivity]. intros x _. apply Hfg.
Qed.

(** A stream of such events applies [accumulate] event by event. *)
Lemma dispatch_all_accumulates events w session :
  Forall (fun e => ends_request (fst e) = false) events ->
  dispatch_all w session events
  = modify session (mutate_latest (accumulate_all events)) w.
Proof.
  revert w. induction events as [|[event now] events IH]; intros w Hall.
  - symmetry. apply modify_id. intros s. apply mutate_latest_id.
  - apply Forall_cons in Hall as [Hhd Htl]. simpl in Hhd.
    change (dispatch_all w session ((event, now) :: events))
      with (dispatch_all (_handleOpenAIEvent w session event now) session events).
    rewrite (IH _ Htl), dispatch_accumulates, modify_modify by assumption.
    apply modify_ext_all. intros s. unfold compose.
    rewrite mutate_latest_compose. unfold mutate_latest. f_equal.
Qed.

End AccumulationFacts.

(** ** Requests and their timeout *)

Section Requests.
Import SessionManager Accumulation.
Implicit Types (w : World) (s : SessionState) (p : Pending).

Lemma pending_at_modify l l' (f : SessionState -> SessionState) w :
  pending_at (modify l f w) l'
  = if decide (l = l') then
      match heap w !! l with
      | Some s => pendingResponses (f s)
      | None => []
      end
    else pending_at w l'.
Proof.
  unfold pending_at.
  change (heap (modify l f w) !! l') with (session_at (modify l f w) l').
  rewrite session_at_modify. unfold session_at.
  case_decide; [subst|reflexivity].
  now destruct (heap w !! l').
Qed.

Lemma pending_at_modify_frame l l' (f : SessionState -> SessionState) w :
  (forall s, pendingResponses (f s) = pendingResponses s) ->
  pending_at (modify l f w) l' = pending_at w l'.
Proof.
  intros Hf. rewrite pending_at_modify. case_decide; [subst|reflexivity].
  unfold pending_at. destruct (heap w !! l'); [apply Hf | reflexivity].
Qed.

Lemma pending_at_settle h o w l : pending_at (settle h o w) l = pending_at w l.
Proof. unfold pending_at. now rewrite heap_settle. Qed.

Lemma pending_at_register l k p w :
  is_Some (heap w !! l) ->
  pending_at (register l k p w) l = JSMap.set k p (pending_at w l).
Proof.
  intros [s Hs]. unfold register. rewrite pending_at_modify.
  unfold pending_at. rewrite Hs. now case_decide.
Qed.

Lemma pending_at_unregister l k w :
  pending_at (unregister l k w) l = JSMap.delete k (pending_at w l).
Proof.
  unfold unregister. rewrite pending_at_modify. unfold pending_at.
  case_decide; [|congruence]. now destruct (heap w !! l).
Qed.

Lemma pending_at_mutate_latest l f w :
  pending_at (modify l (mutate_latest f) w) l = JSMap.update_last f (pending_at w l).
Proof.
  rewrite pending_at_modify. unfold pending_at.
  case_decide; [|congruence]. now destruct (heap w !! l).
Qed.

Lemma is_Some_heap_modify l l' (f : SessionState -> SessionState) w :
  is_Some (heap (modify l f w) !! l') <-> is_Some (heap w !! l').
Proof.
  change (heap (modify l f w) !! l') with (session_at (modify l f w) l').
  rewrite session_at_modify. unfold session_at.
  case_decide; [subst|reflexivity]. now rewrite fmap_is_Some.
Qed.

(** *** What [send] does to the three request operations *)

Lemma ws_connecting_modify l l' (f : SessionState -> SessionState) w :
  (forall s, status (f s) = status s) ->
  ws_connecting (modify l f w) l' = ws_connecting w l'.
Proof.
  intros Hf. unfold ws_connecting.
  change (heap (modify l f w) !! l') with (session_at (modify l f w) l').
  rewrite session_at_modify. unfold session_at.
  destruct (decide (l = l')) as [->|]; [|reflexivity].
  destruct (heap w !! l') as [s|]; [|reflexivity]. simpl. now rewrite Hf.
Qed.

Lemma ws_connecting_settle h o w l :
  ws_connecting (settle h o w) l = ws_connecting w l.
Proof. unfold ws_connecting. now rewrite heap_settle. Qed.

(** A session that [_getSession] accepts is connecting or connected. *)
Lemma ws_connecting_open w sessionId session :
  _getSession w sessionId = inr session ->
  ws_connecting w session = negb (transport_open w sessionId).
Proof.
  intros Hs. unfold transport_open, ws_connecting. rewrite Hs.
  destruct (_getSession_inr _ _ _ Hs) as (_ & s & -> & Hc & He).
  destruct (status s); simpl; congruence.
Qed.

Lemma sendText_cases w sessionId text options uuid now session :
  _getSession w sessionId = inr session ->
  sendText w sessionId text options uuid now
  = let h := length (promises w) in
    let w0 :=
      register session uuid
        (text_entry session sessionId text options uuid now h)
        (setTimeout h
           (set_promises (promises w ++ [Unsettled])
              (modify session (set_lastActivityAt now) w))) in
    let call := {| call_session := session; call_requestId := uuid;
                   call_promise := h |} in
    if transport_open w sessionId then
      (modify session
         (ws_send (response_create (String.append "res_" uuid)
                     (if is_true (opt_returnAudio options)
                      then [modality_text; modality_audio]
                      else [modality_text])))
         (modify session
            (ws_send (conversation_item_create text (String.append "msg_" uuid)))
            w0),
       inr call)
    else (settle h (Rejected NOT_OPEN) w0, inr call).
Proof.
  intros Hs. cbv zeta. unfold sendText. rewrite Hs. cbv zeta.
  match goal with
  | |- context [ws_connecting ?x session] =>
      replace (ws_connecting x session) with (negb (transport_open w sessionId))
  end.
  - destruct (transport_open w sessionId); reflexivity.
  - rewrite <- (ws_connecting_open _ _ _ Hs). unfold register.
    rewrite ws_connecting_modify by reflexivity.
    change (ws_connecting (setTimeout ?h (set_promises ?ps ?x)) session)
      with (ws_connecting x session).
    now rewrite ws_connecting_modify.
Qed.

Lemma sendAudio_cases w sessionId audio options uuid now session :
  _getSession w sessionId = inr session ->
  sendAudio w sessionId audio options uuid now
  = let h := length (promises w) in
    let w0 :=
      register session uuid
        (audio_entry session sessionId options uuid now h)
        (setTimeout h
           (set_promises (promises w ++ [Unsettled])
              (modify session (set_lastActivityAt now) w))) in
    let call := {| call_session := session; call_requestId := uuid;
                   call_promise := h |} in
    if transport_open w sessionId then
      (modify session
         (ws_send (response_create (String.append "res_" uuid)
                     (if not_false (opt_returnAudio options)
                      then [modality_text; modality_audio]
                      else [modality_text])))
         (modify session
            (ws_send (input_audio_buffer_commit (String.append "audio_" uuid)))
            (modify session
               (ws_send_all (append_chunks (String.length audio) audio 0))
               (modify session (ws_send input_audio_buffer_clear) w0))),
       inr call)
    else (settle h (Rejected NOT_OPEN) w0, inr call).
Proof.
  intros Hs. cbv zeta. unfold sendAudio. rewrite Hs. cbv zeta.
  match goal with
  | |- context [ws_connecting ?x session] =>
      replace (ws_connecting x session) with (negb (transport_open w sessionId))
  end.
  - destruct (transport_open w sessionId); reflexivity.
  - rewrite <- (ws_connecting_open _ _ _ Hs). unfold register.
    rewrite ws_connecting_modify by reflexivity.
    change (ws_connecting (setTimeout ?h (set_promises ?ps ?x)) session)
      with (ws_connecting x session).
    now rewrite ws_connecting_modify.
Qed.

Lemma updateInstructions_cases w sessionId text now session :
  _getSession w sessionId = inr session ->
  updateInstructions w sessionId text now
  = let w0 := modify session (set_lastActivityAt now)
                (modify session (set_instructions text) w) in
    if transport_open w sessionId then
      (modify session (ws_send (session_update_instructions text)) w0,
       inr {| ur_success := true; ur_session_id := sessionId |})
    else (w0, inl NOT_OPEN).
Proof.
  intros Hs. cbv zeta. unfold updateInstructions. rewrite Hs. cbv zeta.
  match goal with
  | |- context [ws_connecting ?x session] =>
      replace (ws_connecting x session) with (negb (transport_open w sessionId))
  end.
  - destruct (transport_open w sessionId); reflexivity.
  - rewrite <- (ws_connecting_open _ _ _ Hs).
    now rewrite !ws_connecting_modify by reflexivity.
Qed.

Lemma sendText_unfold w sessionId text options uuid now session :
  _getSession w sessionId = inr session ->
  transport_open w sessionId = true ->
  sendText w sessionId text options uuid now
  = (modify session
       (ws_send (response_create (String.append "res_" uuid)
                   (if is_true (opt_returnAudio options)
                    then [modality_text; modality_audio]
                    else [modality_text])))
       (modify session
          (ws_send (conversation_item_create text (String.append "msg_" uuid)))
          (register session uuid
             (text_entry session sessionId text options uuid now
                (length (promises w)))
             (setTimeout (length (promises w))
                (set_promises (promises w ++ [Unsettled])
                   (modify session (set_lastActivityAt now) w))))),
     inr {| call_session := session; call_requestId := uuid;
            call_promise := length (promises w) |}).
Proof. intros Hs Hopen. rewrite (sendText_cases _ _ _ _ _ _ _ Hs). cbv zeta. now rewrite Hopen. Qed.

Lemma sendAudio_unfold w sessionId audio options uuid now session :
  _getSession w sessionId = inr session ->
  transport_open w sessionId = true ->
  sendAudio w sessionId audio options uuid now
  = (modify session
       (ws_send (response_create (String.append "res_" uuid)
                   (if not_false (opt_returnAudio options)
                    then [modality_text; modality_audio]
                    else [modality_text])))
       (modify session
          (ws_send (input_audio_buffer_commit (String.append "audio_" uuid)))
          (modify session
             (ws_send_all (append_chunks (String.length audio) audio 0))
             (modify session (ws_send input_audio_buffer_clear)
                (register session uuid
                   (audio_entry session sessionId options uuid now
                      (length (promises w)))
                   (setTimeout (length (promises w))
                      (set_promises (promises w ++ [Unsettled])
                         (modify session (set_lastActivityAt now) w))))))),
     inr {| call_session := session; call_requestId := uuid;
            call_promise := length (promises w) |}).
Proof. intros Hs Hopen. rewrite (sendAudio_cases _ _ _ _ _ _ _ Hs). cbv zeta. now rewrite Hopen. Qed.


End Requests.

Section RequestWitnesses.
Import SessionManager Scenario.



End RequestWitnesses.

(** ** Instructions, history and activity *)

Section CallerOperations.
Import SessionManager.
Implicit Types (w : World) (s : SessionState) (p : Pending).

(** C8: [updateInstructions] on a session that [_getSession] accepts
    stores the new text in the session's [instructions] field and leaves
    the conversation history of that session, and of every other one,
    exactly as it was.  It does so whether or not the message can then be
    sent: the call returns the success object when the transport is open,
    and fails with the error of the transport, the field already written,
    when the transport is still connecting. *)
Theorem updateInstructions_keeps_history (w : World) (sessionId text : string)
    (now : Z) (session : nat) :
  _getSession w sessionId = inr session ->
  let w' := fst (updateInstructions w sessionId text now) in
  snd (updateInstructions w sessionId text now)
    = (if transport_open w sessionId
       then inr {| ur_success := true; ur_session_id := sessionId |}
       else inl NOT_OPEN)
  /\ instructions <$> session_at w' session = Some text
  /\ forall l, history_at w' l = history_at w l.
Proof.
  intros Hs. destruct (_getSession_inr _ _ _ Hs) as (Hget & s & Hheap & _).
  rewrite (updateInstructions_cases _ _ _ _ _ Hs). cbv zeta.
  destruct (transport_open w sessionId); cbn [fst snd];
    (split; [reflexivity|]); split.
  - rewrite !session_at_modify, !decide_True by reflexivity.
    unfold session_at. now rewrite Hheap.
  - intros l. now rewrite !history_at_modify by reflexivity.
  - rewrite !session_at_modify, !decide_True by reflexivity.
    unfold session_at. now rewrite Hheap.
  - intros l. now rewrite !history_at_modify by reflexivity.
Qed.

End CallerOperations.

Section CallerOperationWitnesses.
Import SessionManager Scenario.

Lemma updateInstructions_keeps_history_witness :
  let w' := fst (updateInstructions w_answered "s1" "Eres un experto en pizza." 3000) in
  snd (updateInstructions w_answered "s1" "Eres un experto en pizza." 3000)
    = (if transport_open w_answered "s1"
       then inr {| ur_success := true; ur_session_id := "s1" |}
       else inl NOT_OPEN)
  /\ instructions <$> session_at w' 0 = Some "Eres un experto en pizza."
  /\ forall l, history_at w' l = history_at w_answered l.
Proof.
  apply (updateInstructions_keeps_history w_answered "s1"
           "Eres un experto en pizza." 3000 0).
  vm_compute; reflexivity.
Defined.

End CallerOperationWitnesses.

(** ** Rejecting every pending request, and closing a session *)

Section Closing.
Import SessionManager.
Implicit Types (w : World) (s : SessionState) (p : Pending).

Lemma heap_reject_each err entries w : heap (reject_each err entries w) = heap w.
Proof.
  unfold reject_each. revert w.
  induction entries as [|e entries IH]; intros w; simpl; [reflexivity|].
  rewrite IH. unfold pending_reject. now rewrite heap_settle.
Qed.

Lemma sessions_reject_each err entries w :
  sessions (reject_each err entries w) = sessions w.
Proof.
  unfold reject_each. revert w.
  induction entries as [|e entries IH]; intros w; simpl; [reflexivity|].
  rewrite IH. unfold pending_reject. now rewrite sessions_settle.
Qed.

(** After the loop no timer of a rejected entry is armed, the others are
    as before. *)
Lemma timers_reject_each err entries w h :
  h ∈ timers (reject_each err entries w) <-> h ∈ timers w /\ h ∉ handles entries.
Proof.
  unfold reject_each, handles. revert w.
  induction entries as [|e entries IH]; intros w; simpl.
  - split; [intros H; split; [exact H | apply not_elem_of_nil] | tauto].
  - rewrite IH. unfold pending_reject. rewrite timers_settle. simpl.
    rewrite not_elem_of_cons, elem_of_difference, elem_of_singleton. tauto.
Qed.

(** After the loop every promise of an entry that was not settled yet is
    rejected with the error; all other promises are as before. *)
Lemma promise_at_reject_each err entries w h :
  promise_at (reject_each err entries w) h
  = if decide (h ∈ handles entries) then
      match promise_at w h with
      | Some Unsettled => Some (Rejected err)
      | other => other
      end
    else promise_at w h.
Proof.
  unfold reject_each, handles. revert w.
  induction entries as [|e entries IH]; intros w; cbn [fold_left map].
  - rewrite decide_False; [reflexivity | apply not_elem_of_nil].
  - rewrite IH. unfold pending_reject. rewrite !promise_at_settle.
    change (promise_at (clearTimeout (p_promise e.2) w)) with (promise_at w).
    destruct (decide (p_promise e.2 = h)) as [->|Hne].
    + rewrite (decide_True (P := _ ∈ _ :: _)) by left.
      case_decide; destruct (promise_at w h) as [[| |]|]; reflexivity.
    + case_decide as Hin.
      * rewrite decide_True by now right. reflexivity.
      * rewrite decide_False; [reflexivity|].
        rewrite elem_of_cons. intros [?|?]; [congruence | contradiction].
Qed.

Lemma _rejectAllPending_unfold w session err s :
  heap w !! session = Some s ->
  _rejectAllPending w session err
  = modify session (fun s => set_pendingResponses (JSMap.clear (pendingResponses s)) s)
      (reject_each err (pendingResponses s) w).
Proof. intros H. unfold _rejectAllPending. now rewrite H. Qed.

Lemma sessions__rejectAllPending w session err :
  sessions (_rejectAllPending w session err) = sessions w.
Proof.
  unfold _rejectAllPending. destruct (heap w !! session); [|reflexivity].
  simpl. apply sessions_reject_each.
Qed.

Lemma pending_at__rejectAllPending w session err :
  pending_at (_rejectAllPending w session err) session = [].
Proof.
  destruct (heap w !! session) as [s|] eqn:Hs.
  - rewrite (_rejectAllPending_unfold _ _ _ _ Hs).
    rewrite pending_at_modify.
    destruct (decide (session = session)) as [_|Hne]; [|congruence].
    now rewrite heap_reject_each, Hs.
  - unfold _rejectAllPending, pending_at. now rewrite !Hs.
Qed.

Lemma session_at__rejectAllPending w session err :
  session_at (_rejectAllPending w session err) session
  = (fun s => set_pendingResponses (JSMap.clear (pendingResponses s)) s)
      <$> session_at w session.
Proof.
  destruct (heap w !! session) as [s|] eqn:Hs.
  - rewrite (_rejectAllPending_unfold _ _ _ _ Hs).
    rewrite session_at_modify, decide_True by reflexivity.
    unfold session_at. now rewrite heap_reject_each.
  - unfold _rejectAllPending, session_at. now rewrite !Hs.
Qed.

Lemma timers__rejectAllPending w session err h :
  h ∈ timers (_rejectAllPending w session err)
  <-> h ∈ timers w /\ h ∉ handles (pending_at w session).
Proof.
  unfold pending_at. destruct (heap w !! session) as [s|] eqn:Hs.
  - rewrite (_rejectAllPending_unfold _ _ _ _ Hs). apply timers_reject_each.
  - unfold _rejectAllPending. rewrite Hs. split; [intros H; split; [exact H | apply not_elem_of_nil] | tauto].
Qed.

Lemma promise_at__rejectAllPending w session err h :
  promise_at (_rejectAllPending w session err) h
  = if decide (h ∈ handles (pending_at w session)) then
      match promise_at w h with
      | Some Unsettled => Some (Rejected err)
      | other => other
      end
    else promise_at w h.
Proof.
  unfold pending_at. destruct (heap w !! session) as [s|] eqn:Hs.
  - rewrite (_rejectAllPending_unfold _ _ _ _ Hs). apply promise_at_reject_each.
  - unfold _rejectAllPending. rewrite Hs. rewrite decide_False; [reflexivity | apply not_elem_of_nil].
Qed.

Lemma handle_of_entry (entries : JSMap.t Pending) e :
  e ∈ entries -> p_promise e.2 ∈ handles entries.
Proof.
  intros He. unfold handles.
  apply list_elem_of_In, (in_map (fun e => p_promise e.2)), list_elem_of_In, He.
Qed.

(** C6: [closeSession] returns a result object on every path.  For an id
    the registry does not know it changes nothing and returns the
    not-found result.  For a registered id it rejects the pending requests
    of the session with the closed-manually error (a promise already
    settled keeps its outcome) and disarms their timers, terminates the
    transport, empties the pending table and removes the id from the
    registry.  In both cases a second call finds the id unknown and
    returns the not-found result. *)
Theorem closeSession_idempotent (w : World) (sessionId : string) :
  let w' := fst (closeSession w sessionId) in
  closeSession w' sessionId = (w', not_found)
  /\ match JSMap.get sessionId (sessions w) with
     | None => closeSession w sessionId = (w, not_found)
     | Some session =>
         snd (closeSession w sessionId) = closed_ok sessionId
         /\ JSMap.get sessionId (sessions w') = None
         /\ pending_at w' session = []
         /\ ws_terminated ∘ ws <$> session_at w' session
            = (fun _ => true) <$> session_at w session
         /\ Forall (fun e =>
              armed w' (p_promise e.2) = false
              /\ promise_at w' (p_promise e.2)
                 = match promise_at w (p_promise e.2) with
                   | Some Unsettled => Some (Rejected ClosedManually)
                   | other => other
                   end) (pending_at w session)
     end.
Proof.
  cbv zeta.
  assert (Hgone : JSMap.get sessionId (sessions (closeSession w sessionId).1) = None).
  { unfold closeSession.
    destruct (JSMap.get sessionId (sessions w)) as [session|] eqn:Hget;
      [apply get_delete_same | exact Hget]. }
  split.
  { unfold closeSession at 1. now rewrite Hgone. }
  destruct (JSMap.get sessionId (sessions w)) as [session|] eqn:Hget;
    [|unfold closeSession; now rewrite Hget].
  unfold closeSession in *. rewrite Hget in *. cbn [fst snd] in *.
  split; [reflexivity|]. split; [exact Hgone|].
  set (w1 := _rejectAllPending w session ClosedManually).
  split; [|split].
  - change (pending_at (modify session ws_terminate w1) session = []).
    rewrite pending_at_modify_frame by reflexivity.
    apply pending_at__rejectAllPending.
  - change (ws_terminated ∘ ws <$> session_at (modify session ws_terminate w1) session
            = (fun _ => true) <$> session_at w session).
    rewrite session_at_modify, decide_True by reflexivity.
    subst w1. rewrite session_at__rejectAllPending.
    now destruct (session_at w session).
  - apply Forall_forall. intros e He. apply handle_of_entry in He. split.
    + unfold armed. apply bool_decide_eq_false.
      change (p_promise e.2 ∉ timers w1). subst w1.
      rewrite timers__rejectAllPending. tauto.
    + change (promise_at w1 (p_promise e.2)
              = match promise_at w (p_promise e.2) with
                | Some Unsettled => Some (Rejected ClosedManually)
                | other => other
                end).
      subst w1. now rewrite promise_at__rejectAllPending, decide_True.
Qed.

End Closing.

Section ClosingWitnesses.
Import SessionManager Scenario.

(** Closing the session of the scenario while its text request is pending,
    then closing it again. *)
Lemma closeSession_idempotent_witness :
  let w' := fst (closeSession w_text_pending "s1") in
  closeSession w' "s1" = (w', not_found)
  /\ JSMap.get "s1" (sessions w') = None
  /\ armed w' 1 = false
  /\ promise_at w' 1 = Some (Rejected ClosedManually).
Proof.
  pose proof (closeSession_idempotent w_text_pending "s1") as H.
  cbv zeta in *. destruct H as [Hagain H].
  change (JSMap.get "s1" (sessions w_text_pending)) with (Some 0) in H.
  destruct H as (_ & Hgone & _ & _ & Hall).
  change (pending_at w_text_pending 0) with [("req-1", p1)] in Hall.
  apply Forall_inv in Hall. destruct Hall as [Harmed Hpromise].
  repeat split; assumption.
Defined.

End ClosingWitnesses.

(** ** What advances [lastActivityAt] *)

Section Activity.
Import SessionManager.
Implicit Types (w : World) (s : SessionState) (p : Pending).

Lemma lastActivityAt_at_settle h o w l :
  lastActivityAt_at (settle h o w) l = lastActivityAt_at w l.
Proof. unfold lastActivityAt_at. now rewrite heap_settle. Qed.

Lemma lastActivityAt_at_stamp l now w :
  is_Some (heap w !! l) ->
  lastActivityAt_at (modify l (set_lastActivityAt now) w) l = Some now.
Proof.
  intros [s Hs]. unfold lastActivityAt_at.
  change (heap (modify ?a ?f ?x) !! ?b) with (session_at (modify a f x) b).
  rewrite session_at_modify. destruct (decide (l = l)); [|congruence].
  unfold session_at. now rewrite Hs.
Qed.

Lemma lastActivityAt_at_pending_resolve p data now w l :
  lastActivityAt_at (pending_resolve p data now w) l = lastActivityAt_at w l.
Proof.
  unfold pending_resolve.
  now rewrite lastActivityAt_at_settle, !lastActivityAt_at_modify by reflexivity.
Qed.

Lemma lastActivityAt_at_pending_reject p err w l :
  lastActivityAt_at (pending_reject p err w) l = lastActivityAt_at w l.
Proof. unfold pending_reject. now rewrite lastActivityAt_at_settle. Qed.

Lemma lastActivityAt_at_unregister l k w l' :
  lastActivityAt_at (unregister l k w) l' = lastActivityAt_at w l'.
Proof. unfold unregister. now rewrite lastActivityAt_at_modify by reflexivity. Qed.

Lemma lastActivityAt_ws_send_all messages s :
  lastActivityAt (ws_send_all messages s) = lastActivityAt s.
Proof.
  unfold ws_send_all. revert s.
  induction messages as [|m messages IH]; intros s; simpl; [reflexivity|].
  now rewrite IH.
Qed.

(** No inbound event moves the activity timestamp of any session. *)
Lemma lastActivityAt_at_dispatch w session event now l :
  lastActivityAt_at (_handleOpenAIEvent w session event now) l
  = lastActivityAt_at w l.
Proof.
  unfold _handleOpenAIEvent.
  repeat case_match; try reflexivity;
    rewrite ?lastActivityAt_at_unregister, ?lastActivityAt_at_pending_resolve,
      ?lastActivityAt_at_pending_reject, ?lastActivityAt_at_modify by reflexivity;
    reflexivity.
Qed.

Lemma lastActivityAt_at__rejectAllPending w l err l' :
  lastActivityAt_at (_rejectAllPending w l err) l' = lastActivityAt_at w l'.
Proof.
  destruct (heap w !! l) as [s|] eqn:Hs.
  - rewrite (_rejectAllPending_unfold _ _ _ _ Hs).
    rewrite lastActivityAt_at_modify by reflexivity.
    unfold lastActivityAt_at. now rewrite heap_reject_each.
  - unfold _rejectAllPending. now rewrite Hs.
Qed.

Lemma lastActivityAt_at_closeSession w k l :
  lastActivityAt_at (fst (closeSession w k)) l = lastActivityAt_at w l.
Proof.
  unfold closeSession. destruct (JSMap.get k (sessions w)) as [l0|]; [|reflexivity].
  cbn [fst].
  change (lastActivityAt_at (set_sessions ?m ?x) l) with (lastActivityAt_at x l).
  rewrite lastActivityAt_at_modify by reflexivity.
  apply lastActivityAt_at__rejectAllPending.
Qed.

(** C7, as the code has it.  Of the caller's operations on a session that
    [_getSession] accepts, [sendText], [sendAudio] and
    [updateInstructions] set its [lastActivityAt] to the current time,
    whether or not the transport then accepts their messages;
    [createSession] gives the session it creates the current time and
    leaves the others alone; [closeSession] and the read-only operations
    [getSession], [getHistory] and [listSessions] do not advance it:
    [getSession] reports the value that is stored and [getHistory]
    succeeds with the stored history, both leaving the state as it was;
    and no inbound protocol event changes the [lastActivityAt] of any
    session. *)
Theorem lastActivityAt_advanced_by_requests_only (w : World) (sessionId : string)
    (session : nat) (uuid : string) (now : Z) :
  _getSession w sessionId = inr session ->
  (forall text options,
      lastActivityAt_at (run w (OpSendText sessionId text options) uuid now) session
      = Some now)
  /\ (forall audio options,
      lastActivityAt_at (run w (OpSendAudio sessionId audio options) uuid now) session
      = Some now)
  /\ (forall text,
      lastActivityAt_at (run w (OpUpdateInstructions sessionId text) uuid now) session
      = Some now)
  /\ (forall options c,
      snd (createSession w options uuid now) = inr c ->
      lastActivityAt_at (run w (OpCreateSession options) uuid now) (c_session c)
      = Some now
      /\ lastActivityAt_at (run w (OpCreateSession options) uuid now) session
         = lastActivityAt_at w session)
  /\ (forall sessionId' l,
      lastActivityAt_at (run w (OpCloseSession sessionId') uuid now) l
      = lastActivityAt_at w l)
  /\ run w (OpGetSession sessionId) uuid now = w
  /\ ss_last_activity_at <$> getSession w sessionId = lastActivityAt_at w session
  /\ run w (OpGetHistory sessionId) uuid now = w
  /\ (exists r, getHistory w sessionId = inr r
                /\ hr_messages r = history_at w session)
  /\ run w OpListSessions uuid now = w
  /\ (forall l event t l',
      lastActivityAt_at (_handleOpenAIEvent w l event t) l' = lastActivityAt_at w l').
Proof.
  intros Hs. destruct (_getSession_inr _ _ _ Hs) as (Hget & s & Hheap & _).
  assert (Hstamp : lastActivityAt_at (modify session (set_lastActivityAt now) w) session
                   = Some now) by (apply lastActivityAt_at_stamp; eauto).
  split; [|split; [|split; [|split; [|split; [|split; [|split; [|split; [|split;
    [|split]]]]]]]]].
  - intros text options. unfold run. rewrite (sendText_cases _ _ _ _ _ _ _ Hs).
    cbv zeta. destruct (transport_open w sessionId); cbn [fst];
      rewrite ?lastActivityAt_at_settle; unfold register;
      repeat (rewrite lastActivityAt_at_modify by reflexivity); exact Hstamp.
  - intros audio options. unfold run. rewrite (sendAudio_cases _ _ _ _ _ _ _ Hs).
    cbv zeta. destruct (transport_open w sessionId); cbn [fst];
      rewrite ?lastActivityAt_at_settle; unfold register;
      repeat (rewrite lastActivityAt_at_modify
                by (intros; first [reflexivity | apply lastActivityAt_ws_send_all]));
      exact Hstamp.
  - intros text. unfold run. rewrite (updateInstructions_cases _ _ _ _ _ Hs).
    cbv zeta. destruct (transport_open w sessionId); cbn [fst];
      rewrite ?(lastActivityAt_at_modify _ _ (ws_send _)) by reflexivity;
      rewrite modify_modify; unfold lastActivityAt_at;
      change (heap (modify ?a ?f ?x) !! ?b) with (session_at (modify a f x) b);
      rewrite session_at_modify, decide_True by reflexivity;
      unfold session_at; now rewrite Hheap.
  - intros options c. unfold run, createSession.
    destruct ((0 <? maxSessions (config w))%Z
              && (maxSessions (config w) <=? Z.of_nat (JSMap.size (sessions w)))%Z);
      [discriminate|].
    cbn [fst snd]. intros [= <-]. cbn [c_session]. unfold lastActivityAt_at.
    cbn [heap setTimeout set_timers set_sessions set_heap set_promises].
    split.
    + now rewrite list_lookup_middle.
    + rewrite lookup_app_l; [reflexivity|]. now apply lookup_lt_Some in Hheap.
  - intros sessionId' l. apply lastActivityAt_at_closeSession.
  - reflexivity.
  - unfold getSession, lastActivityAt_at. now rewrite Hget, Hheap.
  - reflexivity.
  - unfold getHistory, history_at. rewrite Hs, Hheap. eexists. split; reflexivity.
  - reflexivity.
  - intros l event t l'. apply lastActivityAt_at_dispatch.
Qed.

End Activity.

Section ActivityWitnesses.
Import SessionManager Scenario.

(** C7 as stated fails: the session of the scenario was last active at
    time 2000; a [getHistory] call at time 9000 succeeds and leaves
    [lastActivityAt] at 2000. *)
Lemma getHistory_keeps_lastActivityAt :
  _getSession w_answered "s1" = inr 0
  /\ (exists r, getHistory w_answered "s1" = inr r)
  /\ lastActivityAt_at w_answered 0 = Some 2000%Z
  /\ lastActivityAt_at (run w_answered (OpGetHistory "s1") "uuid-9" 9000) 0
     <> Some 9000%Z.
Proof.
  split; [vm_compute; reflexivity|].
  split; [eexists; vm_compute; reflexivity|].
  split; [vm_compute; reflexivity|].
  vm_compute. discriminate.
Qed.

Lemma lastActivityAt_advanced_by_requests_only_witness :
  lastActivityAt_at (run w_answered (OpSendText "s1" "otra" absent) "req-2" 9000) 0
    = Some 9000%Z
  /\ run w_answered (OpGetHistory "s1") "req-2" 9000 = w_answered
  /\ lastActivityAt_at
       (_handleOpenAIEvent w_text_pending 0 (ev "response.done" None) 9000) 0
     = lastActivityAt_at w_text_pending 0.
Proof.
  assert (H : _getSession w_answered "s1" = inr 0) by (vm_compute; reflexivity).
  destruct (lastActivityAt_advanced_by_requests_only w_answered "s1" 0 "req-2" 9000 H)
    as (Htext & _ & _ & _ & _ & _ & _ & Hhist & _ & _ & _).
  assert (H' : _getSession w_text_pending "s1" = inr 0) by (vm_compute; reflexivity).
  destruct (lastActivityAt_advanced_by_requests_only w_text_pending "s1" 0 "req-2" 9000 H')
    as (_ & _ & _ & _ & _ & _ & _ & _ & _ & _ & Hev).
  split; [apply Htext | split; [exact Hhist | apply Hev]].
Defined.

End ActivityWitnesses.

(** ** The [returnAudio] option *)

Section ReturnAudio.
Import SessionManager.
Implicit Types (w : World) (s : SessionState) (p : Pending).

Lemma sent_at_modify l l' (f : SessionState -> SessionState) w :
  sent_at (modify l f w) l'
  = if decide (l = l') then
      match heap w !! l with
      | Some s => ws_sent (ws (f s))
      | None => []
      end
    else sent_at w l'.
Proof.
  unfold sent_at.
  change (heap (modify l f w) !! l') with (session_at (modify l f w) l').
  rewrite session_at_modify. unfold session_at.
  destruct (decide (l = l')); [subst|reflexivity].
  now destruct (heap w !! l').
Qed.

Lemma last_sent_at_send l m w :
  is_Some (heap w !! l) ->
  last (sent_at (modify l (ws_send m) w) l) = Some m.
Proof.
  intros [s Hs]. rewrite sent_at_modify.
  destruct (decide (l = l)); [|congruence].
  rewrite Hs. simpl. apply last_snoc.
Qed.

(** Resolving an entry whose promise is not settled yet settles it with
    the result object of the entry. *)
Lemma promise_at_pending_resolve p data t w :
  promise_at w (p_promise p) = Some Unsettled ->
  promise_at (pending_resolve p data t w) (p_promise p)
  = Some (Resolved (VResult (make_result p data t))).
Proof.
  intros H. unfold pending_resolve. rewrite promise_at_settle.
  destruct (decide (p_promise p = p_promise p)); [|congruence].
  change (promise_at (modify ?l ?f ?x)) with (promise_at x).
  change (promise_at (modify ?l ?f ?x)) with (promise_at x).
  change (promise_at (clearTimeout ?h ?x)) with (promise_at x).
  now rewrite H.
Qed.

(** C10: on a session whose transport is open, so that the request is
    made, and with [returnAudio] omitted, [sendText] asks for the text
    modality only, registers the request with [returnAudio] false, and
    whatever the buffer holds when the request is resolved the result has
    no [audio_base64]; [sendAudio] asks for text and audio, registers the
    request with [returnAudio] true, and the result has [audio_base64],
    the chunks joined, whenever the buffer holds at least one chunk. *)
Theorem returnAudio_defaults (w : World) (sessionId payload uuid : string)
    (now : Z) (session : nat) :
  _getSession w sessionId = inr session ->
  transport_open w sessionId = true ->
  let absent := {| opt_returnAudio := None |} in
  let wt := fst (sendText w sessionId payload absent uuid now) in
  let wa := fst (sendAudio w sessionId payload absent uuid now) in
  let h := length (promises w) in
  last (sent_at wt session)
    = Some (response_create ("res_" +:+ uuid) [modality_text])
  /\ (exists p,
        JSMap.get uuid (pending_at wt session) = Some p
        /\ returnAudio p = false
        /\ p_promise p = h
        /\ forall data t, exists r,
             promise_at (pending_resolve p data t wt) h = Some (Resolved (VResult r))
             /\ audio_base64 r = None)
  /\ last (sent_at wa session)
     = Some (response_create ("res_" +:+ uuid) [modality_text; modality_audio])
  /\ (exists p,
        JSMap.get uuid (pending_at wa session) = Some p
        /\ returnAudio p = true
        /\ p_promise p = h
        /\ forall data t, exists r,
             promise_at (pending_resolve p data t wa) h = Some (Resolved (VResult r))
             /\ (audioDelta data <> [] ->
                 audio_base64 r = Some (String.concat "" (audioDelta data)))).
Proof.
  intros Hs Hopen. destruct (_getSession_inr _ _ _ Hs) as (Hget & s & Hheap & _).
  cbv zeta.
  rewrite (sendText_unfold _ _ _ _ _ _ _ Hs Hopen),
    (sendAudio_unfold _ _ _ _ _ _ _ Hs Hopen).
  unfold text_entry, audio_entry. simpl.
  assert (Hlive : forall f, is_Some (heap (modify session f w) !! session))
    by (intros f; apply is_Some_heap_modify; eauto).
  split; [|split; [|split]].
  - apply last_sent_at_send. unfold register.
    rewrite !is_Some_heap_modify. exact (Hlive (set_lastActivityAt now)).
  - eexists. split; [|split; [|split]].
    + rewrite !pending_at_modify_frame by reflexivity.
      rewrite pending_at_register by (simpl; apply Hlive).
      apply get_set_same.
    + reflexivity.
    + reflexivity.
    + intros data t. eexists. split.
      * apply (promise_at_pending_resolve
                 {| p_kind := TextCall payload; p_promise := length (promises w) |}).
        now apply list_lookup_middle.
      * reflexivity.
  - apply last_sent_at_send. unfold register.
    rewrite !is_Some_heap_modify. exact (Hlive (set_lastActivityAt now)).
  - eexists. split; [|split; [|split]].
    + rewrite pending_at_modify_frame by reflexivity.
      rewrite pending_at_modify_frame by reflexivity.
      rewrite pending_at_modify_frame.
      2:{ intros s0. unfold ws_send_all.
          generalize (append_chunks (String.length payload) payload 0). intros ms.
          revert s0. induction ms as [|m ms IH]; intros s0; simpl; [reflexivity|].
          now rewrite IH. }
      rewrite pending_at_modify_frame by reflexivity.
      rewrite pending_at_register by (simpl; apply Hlive).
      apply get_set_same.
    + reflexivity.
    + reflexivity.
    + intros data t. eexists. split.
      * apply (promise_at_pending_resolve
                 {| p_kind := AudioCall; p_promise := length (promises w) |}).
        now apply list_lookup_middle.
      * intros Hchunks. unfold make_result. simpl.
        destruct (audioDelta data); [congruence | reflexivity].
Qed.

End ReturnAudio.

Section ReturnAudioWitnesses.
Import SessionManager Scenario.

Lemma returnAudio_defaults_witness :
  let absent := {| opt_returnAudio := None |} in
  let wt := fst (sendText w_connected "s1" "AAAA" absent "req-1" 2000) in
  let wa := fst (sendAudio w_connected "s1" "AAAA" absent "req-1" 2000) in
  let h := length (promises w_connected) in
  last (sent_at wt 0)
    = Some (response_create ("res_" +:+ "req-1") [modality_text])
  /\ (exists p,
        JSMap.get "req-1" (pending_at wt 0) = Some p
        /\ returnAudio p = false
        /\ p_promise p = h
        /\ forall data t, exists r,
             promise_at (pending_resolve p data t wt) h = Some (Resolved (VResult r))
             /\ audio_base64 r = None)
  /\ last (sent_at wa 0)
     = Some (response_create ("res_" +:+ "req-1") [modality_text; modality_audio])
  /\ (exists p,
        JSMap.get "req-1" (pending_at wa 0) = Some p
        /\ returnAudio p = true
        /\ p_promise p = h
        /\ forall data t, exists r,
             promise_at (pending_resolve p data t wa) h = Some (Resolved (VResult r))
             /\ (audioDelta data <> [] ->
                 audio_base64 r = Some (String.concat "" (audioDelta data)))).
Proof.
  apply (returnAudio_defaults w_connected "s1" "AAAA" "req-1" 2000 0).
  - vm_compute; reflexivity.
  - vm_compute; reflexivity.
Defined.

End ReturnAudioWitnesses.

(** ** The transcript of the spoken response *)

Section Transcript.
Import SessionManager Accumulation.
Implicit Types (w : World) (s : SessionState) (p : Pending).

(** Once the text buffer of a request holds anything, be it from a text
    delta or from an earlier transcript delta, a transcript delta is
    dropped. *)
Lemma transcript_delta_dropped event p :
  is_transcript_delta event = true ->
  textDelta (buffer p) <> "" ->
  accumulate event p = p.
Proof.
  unfold is_transcript_delta, accumulate, one_of. simpl. rewrite !orb_false_r.
  intros Ht Hne.
  assert (Hfull : truthy (textDelta (buffer p)) = true).
  { unfold truthy. apply negb_true_iff. now apply String.eqb_neq. }
  apply orb_prop in Ht as [Ht|Ht]; apply String.eqb_eq in Ht; rewrite Ht; simpl;
    now rewrite Hfull.
Qed.

(** On an empty text buffer a transcript delta is appended. *)
Lemma transcript_delta_first event p :
  is_transcript_delta event = true ->
  textDelta (buffer p) = "" ->
  textDelta (buffer (accumulate event p)) = or_string (delta event) "".
Proof.
  unfold is_transcript_delta, accumulate, one_of. simpl. rewrite !orb_false_r.
  intros Ht Hempty.
  apply orb_prop in Ht as [Ht|Ht]; apply String.eqb_eq in Ht; rewrite Ht; simpl;
    rewrite Hempty; simpl; rewrite ?Hempty; reflexivity.
Qed.

End Transcript.

Section TranscriptRuns.
Import SessionManager Scenario.

(** C3 on the code: an audio request receives the transcript deltas
    [Hel] and [lo] and no text delta, then the terminal event.  The
    request is resolved with the response text [Hel], the first delta
    alone, and not with [Hello]. *)
Theorem transcript_deltas_not_concatenated :
  let events :=
    [ (ev "response.audio_transcript.delta" (Some "Hel"), 2100%Z);
      (ev "response.audio_transcript.delta" (Some "lo"), 2200%Z);
      (ev "response.done" None, 2300%Z) ] in
  exists r,
    promise_at (dispatch_all w_audio_pending 0 events) 1 = Some (Resolved (VResult r))
    /\ response_text r = "Hel"
    /\ response_text r <> "Hello".
Proof.
  eexists. split; [vm_compute; reflexivity|]. split; [reflexivity | discriminate].
Qed.

End TranscriptRuns.

(** ** Transport errors and duplicate ids *)

Section Transport.
Import SessionManager.
Implicit Types (w : World) (s : SessionState) (p : Pending) (c : Connection).

Lemma status_at_modify l l' (f : SessionState -> SessionState) w :
  status_at (modify l f w) l'
  = if decide (l = l') then status ∘ f <$> heap w !! l else status_at w l'.
Proof.
  unfold status_at.
  change (heap (modify l f w) !! l') with (session_at (modify l f w) l').
  rewrite session_at_modify. unfold session_at.
  destruct (decide (l = l')); [subst|reflexivity].
  now destruct (heap w !! l').
Qed.

Lemma status_at__rejectAllPending w session err l :
  status_at (_rejectAllPending w session err) l = status_at w l.
Proof.
  destruct (heap w !! session) as [s|] eqn:Hs.
  - rewrite (_rejectAllPending_unfold _ _ _ _ Hs), status_at_modify.
    unfold status_at. rewrite heap_reject_each.
    destruct (decide (session = l)); [subst|reflexivity].
    now rewrite Hs.
  - unfold _rejectAllPending. now rewrite Hs.
Qed.

(** When the error handler tests the status it has already overwritten
    it: the session is in state [error], or does not exist. *)
Lemma ws_on_error_status_tested w c err :
  let w1 := clearTimeout (c_promise c) w in
  let w2 := modify (c_session c) (set_status status_error) w1 in
  let w3 := _rejectAllPending w2 (c_session c) (TransportError err) in
  status_at w3 (c_session c) = Some status_error \/ status_at w3 (c_session c) = None.
Proof.
  cbv zeta. rewrite status_at__rejectAllPending, status_at_modify.
  destruct (decide (c_session c = c_session c)); [|congruence].
  simpl. destruct (heap w !! c_session c); [left | right]; reflexivity.
Qed.

(** So the branch that would discard the session is never taken: the
    handler leaves the registry as it is. *)
Lemma ws_on_error_keeps_registry w c err :
  sessions (ws_on_error w c err) = sessions w.
Proof.
  unfold ws_on_error.
  destruct (ws_on_error_status_tested w c err) as [-> | ->]; simpl;
    now rewrite sessions__rejectAllPending.
Qed.

End Transport.

Section TransportRuns.
Import SessionManager Scenario.

(** C2 on the code: the transport of the session of the scenario fails
    while the session is still connecting.  The status becomes [error],
    but the handler leaves the session in the registry and the promise of
    [createSession] unsettled; the connect timer is disarmed, so nothing is
    left to settle it.  The close event that follows removes the session
    from the registry and still does not reject the promise. *)
Theorem ws_error_while_connecting_keeps_session :
  snd (createSession w_new (options_for "s1") "uuid-1" 1000) = inr c1
  /\ status_at w_connecting 0 = Some status_connecting
  /\ let w := ws_on_error w_connecting c1 "ECONNREFUSED" in
     status_at w 0 = Some status_error
     /\ JSMap.get "s1" (sessions w) = Some 0
     /\ promise_at w 0 = Some Unsettled
     /\ armed w 0 = false
     /\ connectTimeout_fires w c1 = w
     /\ let w' := ws_on_close w c1 1006 in
        JSMap.get "s1" (sessions w') = None
        /\ promise_at w' 0 = Some Unsettled.
Proof.
  split; [vm_compute; reflexivity|]. split; [vm_compute; reflexivity|].
  cbv zeta. repeat (split; [vm_compute; reflexivity|]).
  vm_compute; reflexivity.
Qed.

(** C4 as stated fails: the id [s1] is registered and connected; a second
    [createSession] with the same id is not rejected, and the registry now
    maps [s1] to the new session object instead of the live one. *)
Lemma createSession_duplicate_overwrites :
  JSMap.get "s1" (sessions w_connected) = Some 0
  /\ status_at w_connected 0 = Some status_connected
  /\ (forall e, snd (createSession w_connected (options_for "s1") "uuid-2" 3000) <> inl e)
  /\ JSMap.get "s1"
       (sessions (fst (createSession w_connected (options_for "s1") "uuid-2" 3000)))
     = Some 1.
Proof.
  split; [vm_compute; reflexivity|]. split; [vm_compute; reflexivity|].
  split; [intros e; vm_compute; discriminate | vm_compute; reflexivity].
Qed.

End TransportRuns.

Section DuplicateIds.
Import SessionManager.
Implicit Types (w : World) (s : SessionState) (p : Pending) (c : Connection).

Lemma or_string_Some a b : a <> "" -> or_string (Some a) b = a.
Proof.
  intros Ha. unfold or_string. apply String.eqb_neq in Ha. now rewrite Ha.
Qed.

(** C4, as the code has it: [createSession] with a supplied id that the
    registry already maps to a session object, the session limit not being
    reached, is not rejected.  It creates a new session object in state
    [connecting] and makes the registry entry of the id point to it: the
    id still maps to one session, the new one, and the other ids are as
    before.  The earlier session object is left exactly as it was. *)
Theorem createSession_duplicate_replaces (w : World) (options : CreateOptions)
    (uuid sessionId : string) (now : Z) (old : nat) :
  opt_sessionId options = Some sessionId ->
  sessionId <> "" ->
  JSMap.get sessionId (sessions w) = Some old ->
  is_Some (heap w !! old) ->
  (maxSessions (config w) <= 0
   \/ Z.of_nat (JSMap.size (sessions w)) < maxSessions (config w))%Z ->
  exists c,
    snd (createSession w options uuid now) = inr c
    /\ c_sessionId c = sessionId
    /\ c_session c <> old
    /\ let w' := fst (createSession w options uuid now) in
       JSMap.get sessionId (sessions w') = Some (c_session c)
       /\ JSMap.size (sessions w') = JSMap.size (sessions w)
       /\ (forall k, k <> sessionId ->
             JSMap.get k (sessions w') = JSMap.get k (sessions w))
       /\ session_at w' old = session_at w old
       /\ status_at w' (c_session c) = Some status_connecting
       /\ promise_at w' (c_promise c) = Some Unsettled.
Proof.
  intros Hid Hne Hget [s Hold] Hlimit.
  assert (Hlt : old < length (heap w)) by (eapply lookup_lt_Some; eauto).
  unfold createSession.
  replace ((0 <? maxSessions (config w))%Z
           && (maxSessions (config w) <=? Z.of_nat (JSMap.size (sessions w)))%Z)
    with false.
  2:{ symmetry. apply andb_false_iff.
      destruct Hlimit; [left; apply Z.ltb_ge | right; apply Z.leb_gt]; lia. }
  rewrite Hid, (or_string_Some _ _ Hne). cbn [fst snd].
  eexists. split; [reflexivity|]. simpl.
  split; [reflexivity|]. split; [lia|].
  cbv zeta. simpl. repeat split.
  - apply get_set_same.
  - apply size_set_present. eauto.
  - intros k Hk. apply get_set_other. congruence.
  - unfold session_at. simpl. now apply lookup_app_l.
  - unfold status_at. simpl. now rewrite list_lookup_middle.
  - unfold promise_at. simpl. now apply list_lookup_middle.
Qed.

End DuplicateIds.

Section DuplicateIdWitnesses.
Import SessionManager Scenario.

Lemma createSession_duplicate_replaces_witness :
  exists c,
    snd (createSession w_connected (options_for "s1") "uuid-2" 3000) = inr c
    /\ c_sessionId c = "s1"
    /\ c_session c <> 0
    /\ let w' := fst (createSession w_connected (options_for "s1") "uuid-2" 3000) in
       JSMap.get "s1" (sessions w') = Some (c_session c)
       /\ JSMap.size (sessions w') = JSMap.size (sessions w_connected)
       /\ (forall k, k <> "s1" ->
             JSMap.get k (sessions w') = JSMap.get k (sessions w_connected))
       /\ session_at w' 0 = session_at w_connected 0
       /\ status_at w' (c_session c) = Some status_connecting
       /\ promise_at w' (c_promise c) = Some Unsettled.
Proof.
  apply (createSession_duplicate_replaces w_connected (options_for "s1")
           "uuid-2" "s1" 3000 0).
  - vm_compute; reflexivity.
  - discriminate.
  - vm_compute; reflexivity.
  - eexists. reflexivity.
  - left. simpl. lia.
Defined.

End DuplicateIdWitnesses.

(** ** A request from registration to resolution *)

Section Resolution.
Import SessionManager Accumulation.
Implicit Types (w : World) (s : SessionState) (p : Pending).

Lemma set_absent {V : Type} k (v : V) (m : JSMap.t V) :
  JSMap.get k m = None -> JSMap.set k v m = m ++ [(k, v)].
Proof.
  induction m as [|[k' v'] m IH]; simpl; [reflexivity|].
  destruct (String.eqb k' k); [discriminate|]. intros H. now rewrite IH.
Qed.

(** The fields of an entry that its closures captured never change. *)
Lemma accumulate_closure event p :
  p_kind (accumulate event p) = p_kind p
  /\ p_session (accumulate event p) = p_session p
  /\ p_sessionId (accumulate event p) = p_sessionId p
  /\ p_requestId (accumulate event p) = p_requestId p
  /\ p_options_returnAudio (accumulate event p) = p_options_returnAudio p
  /\ p_startTime (accumulate event p) = p_startTime p
  /\ p_promise (accumulate event p) = p_promise p
  /\ returnAudio (accumulate event p) = returnAudio p
  /\ isAudioInput (accumulate event p) = isAudioInput p.
Proof.
  unfold accumulate. repeat case_match; repeat split; simpl; congruence.
Qed.

Lemma accumulate_all_closure events p :
  p_kind (accumulate_all events p) = p_kind p
  /\ p_session (accumulate_all events p) = p_session p
  /\ p_sessionId (accumulate_all events p) = p_sessionId p
  /\ p_requestId (accumulate_all events p) = p_requestId p
  /\ p_options_returnAudio (accumulate_all events p) = p_options_returnAudio p
  /\ p_startTime (accumulate_all events p) = p_startTime p
  /\ p_promise (accumulate_all events p) = p_promise p
  /\ returnAudio (accumulate_all events p) = returnAudio p
  /\ isAudioInput (accumulate_all events p) = isAudioInput p.
Proof.
  unfold accumulate_all. revert p.
  induction events as [|[event t] events IH]; intros p; simpl.
  - repeat split; reflexivity.
  - destruct (IH (accumulate event p)) as (-> & -> & -> & -> & -> & -> & -> & -> & ->).
    apply accumulate_closure.
Qed.

Lemma make_result_closure p q data t :
  p_kind q = p_kind p ->
  p_sessionId q = p_sessionId p ->
  p_requestId q = p_requestId p ->
  p_options_returnAudio q = p_options_returnAudio p ->
  p_startTime q = p_startTime p ->
  make_result q data t = make_result p data t.
Proof. unfold make_result. now intros -> -> -> -> ->. Qed.

(** An audio-delta event is no text-delta event. *)
Lemma audio_delta_not_text event :
  is_audio_delta event = true ->
  one_of (type event) ["response.text.delta"; "response.output_text.delta"] = false.
Proof.
  unfold is_audio_delta, one_of. simpl. rewrite !orb_false_r.
  intros H. apply orb_prop in H as [H|H]; apply String.eqb_eq in H; now rewrite H.
Qed.

(** The text-delta and transcript events leave the chunks alone; with
    [returnAudio] set, each audio-delta event adds its chunk. *)
Lemma audioDelta_accumulate event p :
  returnAudio p = true ->
  audioDelta (buffer (accumulate event p))
  = audioDelta (buffer p)
    ++ (if is_audio_delta event then [or_string (delta event) ""] else []).
Proof.
  intros Hra. destruct (is_audio_delta event) eqn:Ha.
  - unfold accumulate. rewrite (audio_delta_not_text _ Ha).
    unfold is_audio_delta in Ha. now rewrite Ha, Hra.
  - unfold accumulate. unfold is_audio_delta in Ha. rewrite Ha.
    repeat case_match; simpl; now rewrite app_nil_r.
Qed.

Lemma audioDelta_accumulate_all events p :
  returnAudio p = true ->
  audioDelta (buffer (accumulate_all events p))
  = audioDelta (buffer p) ++ audio_payloads events.
Proof.
  unfold accumulate_all, audio_payloads. revert p.
  induction events as [|[event t] events IH]; intros p Hra; simpl.
  - now rewrite app_nil_r.
  - rewrite IH.
    + rewrite audioDelta_accumulate by assumption. now rewrite <- app_assoc.
    + destruct (accumulate_closure event p) as (_ & _ & _ & _ & _ & _ & _ & -> & _).
      exact Hra.
Qed.

(** Without [returnAudio] no chunk is ever stored. *)
Lemma audioDelta_accumulate_all_off events p :
  returnAudio p = false ->
  audioDelta (buffer (accumulate_all events p)) = audioDelta (buffer p).
Proof.
  unfold accumulate_all. revert p.
  induction events as [|[event t] events IH]; intros p Hra; simpl; [reflexivity|].
  rewrite IH.
  - unfold accumulate. rewrite Hra. repeat case_match; reflexivity.
  - destruct (accumulate_closure event p) as (_ & _ & _ & _ & _ & _ & _ & -> & _).
    exact Hra.
Qed.

(** The terminal event resolves the latest pending entry with its buffer. *)
Lemma dispatch_done w session s p event t :
  heap w !! session = Some s ->
  _getLatestPending s = Some p ->
  type event = "response.done" ->
  _handleOpenAIEvent w session event t
  = let w' := pending_resolve p (buffer p) t w in
    match _getLatestPendingId s with
    | Some requestId => if truthy requestId then unregister session requestId w' else w'
    | None => w'
    end.
Proof.
  intros Hs Hp Ht. unfold _handleOpenAIEvent. rewrite Hs, Ht, Hp. reflexivity.
Qed.

Lemma promise_at_unregister l k w h :
  promise_at (unregister l k w) h = promise_at w h.
Proof. reflexivity. Qed.

(** A request that is the latest pending one, its promise unsettled: after
    any accumulating events and then the terminal event, its promise is
    resolved with the result built from the accumulated buffer. *)
Lemma request_resolves w session k p events event t :
  JSMap.last_entry (pending_at w session) = Some (k, p) ->
  promise_at w (p_promise p) = Some Unsettled ->
  Forall (fun e => ends_request (fst e) = false) events ->
  type event = "response.done" ->
  promise_at (_handleOpenAIEvent (dispatch_all w session events) session event t)
    (p_promise p)
  = Some (Resolved (VResult
            (make_result p (buffer (accumulate_all events p)) t))).
Proof.
  intros Hlast Hun Hall Ht.
  rewrite dispatch_all_accumulates by assumption.
  set (w2 := modify session (mutate_latest (accumulate_all events)) w).
  assert (Hlast2 : JSMap.last_entry (pending_at w2 session)
                   = Some (k, accumulate_all events p)).
  { subst w2. rewrite pending_at_mutate_latest, last_update_last, Hlast.
    reflexivity. }
  destruct (heap w2 !! session) as [s2|] eqn:Hs2.
  2:{ unfold pending_at in Hlast2. rewrite Hs2 in Hlast2. discriminate. }
  assert (Hp2 : _getLatestPending s2 = Some (accumulate_all events p)).
  { unfold _getLatestPending. unfold pending_at in Hlast2. rewrite Hs2 in Hlast2.
    now rewrite Hlast2. }
  destruct (accumulate_all_closure events p)
    as (Hk & _ & Hsid & Hrid & Hopt & Hst & Hh & _ & _).
  rewrite (dispatch_done _ _ _ _ _ _ Hs2 Hp2 Ht). cbv zeta.
  assert (Hres : promise_at
                   (pending_resolve (accumulate_all events p)
                      (buffer (accumulate_all events p)) t w2) (p_promise p)
                 = Some (Resolved (VResult
                      (make_result p (buffer (accumulate_all events p)) t)))).
  { rewrite <- Hh. rewrite promise_at_pending_resolve.
    - now rewrite (make_result_closure p).
    - rewrite Hh. exact Hun. }
  repeat case_match; rewrite ?promise_at_unregister; exact Hres.
Qed.

End Resolution.

Section TranscriptOnly.
Import SessionManager Accumulation.
Implicit Types (p : Pending).

Lemma accumulate_transcript event p :
  is_transcript_delta event = true ->
  accumulate event p
  = if negb (truthy (textDelta (buffer p)))
    then append_text (or_string (delta event) "") p
    else p.
Proof.
  unfold is_transcript_delta, accumulate, one_of. simpl. rewrite !orb_false_r.
  intros Ht.
  apply orb_prop in Ht as [Ht|Ht]; apply String.eqb_eq in Ht; now rewrite Ht.
Qed.

Lemma transcripts_dropped events p :
  Forall (fun e => is_transcript_delta (fst e) = true) events ->
  textDelta (buffer p) <> "" ->
  accumulate_all events p = p.
Proof.
  unfold accumulate_all. intros Hall Hne.
  induction Hall as [|[event t] events Hev _ IH]; simpl; [reflexivity|].
  now rewrite transcript_delta_dropped.
Qed.

(** What the code makes of a response that comes as transcript deltas
    only: the first non-empty delta, the later ones being dropped. *)
Lemma transcripts_keep_first events p :
  Forall (fun e => is_transcript_delta (fst e) = true) events ->
  textDelta (buffer p) = "" ->
  textDelta (buffer (accumulate_all events p)) = first_nonempty (payloads events).
Proof.
  intros Hall. revert p.
  induction Hall as [|[event t] events Hev Hall IH]; intros p Hempty.
  - exact Hempty.
  - change (accumulate_all ((event, t) :: events) p)
      with (accumulate_all events (accumulate event p)).
    simpl in Hev. cbn [payloads map first_nonempty fst].
    pose proof (transcript_delta_first event p Hev Hempty) as Hfirst.
    destruct (truthy (or_string (delta event) "")) eqn:Hd.
    + rewrite transcripts_dropped; [exact Hfirst | exact Hall |].
      rewrite Hfirst. intros E. rewrite E in Hd. discriminate.
    + apply IH. rewrite Hfirst. unfold truthy in Hd.
      apply negb_false_iff, String.eqb_eq in Hd. exact Hd.
Qed.

End TranscriptOnly.

(** ** The invariant of the pending tables *)

Section MembershipFacts.
Context {V : Type}.
Implicit Types (m : JSMap.t V) (k : string) (v : V).

Lemma elem_of_set k v k0 v0 m :
  (k, v) ∈ JSMap.set k0 v0 m -> (k, v) = (k0, v0) \/ (k, v) ∈ m.
Proof.
  induction m as [|[k' v'] m IH]; simpl.
  - intros H. apply list_elem_of_singleton in H. now left.
  - destruct (String.eqb k' k0).
    + intros H. apply elem_of_cons in H as [H|H]; [now left|].
      right. now right.
    + intros H. apply elem_of_cons in H as [H|H].
      * right. rewrite H. now left.
      * destruct (IH H) as [E|E]; [now left | right; now right].
Qed.

Lemma elem_of_delete k v k0 m :
  (k, v) ∈ JSMap.delete k0 m -> (k, v) ∈ m /\ k <> k0.
Proof.
  induction m as [|[k' v'] m IH]; simpl.
  - intros H. inversion H.
  - destruct (String.eqb k' k0) eqn:E.
    + intros H. destruct (IH H). split; [now right | assumption].
    + intros H. apply elem_of_cons in H as [H|H].
      * injection H as -> ->. split; [now left|]. now apply String.eqb_neq.
      * destruct (IH H). split; [now right | assumption].
Qed.

Lemma elem_of_update_last (f : V -> V) k v m :
  (k, v) ∈ JSMap.update_last f m ->
  exists v0, (k, v0) ∈ m /\ (v = v0 \/ v = f v0).
Proof.
  induction m as [|[k' v'] m IH]; [intros H; inversion H|].
  destruct m as [|e m].
  - simpl. intros H. apply list_elem_of_singleton in H. injection H as -> ->.
    exists v'. split; [now left | now right].
  - change (JSMap.update_last f ((k', v') :: e :: m))
      with ((k', v') :: JSMap.update_last f (e :: m)).
    intros H. apply elem_of_cons in H as [H|H].
    + injection H as -> ->. exists v'. split; [now left | now left].
    + destruct (IH H) as (v0 & Hin & Hv). exists v0. split; [now right | exact Hv].
Qed.

Lemma last_entry_elem_of m e : JSMap.last_entry m = Some e -> e ∈ m.
Proof.
  unfold JSMap.last_entry. induction m as [|x m IH]; [discriminate|].
  destruct m as [|y m].
  - simpl. intros [= ->]. now left.
  - rewrite last_cons_cons. intros H. right. now apply IH.
Qed.

Lemma last_keys m : last (JSMap.keys m) = fst <$> JSMap.last_entry m.
Proof.
  unfold JSMap.keys, JSMap.last_entry. induction m as [|x m IH]; [reflexivity|].
  destruct m as [|y m]; [reflexivity|].
  rewrite !(map_cons fst x), !(map_cons fst y), !last_cons_cons.
  rewrite <- IH. reflexivity.
Qed.

End MembershipFacts.

Section Invariant.
Import SessionManager Runs.
Implicit Types (w : World) (sys : System) (p : Pending).

(** A step that allocates nothing keeps the invariant if every entry it
    leaves in a pending table comes from an entry that was there, and the
    promises it settles ([S]) are not those of the entries it leaves. *)
Lemma Inv_settling sys w' (S : nat -> Prop) :
  Inv sys ->
  length (promises w') = length (promises (world sys)) ->
  length (heap (world sys)) <= length (heap w') ->
  (forall k l, JSMap.get k (sessions w') = Some l ->
               JSMap.get k (sessions (world sys)) = Some l) ->
  (forall h, ~ S h -> promise_at w' h = promise_at (world sys) h) ->
  (forall h, ~ S h -> h ∈ timers (world sys) -> h ∈ timers w') ->
  (forall l k p', (k, p') ∈ pending_at w' l ->
     exists p, (k, p) ∈ pending_at (world sys) l
               /\ p_promise p' = p_promise p
               /\ p_session p' = p_session p
               /\ ~ S (p_promise p)) ->
  Inv (with_world w' sys).
Proof.
  intros [Hreg Hkey Hun Harm Hdis Hconn Hcall] Hlen Hheap Hsess Hprom Htim Hsurv.
  split; simpl.
  - intros k l H. apply Hsess, Hreg in H. lia.
  - intros l k p' H. destruct (Hsurv _ _ _ H) as (p & Hin & Hp & Hs & _).
    rewrite Hs. eapply Hkey; eauto.
  - intros l k p' H. destruct (Hsurv _ _ _ H) as (p & Hin & Hp & Hs & HS).
    rewrite Hp, Hprom by assumption. eapply Hun; eauto.
  - intros l k p' H. destruct (Hsurv _ _ _ H) as (p & Hin & Hp & Hs & HS).
    rewrite Hp. apply Htim; [assumption|]. eapply Harm; eauto.
  - intros l k p l' k' p' H H' E.
    destruct (Hsurv _ _ _ H) as (q & Hq & Hpq & _).
    destruct (Hsurv _ _ _ H') as (q' & Hq' & Hpq' & _).
    eapply Hdis; eauto. congruence.
  - intros c Hc. destruct (Hconn c Hc) as [Hlt Hne]. split; [lia|].
    intros l k p' H. destruct (Hsurv _ _ _ H) as (p & Hin & Hp & _).
    rewrite Hp. eapply Hne; eauto.
  - intros call Hc. destruct (Hcall call Hc) as [Hlt Hid]. split; [lia|].
    intros l k p' H E. destruct (Hsurv _ _ _ H) as (p & Hin & Hp & _).
    eapply Hid; eauto. congruence.
Qed.

Lemma length_promises_settle h o w :
  length (promises (settle h o w)) = length (promises w).
Proof.
  unfold settle. repeat case_match; try reflexivity. simpl. apply length_insert.
Qed.

Lemma promise_at_settle_ne h h' o w :
  h <> h' -> promise_at (settle h o w) h' = promise_at w h'.
Proof. intros Hne. rewrite promise_at_settle. now rewrite decide_False. Qed.

Lemma length_heap_modify l (f : SessionState -> SessionState) w :
  length (heap (modify l f w)) = length (heap w).
Proof. unfold modify. simpl. apply length_alter. Qed.

Lemma get_delete_Some {V : Type} k k0 (m : JSMap.t V) v :
  JSMap.get k (JSMap.delete k0 m) = Some v -> JSMap.get k m = Some v.
Proof.
  destruct (String.eqb_spec k0 k) as [->|Hne].
  - now rewrite get_delete_same.
  - now rewrite get_delete_other.
Qed.

(** *** Steps that settle no request *)

Lemma Inv_frame sys w' :
  Inv sys ->
  promises w' = promises (world sys) ->
  timers w' = timers (world sys) ->
  sessions w' = sessions (world sys) ->
  length (heap w') = length (heap (world sys)) ->
  (forall l, pending_at w' l = pending_at (world sys) l) ->
  Inv (with_world w' sys).
Proof.
  intros HI Hp Ht Hs Hh Hpend.
  apply (Inv_settling sys w' (fun _ => False)); try assumption.
  - now rewrite Hp.
  - lia.
  - intros k l. now rewrite Hs.
  - intros h _. unfold promise_at. now rewrite Hp.
  - intros h _. now rewrite Ht.
  - intros l k p' H. rewrite Hpend in H. exists p'. tauto.
Qed.

Lemma Inv_updateInstructions sys sessionId text now :
  Inv sys ->
  Inv (with_world (fst (updateInstructions (world sys) sessionId text now)) sys).
Proof.
  intros HI. unfold updateInstructions.
  destruct (_getSession (world sys) sessionId) as [e|l]; cbn [fst].
  - destruct sys. exact HI.
  - match goal with |- context [if ?b then _ else _] => destruct b end;
      cbn [fst]; apply Inv_frame; try assumption; try reflexivity.
    + now rewrite !length_heap_modify.
    + intros l'. now rewrite !pending_at_modify_frame by reflexivity.
    + now rewrite !length_heap_modify.
    + intros l'. now rewrite !pending_at_modify_frame by reflexivity.
Qed.

(** *** The handlers of a transport that settle its own promise *)

Lemma Inv_own_promise sys w' c :
  Inv sys ->
  c ∈ connections sys ->
  length (promises w') = length (promises (world sys)) ->
  length (heap w') = length (heap (world sys)) ->
  (forall k l, JSMap.get k (sessions w') = Some l ->
               JSMap.get k (sessions (world sys)) = Some l) ->
  (forall h, h <> c_promise c -> promise_at w' h = promise_at (world sys) h) ->
  (forall h, h <> c_promise c -> h ∈ timers (world sys) -> h ∈ timers w') ->
  (forall l, pending_at w' l = pending_at (world sys) l) ->
  Inv (with_world w' sys).
Proof.
  intros HI Hc Hlen Hheap Hsess Hprom Htim Hpend.
  apply (Inv_settling sys w' (fun h => h = c_promise c)); try assumption.
  - lia.
  - intros l k p' H. rewrite Hpend in H. exists p'. repeat split; try assumption.
    destruct (inv_connection sys HI c Hc) as [_ Hne]. eapply Hne; eauto.
Qed.

Lemma Inv_connectTimeout sys c :
  Inv sys -> c ∈ connections sys ->
  Inv (with_world (connectTimeout_fires (world sys) c) sys).
Proof.
  intros HI Hc. unfold connectTimeout_fires.
  destruct (bool_decide (c_promise c ∈ timers (world sys)));
    [|destruct sys; exact HI].
  apply (Inv_own_promise sys _ c HI Hc).
  - now rewrite length_promises_settle.
  - rewrite heap_settle. simpl. apply length_alter.
  - intros k l. rewrite sessions_settle. simpl. apply get_delete_Some.
  - intros h Hne. now rewrite promise_at_settle_ne by congruence.
  - intros h Hne Hin. rewrite timers_settle. simpl.
    apply elem_of_difference. split; [assumption|].
    now rewrite elem_of_singleton.
  - intros l. rewrite pending_at_settle.
    change (pending_at (set_sessions ?x ?y) l) with (pending_at y l).
    now rewrite pending_at_modify_frame by reflexivity.
Qed.

Lemma Inv_open sys c :
  Inv sys -> c ∈ connections sys ->
  Inv (with_world (ws_on_open (world sys) c) sys).
Proof.
  intros HI Hc. unfold ws_on_open.
  destruct (heap (world sys) !! c_session c); [|destruct sys; exact HI].
  apply (Inv_own_promise sys _ c HI Hc).
  - now rewrite length_promises_settle.
  - rewrite heap_settle. now rewrite !length_heap_modify.
  - intros k l. now rewrite sessions_settle.
  - intros h Hne. now rewrite promise_at_settle_ne by congruence.
  - intros h Hne Hin. rewrite timers_settle. simpl.
    apply elem_of_difference. split; [assumption|].
    now rewrite elem_of_singleton.
  - intros l. rewrite pending_at_settle.
    now rewrite !pending_at_modify_frame by reflexivity.
Qed.

End Invariant.

Section InvariantClosing.
Import SessionManager Runs.
Implicit Types (w : World) (sys : System) (p : Pending).

Lemma length_promises_reject_each err entries w :
  length (promises (reject_each err entries w)) = length (promises w).
Proof.
  unfold reject_each. revert w.
  induction entries as [|e entries IH]; intros w; simpl; [reflexivity|].
  rewrite IH. unfold pending_reject. now rewrite length_promises_settle.
Qed.

Lemma length_promises__rejectAllPending w l err :
  length (promises (_rejectAllPending w l err)) = length (promises w).
Proof.
  destruct (heap w !! l) as [s|] eqn:Hs.
  - rewrite (_rejectAllPending_unfold _ _ _ _ Hs). simpl.
    apply length_promises_reject_each.
  - unfold _rejectAllPending. now rewrite Hs.
Qed.

Lemma length_heap__rejectAllPending w l err :
  length (heap (_rejectAllPending w l err)) = length (heap w).
Proof.
  destruct (heap w !! l) as [s|] eqn:Hs.
  - rewrite (_rejectAllPending_unfold _ _ _ _ Hs), length_heap_modify.
    now rewrite heap_reject_each.
  - unfold _rejectAllPending. now rewrite Hs.
Qed.

Lemma pending_at__rejectAllPending_other w l err l' :
  l <> l' -> pending_at (_rejectAllPending w l err) l' = pending_at w l'.
Proof.
  intros Hne. destruct (heap w !! l) as [s|] eqn:Hs.
  - rewrite (_rejectAllPending_unfold _ _ _ _ Hs), pending_at_modify.
    rewrite decide_False by assumption.
    unfold pending_at. now rewrite heap_reject_each.
  - unfold _rejectAllPending. now rewrite Hs.
Qed.

Lemma elem_of_handles (entries : JSMap.t Pending) h :
  h ∈ handles entries -> exists k p, (k, p) ∈ entries /\ p_promise p = h.
Proof.
  unfold handles. intros H. apply list_elem_of_In, in_map_iff in H.
  destruct H as ([k p] & Hp & Hin). exists k, p.
  split; [now apply list_elem_of_In | exact Hp].
Qed.

(** Emptying the pending table of one session object, its promises being
    the ones settled, together with promises [X] no entry uses. *)
Lemma Inv_emptying sys w' l (X : nat -> Prop) :
  Inv sys ->
  length (promises w') = length (promises (world sys)) ->
  length (heap w') = length (heap (world sys)) ->
  (forall k l, JSMap.get k (sessions w') = Some l ->
               JSMap.get k (sessions (world sys)) = Some l) ->
  (forall h, h ∉ handles (pending_at (world sys) l) -> ~ X h ->
             promise_at w' h = promise_at (world sys) h) ->
  (forall h, h ∉ handles (pending_at (world sys) l) -> ~ X h ->
             h ∈ timers (world sys) -> h ∈ timers w') ->
  (forall l k p, (k, p) ∈ pending_at (world sys) l -> ~ X (p_promise p)) ->
  pending_at w' l = [] ->
  (forall l', l <> l' -> pending_at w' l' = pending_at (world sys) l') ->
  Inv (with_world w' sys).
Proof.
  intros HI Hlen Hheap Hsess Hprom Htim HX Hempty Hother.
  apply (Inv_settling sys w'
           (fun h => h ∈ handles (pending_at (world sys) l) \/ X h));
    try assumption.
  - lia.
  - intros h Hh. apply Hprom; tauto.
  - intros h Hh. apply Htim; tauto.
  - intros l' k p' H. destruct (decide (l = l')) as [<-|Hne].
    + rewrite Hempty in H. inversion H.
    + rewrite (Hother _ Hne) in H. exists p'. repeat split; try assumption.
      intros [Hh|Hx]; [|eapply HX; eauto].
      apply elem_of_handles in Hh as (k0 & p0 & Hin0 & Hp0).
      destruct (inv_distinct sys HI _ _ _ _ _ _ Hin0 H Hp0). contradiction.
Qed.

Lemma Inv_closeSession sys sessionId :
  Inv sys -> Inv (with_world (fst (closeSession (world sys) sessionId)) sys).
Proof.
  intros HI. unfold closeSession.
  destruct (JSMap.get sessionId (sessions (world sys))) as [l|];
    [|destruct sys; exact HI].
  cbn [fst]. apply (Inv_emptying sys _ l (fun _ => False)); try assumption.
  - simpl. apply length_promises__rejectAllPending.
  - simpl. rewrite length_alter. apply length_heap__rejectAllPending.
  - intros k l'. simpl. rewrite sessions__rejectAllPending. apply get_delete_Some.
  - intros h Hh _.
    change (promise_at (_rejectAllPending (world sys) l ClosedManually) h
            = promise_at (world sys) h).
    now rewrite promise_at__rejectAllPending, decide_False.
  - intros h Hh _ Hin. simpl. apply timers__rejectAllPending. tauto.
  - tauto.
  - change (pending_at (modify l ws_terminate
              (_rejectAllPending (world sys) l ClosedManually)) l = []).
    rewrite pending_at_modify_frame by reflexivity.
    apply pending_at__rejectAllPending.
  - intros l' Hne.
    change (pending_at (modify l ws_terminate
              (_rejectAllPending (world sys) l ClosedManually)) l'
            = pending_at (world sys) l').
    rewrite pending_at_modify_frame by reflexivity.
    now apply pending_at__rejectAllPending_other.
Qed.

Lemma Inv_close sys c code :
  Inv sys -> Inv (with_world (ws_on_close (world sys) c code) sys).
Proof.
  intros HI. unfold ws_on_close.
  set (w1 := modify (c_session c) (set_status status_closed) (world sys)).
  assert (Hp1 : forall l, pending_at w1 l = pending_at (world sys) l)
    by (intros l; apply pending_at_modify_frame; reflexivity).
  apply (Inv_emptying sys _ (c_session c) (fun _ => False)); try assumption.
  - simpl. now rewrite length_promises__rejectAllPending.
  - simpl. subst w1. now rewrite length_heap__rejectAllPending, length_heap_modify.
  - intros k l'. simpl. rewrite sessions__rejectAllPending. apply get_delete_Some.
  - intros h Hh _.
    change (promise_at (_rejectAllPending w1 (c_session c) (SessionClosed code)) h
            = promise_at w1 h).
    rewrite promise_at__rejectAllPending, Hp1. now rewrite decide_False.
  - intros h Hh _ Hin. simpl. apply timers__rejectAllPending.
    rewrite Hp1. tauto.
  - tauto.
  - change (pending_at (_rejectAllPending w1 (c_session c) (SessionClosed code))
              (c_session c) = []).
    apply pending_at__rejectAllPending.
  - intros l' Hne.
    change (pending_at (_rejectAllPending w1 (c_session c) (SessionClosed code)) l'
            = pending_at (world sys) l').
    rewrite pending_at__rejectAllPending_other by assumption. apply Hp1.
Qed.

Lemma Inv_error sys c err :
  Inv sys -> c ∈ connections sys ->
  Inv (with_world (ws_on_error (world sys) c err) sys).
Proof.
  intros HI Hc. unfold ws_on_error.
  set (w2 := modify (c_session c) (set_status status_error)
               (clearTimeout (c_promise c) (world sys))).
  set (w3 := _rejectAllPending w2 (c_session c) (TransportError err)).
  assert (Hp2 : forall l, pending_at w2 l = pending_at (world sys) l)
    by (intros l; subst w2; now rewrite pending_at_modify_frame by reflexivity).
  destruct (inv_connection sys HI c Hc) as [_ Hfresh].
  assert (H3 : Inv (with_world w3 sys)).
  { apply (Inv_emptying sys _ (c_session c) (fun h => h = c_promise c));
      try assumption.
    - subst w3. now rewrite length_promises__rejectAllPending.
    - subst w3 w2. now rewrite length_heap__rejectAllPending, length_heap_modify.
    - intros k l'. subst w3. now rewrite sessions__rejectAllPending.
    - intros h Hh _. subst w3.
      rewrite promise_at__rejectAllPending, Hp2. now rewrite decide_False.
    - intros h Hh Hne Hin. subst w3. apply timers__rejectAllPending.
      rewrite Hp2. split; [|assumption]. subst w2. simpl.
      apply elem_of_difference. split; [assumption|].
      now rewrite elem_of_singleton.
    - subst w3. apply pending_at__rejectAllPending.
    - intros l' Hne. subst w3.
      rewrite pending_at__rejectAllPending_other by assumption. apply Hp2. }
  destruct (status_at w3 (c_session c)) as [st|]; [|exact H3].
  destruct (status_eqb st status_connecting); [|exact H3].
  change (Inv (with_world
                 (settle (c_promise c) (Rejected (TransportError err))
                    (set_sessions (JSMap.delete (c_sessionId c) (sessions w3)) w3))
                 (with_world w3 sys))).
  apply (Inv_own_promise (with_world w3 sys) _ c H3 Hc).
  - now rewrite length_promises_settle.
  - now rewrite heap_settle.
  - intros k l. rewrite sessions_settle. simpl. apply get_delete_Some.
  - intros h Hne. now rewrite promise_at_settle_ne by congruence.
  - intros h Hne Hin. now rewrite timers_settle.
  - intros l. now rewrite pending_at_settle.
Qed.

End InvariantClosing.

Section InvariantDispatch.
Import SessionManager Runs Accumulation.
Implicit Types (w : World) (sys : System) (p : Pending).

Lemma pending_at_unregister_other l k w l' :
  l <> l' -> pending_at (unregister l k w) l' = pending_at w l'.
Proof.
  intros Hne. unfold unregister. rewrite pending_at_modify.
  now rewrite decide_False.
Qed.

Lemma pending_at_pending_resolve p data t w l :
  pending_at (pending_resolve p data t w) l = pending_at w l.
Proof.
  unfold pending_resolve.
  now rewrite pending_at_settle, !pending_at_modify_frame by reflexivity.
Qed.

Lemma pending_at_pending_reject p err w l :
  pending_at (pending_reject p err w) l = pending_at w l.
Proof. unfold pending_reject. now rewrite pending_at_settle. Qed.

(** Settling the promise of one entry and deleting its key. *)
Lemma Inv_finishing sys w' l k p :
  Inv sys ->
  (k, p) ∈ pending_at (world sys) l ->
  length (promises w') = length (promises (world sys)) ->
  length (heap w') = length (heap (world sys)) ->
  sessions w' = sessions (world sys) ->
  (forall h, h <> p_promise p -> promise_at w' h = promise_at (world sys) h) ->
  (forall h, h <> p_promise p -> h ∈ timers (world sys) -> h ∈ timers w') ->
  (forall l' k' p', (k', p') ∈ pending_at w' l' ->
     (k', p') ∈ pending_at (world sys) l' /\ (l' <> l \/ k' <> k)) ->
  Inv (with_world w' sys).
Proof.
  intros HI Hin Hlen Hheap Hsess Hprom Htim Hsurv.
  apply (Inv_settling sys w' (fun h => h = p_promise p)); try assumption.
  - lia.
  - intros k0 l0. now rewrite Hsess.
  - intros l' k' p' H. destruct (Hsurv _ _ _ H) as [Hold Hother].
    exists p'. repeat split; try assumption.
    intros E. destruct (inv_distinct sys HI _ _ _ _ _ _ Hold Hin E) as [-> ->].
    destruct Hother; congruence.
Qed.

Lemma Inv_accumulating sys l (f : Pending -> Pending) :
  (forall p, p_promise (f p) = p_promise p /\ p_session (f p) = p_session p) ->
  Inv sys ->
  Inv (with_world (modify l (mutate_latest f) (world sys)) sys).
Proof.
  intros Hf HI.
  apply (Inv_settling sys _ (fun _ => False)); try assumption; try reflexivity.
  - now rewrite length_heap_modify.
  - tauto.
  - intros h _ Hh. exact Hh.
  - intros l' k p' H. destruct (decide (l = l')) as [<-|Hne].
    + rewrite pending_at_mutate_latest in H.
      apply elem_of_update_last in H as (p0 & Hin & [->| ->]).
      * exists p0. tauto.
      * exists p0. destruct (Hf p0). tauto.
    + rewrite pending_at_modify, decide_False in H by assumption.
      exists p'. tauto.
Qed.

Lemma ends_request_true event :
  ends_request event = true -> type event = "response.done" \/ type event = "error".
Proof.
  unfold ends_request, one_of. simpl. rewrite orb_false_r.
  intros H. apply orb_prop in H as [H|H]; apply String.eqb_eq in H; auto.
Qed.

Lemma latest_pending s k p :
  JSMap.last_entry (pendingResponses s) = Some (k, p) ->
  _getLatestPending s = Some p /\ _getLatestPendingId s = Some k.
Proof.
  intros H. unfold _getLatestPending, _getLatestPendingId.
  now rewrite last_keys, H.
Qed.

Lemma no_latest_pending s :
  JSMap.last_entry (pendingResponses s) = None -> _getLatestPending s = None.
Proof. intros H. unfold _getLatestPending. now rewrite H. Qed.

Lemma Inv_dispatch sys l event now :
  Inv sys ->
  Inv (with_world (_handleOpenAIEvent (world sys) l event now) sys).
Proof.
  intros HI. destruct (ends_request event) eqn:Hend.
  - assert (Hsame : Inv (with_world (world sys) sys)) by (destruct sys; exact HI).
    destruct (heap (world sys) !! l) as [s|] eqn:Hs.
    2:{ unfold _handleOpenAIEvent. now rewrite Hs. }
    destruct (JSMap.last_entry (pendingResponses s)) as [[k p]|] eqn:Hlast.
    2:{ apply no_latest_pending in Hlast. unfold _handleOpenAIEvent.
        rewrite Hs, Hlast. now repeat case_match. }
    assert (Hin : (k, p) ∈ pending_at (world sys) l).
    { unfold pending_at. rewrite Hs. now apply last_entry_elem_of. }
    destruct (inv_key sys HI _ _ _ Hin) as [Hk _].
    assert (Htruthy : truthy k = true).
    { unfold truthy. apply negb_true_iff. now apply String.eqb_neq. }
    destruct (latest_pending _ _ _ Hlast) as [Hp Hid].
    apply ends_request_true in Hend as [Ht|Ht];
      unfold _handleOpenAIEvent; rewrite Hs, Ht, Hp, Hid; simpl; rewrite Htruthy.
    + apply (Inv_finishing sys _ l k p HI Hin).
      * unfold unregister, pending_resolve. simpl.
        now rewrite length_promises_settle.
      * unfold unregister, pending_resolve.
        now rewrite length_heap_modify, heap_settle, !length_heap_modify.
      * unfold unregister, pending_resolve. simpl. now rewrite sessions_settle.
      * intros h Hne. rewrite promise_at_unregister. unfold pending_resolve.
        now rewrite promise_at_settle_ne by congruence.
      * intros h Hne Hh. unfold unregister, pending_resolve. simpl.
        rewrite timers_settle. simpl. apply elem_of_difference.
        split; [assumption|]. now rewrite elem_of_singleton.
      * intros l' k' p' H. destruct (decide (l = l')) as [<-|Hne].
        -- rewrite pending_at_unregister, pending_at_pending_resolve in H.
           apply elem_of_delete in H. tauto.
        -- rewrite pending_at_unregister_other,
             pending_at_pending_resolve in H by assumption.
           split; [assumption | left; congruence].
    + apply (Inv_finishing sys _ l k p HI Hin).
      * unfold unregister, pending_reject. simpl.
        now rewrite length_promises_settle.
      * unfold unregister, pending_reject.
        now rewrite length_heap_modify, heap_settle.
      * unfold unregister, pending_reject. simpl. now rewrite sessions_settle.
      * intros h Hne. rewrite promise_at_unregister. unfold pending_reject.
        now rewrite promise_at_settle_ne by congruence.
      * intros h Hne Hh. unfold unregister, pending_reject. simpl.
        rewrite timers_settle. simpl. apply elem_of_difference.
        split; [assumption|]. now rewrite elem_of_singleton.
      * intros l' k' p' H. destruct (decide (l = l')) as [<-|Hne].
        -- rewrite pending_at_unregister, pending_at_pending_reject in H.
           apply elem_of_delete in H. tauto.
        -- rewrite pending_at_unregister_other,
             pending_at_pending_reject in H by assumption.
           split; [assumption | left; congruence].
  - rewrite dispatch_accumulates by assumption.
    apply Inv_accumulating; [|assumption].
    intros p. destruct (accumulate_closure event p)
      as (_ & Hs & _ & _ & _ & _ & Hp & _). split; assumption.
Qed.

Lemma Inv_responseTimeout sys call :
  Inv sys -> call ∈ calls sys ->
  Inv (with_world (responseTimeout_fires (world sys) call) sys).
Proof.
  intros HI Hc. unfold responseTimeout_fires.
  destruct (bool_decide (call_promise call ∈ timers (world sys)));
    [|destruct sys; exact HI].
  destruct (inv_call sys HI call Hc) as [_ Hid].
  apply (Inv_settling sys _ (fun h => h = call_promise call)); try assumption.
  - now rewrite length_promises_settle.
  - rewrite heap_settle. unfold unregister. now rewrite length_heap_modify.
  - intros k l. now rewrite sessions_settle.
  - intros h Hne. rewrite promise_at_settle_ne by congruence. reflexivity.
  - intros h Hne Hh. rewrite timers_settle. simpl. apply elem_of_difference.
    split; [assumption|]. now rewrite elem_of_singleton.
  - intros l k p' H. rewrite pending_at_settle in H.
    destruct (decide (call_session call = l)) as [<-|Hne].
    + rewrite pending_at_unregister in H. apply elem_of_delete in H as [H Hk].
      exists p'. repeat split; try assumption.
      intros E. destruct (Hid _ _ _ H E). contradiction.
    + rewrite pending_at_unregister_other in H by assumption.
      exists p'. repeat split; try assumption.
      intros E. destruct (Hid _ _ _ H E). congruence.
Qed.

End InvariantDispatch.

Section InvariantAllocating.
Import SessionManager Runs.
Implicit Types (w : World) (sys : System) (p : Pending).

Lemma handle_allocated sys l k p :
  Inv sys -> (k, p) ∈ pending_at (world sys) l ->
  p_promise p < length (promises (world sys)).
Proof.
  intros HI Hin.
  destruct (inv_awaiting sys HI _ _ _ Hin) as [H|H];
    exact (lookup_lt_Some _ _ _ H).
Qed.

Lemma promise_at_allocated w w' h o :
  promises w' = promises w ++ [o] ->
  h < length (promises w) -> promise_at w' h = promise_at w h.
Proof. intros E Hlt. unfold promise_at. rewrite E. now apply lookup_app_l. Qed.

(** [createSession]: a new promise, a new session object with an empty
    pending table, and a new set of handlers. *)
Lemma Inv_creating sys w' c :
  Inv sys ->
  promises w' = promises (world sys) ++ [Unsettled] ->
  (forall h, h ∈ timers (world sys) -> h ∈ timers w') ->
  (forall k l, JSMap.get k (sessions w') = Some l -> l < length (heap w')) ->
  (forall l, pending_at w' l = pending_at (world sys) l) ->
  c_promise c = length (promises (world sys)) ->
  Inv {| world := w'; connections := c :: connections sys; calls := calls sys |}.
Proof.
  intros HI Hprom Htim Hreg Hpend Hc.
  assert (Hlen : length (promises w') = S (length (promises (world sys))))
    by (rewrite Hprom, length_app; simpl; lia).
  split; simpl.
  - exact Hreg.
  - intros l k p H. rewrite Hpend in H. exact (inv_key sys HI _ _ _ H).
  - intros l k p H. rewrite Hpend in H.
    rewrite (promise_at_allocated _ _ _ _ Hprom (handle_allocated sys _ _ _ HI H)).
    exact (inv_awaiting sys HI _ _ _ H).
  - intros l k p H. rewrite Hpend in H. apply Htim.
    exact (inv_armed sys HI _ _ _ H).
  - intros l k p l' k' p' H H'. rewrite Hpend in H, H'.
    exact (inv_distinct sys HI _ _ _ _ _ _ H H').
  - intros c' Hin. apply elem_of_cons in Hin as [-> | Hin].
    + split; [lia|]. intros l k p H. rewrite Hpend in H.
      pose proof (handle_allocated sys _ _ _ HI H). lia.
    + destruct (inv_connection sys HI c' Hin) as [Hlt Hne]. split; [lia|].
      intros l k p H. rewrite Hpend in H. eapply Hne; eauto.
  - intros call Hin. destruct (inv_call sys HI call Hin) as [Hlt Hid].
    split; [lia|]. intros l k p H. rewrite Hpend in H. eapply Hid; eauto.
Qed.

Lemma Inv_createSession sys options uuid now :
  Inv sys -> Inv (exec sys (ACreateSession options uuid now)).
Proof.
  intros HI. unfold exec, createSession.
  destruct ((0 <? maxSessions (config (world sys)))%Z
            && (maxSessions (config (world sys))
                <=? Z.of_nat (JSMap.size (sessions (world sys))))%Z).
  - destruct sys. exact HI.
  - cbn [fst snd add_connection]. apply Inv_creating; try assumption.
    + reflexivity.
    + intros h Hh. simpl. apply elem_of_union. now right.
    + intros k l. simpl. rewrite length_app. simpl.
      destruct (String.eqb_spec
                  (or_string (opt_sessionId options) uuid) k) as [->|Hne].
      * rewrite get_set_same. intros [= <-]. lia.
      * rewrite get_set_other by assumption. intros H.
        apply (inv_registry sys HI) in H. lia.
    + intros l. unfold pending_at. simpl.
      destruct (decide (l < length (heap (world sys)))) as [Hlt|Hge].
      * now rewrite lookup_app_l.
      * assert (Hnone : heap (world sys) !! l = None)
          by (apply lookup_ge_None; lia).
        rewrite Hnone.
        destruct (decide (l = length (heap (world sys)))) as [->|Hne].
        -- now rewrite list_lookup_middle.
        -- rewrite lookup_ge_None_2; [reflexivity|].
           rewrite length_app. simpl. lia.
    + reflexivity.
Qed.

(** [sendText] and [sendAudio]: a new promise with its timer, and a new
    entry under the request id in the pending table of the session. *)
Lemma Inv_registering sys w' l uuid p0 o :
  Inv sys ->
  uuid <> "" ->
  awaiting (Some o) ->
  promises w' = promises (world sys) ++ [o] ->
  (forall h, h ∈ timers (world sys) \/ h = length (promises (world sys)) ->
             h ∈ timers w') ->
  sessions w' = sessions (world sys) ->
  length (heap w') = length (heap (world sys)) ->
  (forall l', pending_at w' l'
              = if decide (l = l')
                then JSMap.set uuid p0 (pending_at (world sys) l)
                else pending_at (world sys) l') ->
  p_promise p0 = length (promises (world sys)) ->
  p_session p0 = l ->
  Inv {| world := w'; connections := connections sys;
         calls := {| call_session := l; call_requestId := uuid;
                     call_promise := length (promises (world sys)) |}
                  :: calls sys |}.
Proof.
  intros HI Huuid Ho Hprom Htim Hsess Hheap Hpend Hh0 Hs0.
  assert (Hlen : length (promises w') = S (length (promises (world sys))))
    by (rewrite Hprom, length_app; simpl; lia).
  assert (Hentry : forall l' k p, (k, p) ∈ pending_at w' l' ->
            (l' = l /\ k = uuid /\ p = p0) \/ (k, p) ∈ pending_at (world sys) l').
  { intros l' k p H. rewrite Hpend in H.
    destruct (decide (l = l')) as [<-|Hne]; [|now right].
    apply elem_of_set in H as [[= -> ->]|H]; [left | right]; auto. }
  assert (Hnew : promise_at w' (length (promises (world sys))) = Some o).
  { unfold promise_at. rewrite Hprom. now apply list_lookup_middle. }
  split; simpl.
  - intros k l'. rewrite Hsess, Hheap. apply (inv_registry sys HI).
  - intros l' k p H. destruct (Hentry _ _ _ H) as [(-> & -> & ->)|Hold].
    + split; assumption.
    + exact (inv_key sys HI _ _ _ Hold).
  - intros l' k p H. destruct (Hentry _ _ _ H) as [(-> & -> & ->)|Hold].
    + now rewrite Hh0, Hnew.
    + rewrite (promise_at_allocated _ _ _ _ Hprom (handle_allocated sys _ _ _ HI Hold)).
      exact (inv_awaiting sys HI _ _ _ Hold).
  - intros l' k p H. apply Htim.
    destruct (Hentry _ _ _ H) as [(-> & -> & ->)|Hold].
    + now right.
    + left. exact (inv_armed sys HI _ _ _ Hold).
  - intros l1 k1 p1 l2 k2 p2 H1 H2 E.
    destruct (Hentry _ _ _ H1) as [(-> & -> & ->)|Hold1];
      destruct (Hentry _ _ _ H2) as [(-> & -> & ->)|Hold2].
    + split; reflexivity.
    + pose proof (handle_allocated sys _ _ _ HI Hold2). lia.
    + pose proof (handle_allocated sys _ _ _ HI Hold1). lia.
    + exact (inv_distinct sys HI _ _ _ _ _ _ Hold1 Hold2 E).
  - intros c Hin. destruct (inv_connection sys HI c Hin) as [Hlt Hne].
    split; [lia|]. intros l' k p H.
    destruct (Hentry _ _ _ H) as [(-> & -> & ->)|Hold].
    + lia.
    + eapply Hne; eauto.
  - intros call Hin. apply elem_of_cons in Hin as [-> | Hin]; simpl.
    + split; [lia|]. intros l' k p H E.
      destruct (Hentry _ _ _ H) as [(-> & -> & ->)|Hold].
      * split; reflexivity.
      * pose proof (handle_allocated sys _ _ _ HI Hold). lia.
    + destruct (inv_call sys HI call Hin) as [Hlt Hid]. split; [lia|].
      intros l' k p H E. destruct (Hentry _ _ _ H) as [(-> & -> & ->)|Hold].
      * lia.
      * eapply Hid; eauto.
Qed.

Lemma pendingResponses_ws_send_all messages s :
  pendingResponses (ws_send_all messages s) = pendingResponses s.
Proof.
  unfold ws_send_all. revert s.
  induction messages as [|m messages IH]; intros s; simpl; [reflexivity|].
  now rewrite IH.
Qed.

Lemma promises_settle_fresh w ps h o :
  promises w = ps ++ [Unsettled] -> h = length ps ->
  promises (settle h o w) = ps ++ [o].
Proof.
  intros E ->. unfold settle. rewrite E, list_lookup_middle by reflexivity.
  simpl. rewrite insert_app_r_alt, Nat.sub_diag by lia. reflexivity.
Qed.

Lemma Inv_sendText sys sessionId text options uuid now :
  Inv sys -> uuid <> "" ->
  Inv (exec sys (ASendText sessionId text options uuid now)).
Proof.
  intros HI Huuid. unfold exec, sendText.
  destruct (_getSession (world sys) sessionId) as [e|l] eqn:Hs.
  - destruct sys. exact HI.
  - destruct (_getSession_inr _ _ _ Hs) as (_ & s & Hheap & _).
    match goal with |- context [if ?b then _ else _] => destruct b end;
      cbn [fst snd add_call].
    + match goal with
      | |- context [register l uuid ?q _] =>
          apply (Inv_registering sys _ l uuid q (Rejected NOT_OPEN))
      end; try assumption; try reflexivity.
      * now right.
      * now apply promises_settle_fresh.
      * rewrite timers_settle.
        intros h [Hh | ->]; simpl; apply elem_of_union; [right | left];
          [assumption | now apply elem_of_singleton].
      * now rewrite sessions_settle.
      * rewrite heap_settle. unfold register.
        rewrite !length_heap_modify. simpl. apply length_alter.
      * intros l'. rewrite pending_at_settle.
        destruct (decide (l = l')) as [<-|Hne].
        -- rewrite pending_at_register
             by (simpl; apply (is_Some_heap_modify l l); eauto).
           change (pending_at (setTimeout ?h (set_promises ?ps ?x)) l)
             with (pending_at x l).
           now rewrite pending_at_modify_frame by reflexivity.
        -- unfold register.
           rewrite !(pending_at_modify l l'), !decide_False by assumption.
           change (pending_at (setTimeout ?h (set_promises ?ps ?x)) l')
             with (pending_at x l').
           now rewrite pending_at_modify, decide_False by assumption.
    + match goal with
      | |- context [register l uuid ?q _] =>
          apply (Inv_registering sys _ l uuid q Unsettled)
      end; try assumption; try reflexivity.
      * now left.
      * intros h [Hh | ->]; simpl; apply elem_of_union; [right | left];
          [assumption | now apply elem_of_singleton].
      * unfold register. rewrite !length_heap_modify. simpl. apply length_alter.
      * intros l'. destruct (decide (l = l')) as [<-|Hne].
        -- rewrite !pending_at_modify_frame by reflexivity.
           rewrite pending_at_register
             by (simpl; apply (is_Some_heap_modify l l); eauto).
           change (pending_at (setTimeout ?h (set_promises ?ps ?x)) l)
             with (pending_at x l).
           now rewrite pending_at_modify_frame by reflexivity.
        -- unfold register.
           rewrite !(pending_at_modify l l'), !decide_False by assumption.
           change (pending_at (setTimeout ?h (set_promises ?ps ?x)) l')
             with (pending_at x l').
           now rewrite pending_at_modify, decide_False by assumption.
Qed.

Lemma Inv_sendAudio sys sessionId audio options uuid now :
  Inv sys -> uuid <> "" ->
  Inv (exec sys (ASendAudio sessionId audio options uuid now)).
Proof.
  intros HI Huuid. unfold exec, sendAudio.
  destruct (_getSession (world sys) sessionId) as [e|l] eqn:Hs.
  - destruct sys. exact HI.
  - destruct (_getSession_inr _ _ _ Hs) as (_ & s & Hheap & _).
    match goal with |- context [if ?b then _ else _] => destruct b end;
      cbn [fst snd add_call].
    + match goal with
      | |- context [register l uuid ?q _] =>
          apply (Inv_registering sys _ l uuid q (Rejected NOT_OPEN))
      end; try assumption; try reflexivity.
      * now right.
      * now apply promises_settle_fresh.
      * rewrite timers_settle.
        intros h [Hh | ->]; simpl; apply elem_of_union; [right | left];
          [assumption | now apply elem_of_singleton].
      * now rewrite sessions_settle.
      * rewrite heap_settle. unfold register.
        rewrite !length_heap_modify. simpl. apply length_alter.
      * intros l'. rewrite pending_at_settle.
        destruct (decide (l = l')) as [<-|Hne].
        -- rewrite pending_at_register
             by (simpl; apply (is_Some_heap_modify l l); eauto).
           change (pending_at (setTimeout ?h (set_promises ?ps ?x)) l)
             with (pending_at x l).
           now rewrite pending_at_modify_frame by reflexivity.
        -- unfold register.
           rewrite !(pending_at_modify l l'), !decide_False by assumption.
           change (pending_at (setTimeout ?h (set_promises ?ps ?x)) l')
             with (pending_at x l').
           now rewrite pending_at_modify, decide_False by assumption.
    + match goal with
      | |- context [register l uuid ?q _] =>
          apply (Inv_registering sys _ l uuid q Unsettled)
      end; try assumption; try reflexivity.
      * now left.
      * intros h [Hh | ->]; simpl; apply elem_of_union; [right | left];
          [assumption | now apply elem_of_singleton].
      * unfold register. rewrite !length_heap_modify. simpl. apply length_alter.
      * intros l'. destruct (decide (l = l')) as [<-|Hne].
        -- rewrite !pending_at_modify_frame
             by (intros; first [reflexivity | apply pendingResponses_ws_send_all]).
           rewrite pending_at_register
             by (simpl; apply (is_Some_heap_modify l l); eauto).
           change (pending_at (setTimeout ?h (set_promises ?ps ?x)) l)
             with (pending_at x l).
           now rewrite pending_at_modify_frame by reflexivity.
        -- unfold register.
           rewrite !(pending_at_modify l l'), !decide_False by assumption.
           change (pending_at (setTimeout ?h (set_promises ?ps ?x)) l')
             with (pending_at x l').
           now rewrite pending_at_modify, decide_False by assumption.
Qed.

Lemma Inv_cleanup sys now :
  Inv sys -> Inv (with_world (_cleanupIdleSessions (world sys) now) sys).
Proof.
  unfold _cleanupIdleSessions.
  generalize (sessions (world sys)) as entries.
  intros entries. revert sys.
  induction entries as [|e entries IH]; intros sys HI; simpl.
  - destruct sys. exact HI.
  - destruct (is_idle (world sys) now e.2).
    + apply (IH (with_world (closeSession (world sys) e.1).1 sys)).
      now apply Inv_closeSession.
    + now apply IH.
Qed.

Lemma Inv_initial cfg : Inv (initial cfg).
Proof.
  split; simpl; try (intros; match goal with H : _ ∈ [] |- _ => inversion H end).
  - intros k l H. discriminate.
  - intros l k p H. unfold pending_at in H. simpl in H. inversion H.
  - intros l k p H. unfold pending_at in H. simpl in H. inversion H.
  - intros l k p H. unfold pending_at in H. simpl in H. inversion H.
  - intros l k p l' k' p' H. unfold pending_at in H. simpl in H. inversion H.
Qed.

(** Every step the environment can take keeps the invariant. *)
Lemma Inv_exec sys a : Inv sys -> enabled sys a -> Inv (exec sys a).
Proof.
  intros HI Hen. destruct a; simpl in Hen.
  - now apply Inv_createSession.
  - now apply Inv_sendText.
  - now apply Inv_sendAudio.
  - now apply Inv_updateInstructions.
  - now apply Inv_closeSession.
  - now apply Inv_cleanup.
  - now apply Inv_connectTimeout.
  - now apply Inv_open.
  - now apply Inv_dispatch.
  - now apply Inv_error.
  - now apply Inv_close.
  - now apply Inv_responseTimeout.
Qed.

End InvariantAllocating.

(** ** Reachable states *)

Section Reachable.
Import SessionManager Runs.
Implicit Types (w : World) (sys : System) (p : Pending).

Lemma reachable_Inv cfg sys : reachable cfg sys -> Inv sys.
Proof.
  induction 1 as [|sys a _ IH Hen]; [apply Inv_initial | now apply Inv_exec].
Qed.

(** A request that is in a pending table has its timer armed, and its
    promise was neither resolved nor rejected by an answer, a timeout, a
    transport failure or a close: it is unsettled, or it was rejected
    when the call itself could not send because the transport was still
    connecting.  This holds whatever the callers, the transports and the
    timers did so far. *)
Theorem pending_requests_not_answered cfg sys l k p :
  reachable cfg sys ->
  (k, p) ∈ pending_at (world sys) l ->
  (promise_at (world sys) (p_promise p) = Some Unsettled
   \/ promise_at (world sys) (p_promise p) = Some (Rejected NOT_OPEN))
  /\ armed (world sys) (p_promise p) = true.
Proof.
  intros Hr Hin. apply reachable_Inv in Hr. split.
  - exact (inv_awaiting sys Hr _ _ _ Hin).
  - unfold armed. apply bool_decide_eq_true. exact (inv_armed sys Hr _ _ _ Hin).
Qed.

(** In a reachable state, after [closeSession] every request that was
    pending on the session is rejected: with the closed-manually error
    when its promise was unsettled, and with the error of its failed send
    when the call had already rejected it. *)
Theorem closeSession_rejects_all cfg sys sessionId session k p :
  reachable cfg sys ->
  JSMap.get sessionId (sessions (world sys)) = Some session ->
  (k, p) ∈ pending_at (world sys) session ->
  let before := promise_at (world sys) (p_promise p) in
  let after := promise_at (fst (closeSession (world sys) sessionId)) (p_promise p) in
  (before = Some Unsettled /\ after = Some (Rejected ClosedManually))
  \/ (before = Some (Rejected NOT_OPEN) /\ after = Some (Rejected NOT_OPEN)).
Proof.
  intros Hr Hget Hin. cbv zeta.
  pose proof (inv_awaiting sys (reachable_Inv _ _ Hr) _ _ _ Hin) as Hun.
  assert (E : promise_at (fst (closeSession (world sys) sessionId)) (p_promise p)
              = promise_at (_rejectAllPending (world sys) session ClosedManually)
                  (p_promise p))
    by (unfold closeSession; rewrite Hget; reflexivity).
  rewrite E, promise_at__rejectAllPending, decide_True
    by now apply (handle_of_entry _ (k, p)).
  destruct Hun as [-> | ->]; [left | right]; split; reflexivity.
Qed.

End Reachable.

Section ReachableWitnesses.
Import SessionManager Runs Scenario.

Lemma sys_text_pending_reachable : reachable default_config sys_text_pending.
Proof.
  unfold sys_text_pending.
  apply reachable_step; [apply reachable_step; [apply reachable_step|]|].
  - apply reachable_initial.
  - exact I.
  - vm_compute. apply list_elem_of_here.
  - discriminate.
Defined.

Lemma pending_requests_not_answered_witness :
  (promise_at (world sys_text_pending) (p_promise p1) = Some Unsettled
   \/ promise_at (world sys_text_pending) (p_promise p1)
      = Some (Rejected NOT_OPEN))
  /\ armed (world sys_text_pending) (p_promise p1) = true.
Proof.
  apply (pending_requests_not_answered default_config sys_text_pending 0 "req-1" p1).
  - exact sys_text_pending_reachable.
  - vm_compute. apply list_elem_of_here.
Defined.

Lemma closeSession_rejects_all_witness :
  let before := promise_at (world sys_text_pending) (p_promise p1) in
  let after :=
    promise_at (fst (closeSession (world sys_text_pending) "s1")) (p_promise p1) in
  (before = Some Unsettled /\ after = Some (Rejected ClosedManually))
  \/ (before = Some (Rejected NOT_OPEN) /\ after = Some (Rejected NOT_OPEN)).
Proof.
  apply (closeSession_rejects_all default_config sys_text_pending "s1" 0 "req-1" p1).
  - exact sys_text_pending_reachable.
  - vm_compute. reflexivity.
  - vm_compute. apply list_elem_of_here.
Defined.

End ReachableWitnesses.

(** ** The layout of the container header *)

Section HeaderLayout.
Import Audio.

Lemma to_N_byte_of_N (n : N) : Byte.to_N (Base64.byte_of_N n) = (n mod 256)%N.
Proof.
  unfold Base64.byte_of_N.
  assert (Hlt : (n mod 256 < 256)%N) by (apply N.mod_lt; discriminate).
  destruct (Byte.of_N (n mod 256)) as [b|] eqn:E.
  - now apply Byte.to_of_N.
  - pose proof (Byte.to_of_N_option_map (n mod 256)) as H.
    rewrite E in H. simpl in H.
    destruct (N.leb_spec (n mod 256) 255); [discriminate | lia].
Qed.

Lemma le_bytes_byte (value : Z) (i : nat) :
  (0 <= value)%Z ->
  Z.of_N (Byte.to_N (Base64.byte_of_N (Z.to_N (Z.shiftr value (8 * Z.of_nat i)))))
  = ((value / 2 ^ (8 * Z.of_nat i)) mod 256)%Z.
Proof.
  intros Hv. rewrite to_N_byte_of_N, Z.shiftr_div_pow2 by lia.
  assert (0 <= value / 2 ^ (8 * Z.of_nat i))%Z
    by (apply Z.div_pos; [lia | apply Z.pow_pos_nonneg; lia]).
  rewrite N2Z.inj_mod, Z2N.id by lia. reflexivity.
Qed.

(** Reading back what [writeUInt32LE] and [writeUInt16LE] wrote. *)
Lemma le_value_le_bytes4 (value : Z) :
  (0 <= value < 2 ^ 32)%Z -> le_value (le_bytes 4 value) = value.
Proof.
  intros Hv. unfold le_value, le_bytes. cbn [seq map fold_right].
  rewrite !le_bytes_byte by lia.
  change (2 ^ (8 * Z.of_nat 0))%Z with 1%Z.
  change (2 ^ (8 * Z.of_nat 1))%Z with 256%Z.
  change (2 ^ (8 * Z.of_nat 2))%Z with 65536%Z.
  change (2 ^ (8 * Z.of_nat 3))%Z with 16777216%Z.
  change (2 ^ 32)%Z with 4294967296%Z in Hv.
  Z.div_mod_to_equations. lia.
Qed.

Lemma le_value_le_bytes2 (value : Z) :
  (0 <= value < 2 ^ 16)%Z -> le_value (le_bytes 2 value) = value.
Proof.
  intros Hv. unfold le_value, le_bytes. cbn [seq map fold_right].
  rewrite !le_bytes_byte by lia.
  change (2 ^ (8 * Z.of_nat 0))%Z with 1%Z.
  change (2 ^ (8 * Z.of_nat 1))%Z with 256%Z.
  change (2 ^ 16)%Z with 65536%Z in Hv.
  Z.div_mod_to_equations. lia.
Qed.

End HeaderLayout.

Section HeaderLayout2.
Import Audio.

Lemma writeUIntLE_eq (width : nat) (buf : Buffer) (value : Z) (offset : nat) :
  (0 <= value < 2 ^ (8 * Z.of_nat width))%Z ->
  (offset + width <= length buf)%nat ->
  writeUIntLE width buf value offset
  = Some (write_bytes buf offset (le_bytes width value)).
Proof.
  intros [Hlo Hhi] Hoff. unfold writeUIntLE.
  apply Z.leb_le in Hlo. apply Z.ltb_lt in Hhi. apply Nat.leb_le in Hoff.
  now rewrite Hlo, Hhi, Hoff.
Qed.

Lemma writeUIntLE_Some_inv (width : nat) (buf buf' : Buffer) (value : Z) (offset : nat) :
  writeUIntLE width buf value offset = Some buf' ->
  (0 <= value < 2 ^ (8 * Z.of_nat width))%Z.
Proof.
  unfold writeUIntLE.
  destruct (0 <=? value)%Z eqn:Hlo; [|discriminate].
  destruct (value <? 2 ^ (8 * Z.of_nat width))%Z eqn:Hhi; [|discriminate].
  intros _. apply Z.leb_le in Hlo. apply Z.ltb_lt in Hhi. lia.
Qed.

Lemma writeUIntLE_eighths_eq (width : nat) (buf : Buffer) (eighths : Z) (offset : nat) :
  (0 <= eighths <= 8 * (2 ^ (8 * Z.of_nat width) - 1))%Z ->
  (offset + width <= length buf)%nat ->
  writeUIntLE_eighths width buf eighths offset
  = Some (write_bytes buf offset (le_bytes width (eighths / 8))).
Proof.
  intros [Hlo Hhi] Hoff. unfold writeUIntLE_eighths.
  rewrite (proj2 (Z.leb_le _ _) Hhi). apply writeUIntLE_eq; [|exact Hoff].
  split; [apply Z.div_pos; lia|].
  apply Z.div_lt_upper_bound; lia.
Qed.

Lemma writeUIntLE_eighths_Some_inv (width : nat) (buf buf' : Buffer) (eighths : Z)
    (offset : nat) :
  writeUIntLE_eighths width buf eighths offset = Some buf' ->
  (0 <= eighths <= 8 * (2 ^ (8 * Z.of_nat width) - 1))%Z.
Proof.
  unfold writeUIntLE_eighths.
  destruct (Z.leb_spec eighths (8 * (2 ^ (8 * Z.of_nat width) - 1))) as [Hhi|];
    [|discriminate].
  intros H. apply writeUIntLE_Some_inv in H. split; [|exact Hhi].
  destruct (Z.le_gt_cases 0 eighths) as [|Hneg]; [assumption|].
  assert (eighths / 8 < 0)%Z by (apply Z.div_lt_upper_bound; lia). lia.
Qed.

Lemma le_bytes_shape4 (value : Z) :
  exists a b c d, le_bytes 4 value = [a; b; c; d].
Proof. unfold le_bytes. simpl. eauto 10. Qed.

Lemma le_bytes_shape2 (value : Z) : exists a b, le_bytes 2 value = [a; b].
Proof. unfold le_bytes. simpl. eauto. Qed.

(** The header as a whole: the four chunk tags and the nine numbers, in
    the order of the canonical 44-byte layout, then the data unchanged. *)
Lemma addWavHeader_layout (pcmData : Buffer) (sampleRate numChannels bitsPerSample : Z) :
  header_fields_in_range (Z.of_nat (length pcmData)) sampleRate numChannels
    bitsPerSample ->
  addWavHeader pcmData sampleRate numChannels bitsPerSample
  = Some (list_byte_of_string "RIFF"
          ++ le_bytes 4 (36 + Z.of_nat (length pcmData))
          ++ list_byte_of_string "WAVEfmt "
          ++ le_bytes 4 16
          ++ le_bytes 2 1
          ++ le_bytes 2 numChannels
          ++ le_bytes 4 sampleRate
          ++ le_bytes 4 (sampleRate * numChannels * bitsPerSample / 8)
          ++ le_bytes 2 (numChannels * bitsPerSample / 8)
          ++ le_bytes 2 bitsPerSample
          ++ list_byte_of_string "data"
          ++ le_bytes 4 (Z.of_nat (length pcmData))
          ++ pcmData).
Proof.
  intros (H1 & H2 & H3 & H4 & H5 & H6).
  assert (H7 : (0 <= Z.of_nat (length pcmData) <= 0xFFFFFFFF)%Z) by lia.
  unfold addWavHeader, writeUInt32LE, writeUInt16LE, writeUInt32LE_eighths,
    writeUInt16LE_eighths.
  cbv zeta.
  repeat (first [rewrite writeUIntLE_eq | rewrite writeUIntLE_eighths_eq];
          [ | change (2 ^ (8 * Z.of_nat 4))%Z with 4294967296%Z;
              change (2 ^ (8 * Z.of_nat 2))%Z with 65536%Z; lia
            | rewrite ?length_write_bytes, ?length_Buffer_write; simpl; lia ]).
  destruct (le_bytes_shape4 (36 + Z.of_nat (length pcmData))) as (? & ? & ? & ? & ->).
  destruct (le_bytes_shape4 16) as (? & ? & ? & ? & ->).
  destruct (le_bytes_shape2 1) as (? & ? & ->).
  destruct (le_bytes_shape2 numChannels) as (? & ? & ->).
  destruct (le_bytes_shape4 sampleRate) as (? & ? & ? & ? & ->).
  destruct (le_bytes_shape4 (sampleRate * numChannels * bitsPerSample / 8))
    as (? & ? & ? & ? & ->).
  destruct (le_bytes_shape2 (numChannels * bitsPerSample / 8)) as (? & ? & ->).
  destruct (le_bytes_shape2 bitsPerSample) as (? & ? & ->).
  destruct (le_bytes_shape4 (Z.of_nat (length pcmData))) as (? & ? & ? & ? & ->).
  reflexivity.
Qed.

End HeaderLayout2.

Section HeaderFields.
Import Audio.

Ltac expose_fields :=
  repeat match goal with
  | |- context [le_bytes 4 ?v] =>
      let E := fresh "E" in
      destruct (le_bytes_shape4 v) as (? & ? & ? & ? & E); rewrite E in *
  | |- context [le_bytes 2 ?v] =>
      let E := fresh "E" in
      destruct (le_bytes_shape2 v) as (? & ? & E); rewrite E in *
  end.

(** The container [addWavHeader] returns, read back field by field: it is
    44 bytes longer than the data; the tags are [RIFF], [WAVE], [fmt ] and
    [data]; the overall size is 36 plus the data size; the format block
    says linear PCM with the given channel count and sample rate, as byte
    rate the integer part of [sampleRate * numChannels * bitsPerSample / 8]
    and as block align the integer part of [numChannels * bitsPerSample /
    8] (the values themselves when [bitsPerSample] is a multiple of
    eight), and the given bits per sample; the data size is the length of
    the data, and the data follows unchanged. *)
Theorem addWavHeader_fields (pcmData : Buffer) (sampleRate numChannels bitsPerSample : Z) :
  header_fields_in_range (Z.of_nat (length pcmData)) sampleRate numChannels
    bitsPerSample ->
  exists wav,
    addWavHeader pcmData sampleRate numChannels bitsPerSample = Some wav
    /\ length wav = (44 + length pcmData)%nat
    /\ Buffer_slice wav 0 4 = list_byte_of_string "RIFF"
    /\ readUInt32LE wav 4 = Some (36 + Z.of_nat (length pcmData))%Z
    /\ Buffer_slice wav 8 16 = list_byte_of_string "WAVEfmt "
    /\ readUInt32LE wav 16 = Some 16%Z
    /\ readUInt16LE wav 20 = Some 1%Z
    /\ readUInt16LE wav 22 = Some numChannels
    /\ readUInt32LE wav 24 = Some sampleRate
    /\ readUInt32LE wav 28
       = Some (sampleRate * numChannels * bitsPerSample / 8)%Z
    /\ readUInt16LE wav 32 = Some (numChannels * bitsPerSample / 8)%Z
    /\ readUInt16LE wav 34 = Some bitsPerSample
    /\ Buffer_slice wav 36 40 = list_byte_of_string "data"
    /\ readUInt32LE wav 40 = Some (Z.of_nat (length pcmData))
    /\ drop 44 wav = pcmData.
Proof.
  intros Hrange. eexists. split; [now apply addWavHeader_layout|].
  destruct Hrange as (H1 & H2 & H3 & H4 & H5 & H6).
  assert (H7 : (0 <= Z.of_nat (length pcmData) < 2 ^ 32)%Z)
    by (change (2 ^ 32)%Z with 4294967296%Z; lia).
  pose proof (le_value_le_bytes4 (36 + Z.of_nat (length pcmData))) as F1.
  pose proof (le_value_le_bytes4 16) as F2.
  pose proof (le_value_le_bytes2 1) as F3.
  pose proof (le_value_le_bytes2 numChannels) as F4.
  pose proof (le_value_le_bytes4 sampleRate) as F5.
  pose proof (le_value_le_bytes4 (sampleRate * numChannels * bitsPerSample / 8)) as F6.
  pose proof (le_value_le_bytes2 (numChannels * bitsPerSample / 8)) as F7.
  assert (H4' : (0 <= sampleRate * numChannels * bitsPerSample / 8 < 4294967296)%Z)
    by (split; [apply Z.div_pos; lia | apply Z.div_lt_upper_bound; lia]).
  assert (H5' : (0 <= numChannels * bitsPerSample / 8 < 65536)%Z)
    by (split; [apply Z.div_pos; lia | apply Z.div_lt_upper_bound; lia]).
  pose proof (le_value_le_bytes2 bitsPerSample) as F8.
  pose proof (le_value_le_bytes4 (Z.of_nat (length pcmData))) as F9.
  change (2 ^ 32)%Z with 4294967296%Z in *.
  change (2 ^ 16)%Z with 65536%Z in *.
  expose_fields.
  unfold readUInt32LE, readUInt16LE, readUIntLE, Buffer_slice.
  set (riff := list_byte_of_string "RIFF"). vm_compute in riff. subst riff.
  set (wave := list_byte_of_string "WAVEfmt "). vm_compute in wave. subst wave.
  set (data := list_byte_of_string "data"). vm_compute in data. subst data.
  cbn [app length drop take Nat.sub Nat.add Nat.leb]. rewrite ?firstn_O.
  repeat split; try reflexivity;
    first [ rewrite F1 by lia | rewrite F2 by lia | rewrite F3 by lia
          | rewrite F4 by lia | rewrite F5 by lia | rewrite F6 by lia
          | rewrite F7 by lia | rewrite F8 by lia | rewrite F9 by lia ];
    reflexivity.
Qed.

(** [addWavHeader] returns a buffer exactly when the values it writes,
    the byte rate and the block align taken as the numbers they are, lie
    within the ranges of their fields; otherwise one of the writes
    raises. *)
Theorem addWavHeader_returns_iff (pcmData : Buffer) (sampleRate numChannels bitsPerSample : Z) :
  is_Some (addWavHeader pcmData sampleRate numChannels bitsPerSample)
  <-> header_fields_in_range (Z.of_nat (length pcmData)) sampleRate numChannels
        bitsPerSample.
Proof.
  split.
  - intros [wav H]. revert H.
    unfold addWavHeader, writeUInt32LE, writeUInt16LE, writeUInt32LE_eighths,
      writeUInt16LE_eighths.
    cbv zeta.
    repeat match goal with
    | |- context [match writeUIntLE ?w ?b ?v ?o with _ => _ end] =>
        let E := fresh "E" in
        destruct (writeUIntLE w b v o) eqn:E;
        [apply writeUIntLE_Some_inv in E | discriminate]
    | |- context [match writeUIntLE_eighths ?w ?b ?v ?o with _ => _ end] =>
        let E := fresh "E" in
        destruct (writeUIntLE_eighths w b v o) eqn:E;
        [apply writeUIntLE_eighths_Some_inv in E | discriminate]
    end.
    intros _. unfold header_fields_in_range.
    change (2 ^ (8 * Z.of_nat 4))%Z with 4294967296%Z in *.
    change (2 ^ (8 * Z.of_nat 2))%Z with 65536%Z in *.
    lia.
  - intros H. rewrite addWavHeader_layout by assumption. eauto.
Qed.

End HeaderFields.

Section HeaderWitnesses.
Import Audio.

(** Twelve bits per sample at 24000 Hz, mono: the byte rate is 36000 and
    the block align, 1.5, is stored as 1. *)
Lemma addWavHeader_fields_witness :
  exists wav,
    addWavHeader [x01; x02; x03; x04] 24000 1 12 = Some wav
    /\ length wav = (44 + 4)%nat
    /\ Buffer_slice wav 0 4 = list_byte_of_string "RIFF"
    /\ readUInt32LE wav 4 = Some (36 + 4)%Z
    /\ Buffer_slice wav 8 16 = list_byte_of_string "WAVEfmt "
    /\ readUInt32LE wav 16 = Some 16%Z
    /\ readUInt16LE wav 20 = Some 1%Z
    /\ readUInt16LE wav 22 = Some 1%Z
    /\ readUInt32LE wav 24 = Some 24000%Z
    /\ readUInt32LE wav 28 = Some (24000 * 1 * 12 / 8)%Z
    /\ readUInt16LE wav 32 = Some (1 * 12 / 8)%Z
    /\ readUInt16LE wav 34 = Some 12%Z
    /\ Buffer_slice wav 36 40 = list_byte_of_string "data"
    /\ readUInt32LE wav 40 = Some 4%Z
    /\ drop 44 wav = [x01; x02; x03; x04].
Proof.
  apply (addWavHeader_fields [x01; x02; x03; x04] 24000 1 12).
  unfold header_fields_in_range. vm_compute. intuition discriminate.
Defined.

End HeaderWitnesses.

(** ** Validation and the codec *)

Section Validation.
Import Base64 Audio.

Lemma is_class_b64char (v : N) : (v < 64)%N -> is_class_char (b64char v) = true.
Proof.
  intros Hv.
  assert (H : all_below 64 (fun v => is_class_char (b64char v)) = true)
    by (vm_compute; reflexivity).
  exact (all_below_spec _ _ H v Hv).
Qed.

Lemma base64Regex_test_cons (c : ascii) (s : string) :
  is_class_char c = true ->
  base64Regex_test (String c s) = base64Regex_test s.
Proof. intros H. unfold base64Regex_test. simpl. now rewrite H. Qed.

Lemma base64Regex_test_encode (l : list byte) : base64Regex_test (encode l) = true.
Proof.
  induction l as [|a|a b|a b c l IH] using list_ind3.
  - reflexivity.
  - pose proof (byte_lt_256 a) as Ha.
    assert (H0 : (0 < N.of_nat 256)%N) by (simpl; lia).
    cbn [encode].
    rewrite base64Regex_test_cons
      by (apply is_class_b64char; now apply sextet1_lt).
    rewrite base64Regex_test_cons
      by (apply is_class_b64char; now apply sextet2_lt).
    reflexivity.
  - pose proof (byte_lt_256 a) as Ha. pose proof (byte_lt_256 b) as Hb.
    assert (H0 : (0 < N.of_nat 256)%N) by (simpl; lia).
    cbn [encode].
    rewrite base64Regex_test_cons
      by (apply is_class_b64char; now apply sextet1_lt).
    rewrite base64Regex_test_cons
      by (apply is_class_b64char; now apply sextet2_lt).
    rewrite base64Regex_test_cons
      by (apply is_class_b64char; now apply sextet3_lt).
    reflexivity.
  - pose proof (byte_lt_256 a) as Ha. pose proof (byte_lt_256 b) as Hb.
    pose proof (byte_lt_256 c) as Hc.
    cbn [encode].
    rewrite base64Regex_test_cons
      by (apply is_class_b64char; now apply sextet1_lt).
    rewrite base64Regex_test_cons
      by (apply is_class_b64char; now apply sextet2_lt).
    rewrite base64Regex_test_cons
      by (apply is_class_b64char; now apply sextet3_lt).
    rewrite base64Regex_test_cons
      by (apply is_class_b64char; now apply sextet4_lt).
    exact IH.
Qed.

Lemma length_encode_groups (l : list byte) :
  exists q, String.length (encode l) = (q * 4)%nat.
Proof.
  induction l as [|a|a b|a b c l [q IH]] using list_ind3.
  - now exists 0%nat.
  - now exists 1%nat.
  - now exists 1%nat.
  - exists (S q). cbn [encode String.length]. rewrite IH. lia.
Qed.

Lemma isValidBase64_encode (l : list byte) : isValidBase64 (encode l) = true.
Proof.
  unfold isValidBase64. rewrite base64Regex_test_encode.
  destruct (length_encode_groups l) as [q ->].
  now rewrite Nat.Div0.mod_mul.
Qed.

(** Whatever the two conversions return passes [isValidBase64], the check
    the audio route applies to its input. *)
Theorem codec_results_are_valid (x : string) (sampleRate : Z) :
  isValidBase64 (wavBase64ToPcm16Base64 x) = true
  /\ forall wav, pcm16ToWavBase64 x sampleRate = Some wav ->
                 isValidBase64 wav = true.
Proof.
  split.
  - apply isValidBase64_encode.
  - unfold pcm16ToWavBase64. intros wav.
    destruct (addWavHeader (decode x) sampleRate 1 16);
      [intros [= <-]; apply isValidBase64_encode | discriminate].
Qed.

(** The first 44 bytes are dropped whatever they hold: nothing of the
    header is inspected. *)
Theorem wav_header_not_inspected (header pcm : list byte) :
  length header = 44%nat ->
  wavBase64ToPcm16Base64 (encode (header ++ pcm)) = encode pcm.
Proof.
  intros Hlen. unfold wavBase64ToPcm16Base64. rewrite decode_encode.
  rewrite drop_app_length'; [reflexivity | now rewrite Hlen].
Qed.

(** An input that decodes to 44 bytes or fewer gives the empty string, not
    an error. *)
Theorem wav_shorter_than_header (wavBase64 : string) :
  (length (decode wavBase64) <= 44)%nat ->
  wavBase64ToPcm16Base64 wavBase64 = "".
Proof.
  intros Hlen. unfold wavBase64ToPcm16Base64.
  now rewrite drop_ge.
Qed.

End Validation.

Section ValidationWitnesses.
Import Base64 Audio.

(** The default format fits; a sample rate of 2^32 does not; nor do 43691
    channels of twelve bits, whose block align is 65536.5. *)
Lemma addWavHeader_returns_iff_witness :
  is_Some (addWavHeader [x01; x02] 24000 1 16)
  /\ ~ is_Some (addWavHeader [x01; x02] 4294967296 1 16)
  /\ ~ is_Some (addWavHeader [x01; x02] 1 43691 12).
Proof.
  split; [|split].
  - apply addWavHeader_returns_iff. unfold header_fields_in_range.
    vm_compute. intuition discriminate.
  - intros H. apply addWavHeader_returns_iff in H.
    destruct H as (_ & _ & [_ H] & _). vm_compute in H. now apply H.
  - intros H. apply addWavHeader_returns_iff in H.
    destruct H as (_ & _ & _ & _ & [_ H] & _). vm_compute in H. now apply H.
Defined.

Lemma codec_results_are_valid_witness :
  isValidBase64 (wavBase64ToPcm16Base64 "UklGRg") = true
  /\ isValidBase64 "UklGRiQAAABXQVZFZm10IBAAAAABAAEAwF0AAIC7AAACABAAZGF0YQAAAAA=" = true.
Proof.
  destruct (codec_results_are_valid "UklGRg" 24000) as [H1 _].
  destruct (codec_results_are_valid "" 24000) as [_ H2].
  split; [exact H1 | apply H2; vm_compute; reflexivity].
Defined.

Lemma wav_header_not_inspected_witness :
  wavBase64ToPcm16Base64 (encode (repeat x2a 44 ++ [x01; x02; x03]))
  = encode [x01; x02; x03].
Proof.
  apply (wav_header_not_inspected (repeat x2a 44) [x01; x02; x03]).
  vm_compute. reflexivity.
Defined.

Lemma wav_shorter_than_header_witness :
  wavBase64ToPcm16Base64 "UklGRg==" = "".
Proof.
  apply (wav_shorter_than_header "UklGRg=="). vm_compute. lia.
Defined.

End ValidationWitnesses.

Section ValidDecoding.
Import Base64 Audio.

Lemma class_char_decodes (c : ascii) :
  is_class_char c = true -> exists v, unbase64 c = Some v.
Proof.
  intros Hc.
  assert (H : all_below 256 (fun n =>
            implb (is_class_char (ascii_of_N n))
                  (match unbase64 (ascii_of_N n) with
                   | Some _ => true
                   | None => false
                   end)) = true) by (vm_compute; reflexivity).
  assert (Hlt : (N_of_ascii c < N.of_nat 256)%N)
    by (pose proof (N_ascii_bounded c); simpl; lia).
  pose proof (all_below_spec _ _ H _ Hlt) as Hn. cbv beta in Hn.
  rewrite ascii_N_embedding, Hc in Hn.
  destruct (unbase64 c) as [v|]; [eauto | discriminate Hn].
Qed.

Lemma list_ind4 {A : Type} (P : list A -> Prop) :
  P [] -> (forall a, P [a]) -> (forall a b, P [a; b]) -> (forall a b c, P [a; b; c]) ->
  (forall a b c d l, P l -> P (a :: b :: c :: d :: l)) ->
  forall l, P l.
Proof.
  intros H0 H1 H2 H3 H4 l.
  assert (H : P l /\ (forall a, P (a :: l)) /\ (forall a b, P (a :: b :: l))
              /\ (forall a b c, P (a :: b :: c :: l))).
  { induction l as [|x l (IH0 & IH1 & IH2 & IH3)]; repeat split; auto. }
  exact (proj1 H).
Qed.

(** Four sextets give three bytes; two or three left over give one or two
    bytes, a single left-over sextet gives none. *)
Lemma length_octets (l : list N) :
  length (octets l) = (3 * (length l / 4) + (length l mod 4 - 1))%nat.
Proof.
  induction l as [|a|a b|a b c|a b c d l IH] using list_ind4;
    try reflexivity.
  cbn [octets length]. rewrite IH.
  replace (S (S (S (S (length l))))) with (length l + 1 * 4)%nat by lia.
  rewrite Nat.div_add, Nat.Div0.mod_add by discriminate. lia.
Qed.

Lemma sextets_of_valid (s : string) :
  base64Regex_test s = true ->
  (length (sextets s) + String.length (skip_class s) = String.length s
   /\ String.length (skip_class s) <= 2)%nat.
Proof.
  induction s as [|c s IH].
  - intros _. simpl. lia.
  - destruct (is_class_char c) eqn:Hc.
    + rewrite base64Regex_test_cons by assumption. intros H.
      destruct (class_char_decodes c Hc) as [v Hv].
      rewrite (sextets_valid c s v Hv). cbn [skip_class]. rewrite Hc.
      destruct (IH H). simpl. lia.
    + unfold base64Regex_test. cbn [skip_class]. rewrite Hc.
      intros H. apply orb_prop in H as [H|H]; [apply orb_prop in H as [H|H]|];
        apply String.eqb_eq in H; try discriminate;
        injection H as -> ->; simpl; lia.
Qed.

(** For an input that [isValidBase64] accepts the decoder skips nothing:
    it returns three bytes for every four characters, less one byte per
    padding character. *)
Theorem valid_base64_decoded_length (s : string) :
  isValidBase64 s = true ->
  length (decode s) = (3 * (String.length s / 4) - String.length (skip_class s))%nat.
Proof.
  unfold isValidBase64. intros H. apply andb_prop in H as [Ht Hm].
  apply Nat.eqb_eq in Hm.
  destruct (sextets_of_valid s Ht) as [Hlen Hpad].
  unfold decode. rewrite length_octets.
  apply Nat.Div0.div_exact in Hm.
  set (q := (String.length s / 4)%nat) in *.
  set (p := String.length (skip_class s)) in *.
  assert (Hn : length (sextets s) = (4 * q - p)%nat) by lia.
  rewrite Hn.
  destruct p as [|[|[|p]]]; [| | |lia].
  - rewrite Nat.sub_0_r, (Nat.mul_comm 4 q), Nat.div_mul, Nat.Div0.mod_mul
      by discriminate. lia.
  - destruct q as [|q]; [lia|].
    replace (4 * S q - 1)%nat with (3 + q * 4)%nat by lia.
    rewrite Nat.div_add, Nat.Div0.mod_add by discriminate.
    change (3 / 4)%nat with 0%nat. change (3 mod 4)%nat with 3%nat. lia.
  - destruct q as [|q]; [lia|].
    replace (4 * S q - 2)%nat with (2 + q * 4)%nat by lia.
    rewrite Nat.div_add, Nat.Div0.mod_add by discriminate.
    change (2 / 4)%nat with 0%nat. change (2 mod 4)%nat with 2%nat. lia.
Qed.

End ValidDecoding.

Section ValidDecodingWitnesses.
Import Base64 Audio.

Lemma valid_base64_decoded_length_witness :
  length (decode "UklGRg==")
  = (3 * (String.length "UklGRg==" / 4) - String.length (skip_class "UklGRg=="))%nat.
Proof.
  apply (valid_base64_decoded_length "UklGRg=="). vm_compute. reflexivity.
Defined.

End ValidDecodingWitnesses.

(** ** Connecting *)

Section Connecting.
Import SessionManager.
Implicit Types (w : World) (c : Connection).

(** What a successful [createSession] call leaves behind. *)
Lemma createSession_inr w options uuid now c :
  snd (createSession w options uuid now) = inr c ->
  c = {| c_session := length (heap w);
         c_sessionId := or_string (opt_sessionId options) uuid;
         c_promise := length (promises w);
         c_voice := or_string (opt_voice options) (defaultVoice (config w));
         c_instructions :=
           or_string (opt_instructions options) (defaultInstructions (config w)) |}
  /\ promises (fst (createSession w options uuid now)) = promises w ++ [Unsettled]
  /\ timers (fst (createSession w options uuid now))
     = {[length (promises w)]} ∪ timers w
  /\ sessions (fst (createSession w options uuid now))
     = JSMap.set (or_string (opt_sessionId options) uuid) (length (heap w))
         (sessions w)
  /\ exists s, heap (fst (createSession w options uuid now)) = heap w ++ [s]
               /\ status s = status_connecting
               /\ ws_sent (ws s) = []
               /\ ws_terminated (ws s) = false
               /\ createdAt s = now
               /\ pendingResponses s = [].
Proof.
  unfold createSession.
  destruct ((0 <? maxSessions (config w))%Z
            && (maxSessions (config w) <=? Z.of_nat (JSMap.size (sessions w)))%Z);
    [discriminate|].
  cbn [fst snd]. intros [= <-]. repeat split. eexists. repeat split.
Qed.

(** If the connect timer fires, which it can only do while it is armed, the
    promise of [createSession] is rejected with the connect-timeout error,
    the transport is terminated and the id is no longer registered.  Once
    the transport has opened the timer is disarmed and never does this. *)
Theorem connect_timeout_discards (w : World) (options : CreateOptions)
    (uuid : string) (now : Z) (c : Connection) :
  snd (createSession w options uuid now) = inr c ->
  let w1 := fst (createSession w options uuid now) in
  let w2 := connectTimeout_fires w1 c in
  promise_at w2 (c_promise c) = Some (Rejected ConnectTimeout)
  /\ JSMap.get (c_sessionId c) (sessions w2) = None
  /\ getSession w2 (c_sessionId c) = None
  /\ ws_terminated ∘ ws <$> session_at w2 (c_session c) = Some true
  /\ connectTimeout_fires (ws_on_open w1 c) c = ws_on_open w1 c.
Proof.
  intros Hc. destruct (createSession_inr _ _ _ _ _ Hc)
    as (-> & Hp & Ht & Hs & s & Hh & Hst & Hsent & Hterm & Hcr & Hpend).
  cbv zeta. set (w1 := fst (createSession w options uuid now)) in *.
  cbn [c_promise c_sessionId c_session].
  assert (Harmed : bool_decide (length (promises w) ∈ timers w1) = true).
  { apply bool_decide_eq_true. rewrite Ht. apply elem_of_union. left.
    now apply elem_of_singleton. }
  assert (Hobj : heap w1 !! length (heap w) = Some s)
    by (rewrite Hh; now apply list_lookup_middle).
  assert (Hgone : JSMap.get (or_string (opt_sessionId options) uuid)
                    (sessions (connectTimeout_fires w1
                       {| c_session := length (heap w);
                          c_sessionId := or_string (opt_sessionId options) uuid;
                          c_promise := length (promises w);
                          c_voice := or_string (opt_voice options)
                                       (defaultVoice (config w));
                          c_instructions :=
                            or_string (opt_instructions options)
                              (defaultInstructions (config w)) |})) = None).
  { unfold connectTimeout_fires. cbn [c_promise c_sessionId c_session].
    rewrite Harmed, sessions_settle. simpl. apply get_delete_same. }
  split; [|split; [|split; [|split]]].
  - unfold connectTimeout_fires. cbn [c_promise c_sessionId c_session].
    rewrite Harmed, promise_at_settle.
    destruct (decide (length (promises w) = length (promises w))); [|congruence].
    unfold promise_at. simpl. rewrite Hp.
    now rewrite list_lookup_middle.
  - exact Hgone.
  - unfold getSession. now rewrite Hgone.
  - unfold connectTimeout_fires. cbn [c_promise c_sessionId c_session].
    rewrite Harmed. unfold session_at. rewrite heap_settle. simpl.
    rewrite list_lookup_alter_eq, Hobj. reflexivity.
  - unfold ws_on_open. cbn [c_promise c_sessionId c_session]. rewrite Hobj.
    unfold connectTimeout_fires. cbn [c_promise].
    rewrite timers_settle. simpl.
    rewrite bool_decide_eq_false_2; [reflexivity|].
    rewrite elem_of_difference, elem_of_singleton. tauto.
Qed.

(** When the transport opens, the promise of [createSession] is resolved
    with status [ready] and the values the session was created with, the
    session is [connected], and the configuration message, carrying the
    instructions and the voice, is the first and only message sent. *)
Theorem open_resolves_ready (w : World) (options : CreateOptions)
    (uuid : string) (now : Z) (c : Connection) :
  snd (createSession w options uuid now) = inr c ->
  let w2 := ws_on_open (fst (createSession w options uuid now)) c in
  promise_at w2 (c_promise c)
  = Some (Resolved (VSession
       {| si_session_id := or_string (opt_sessionId options) uuid;
          si_status := "ready";
          si_model := cfg_model (config w);
          si_voice := or_string (opt_voice options) (defaultVoice (config w));
          si_instructions_preview :=
            preview (or_string (opt_instructions options)
                       (defaultInstructions (config w)));
          si_created_at := now |}))
  /\ status_at w2 (c_session c) = Some status_connected
  /\ sent_at w2 (c_session c)
     = [session_update
          (or_string (opt_instructions options) (defaultInstructions (config w)))
          (or_string (opt_voice options) (defaultVoice (config w)))]
  /\ armed w2 (c_promise c) = false
  /\ JSMap.get (c_sessionId c) (sessions w2) = Some (c_session c).
Proof.
  intros Hc. destruct (createSession_inr _ _ _ _ _ Hc)
    as (-> & Hp & Ht & Hs & s & Hh & Hst & Hsent & Hterm & Hcr & Hpend).
  cbv zeta. set (w1 := fst (createSession w options uuid now)) in *.
  cbn [c_promise c_sessionId c_session].
  assert (Hobj : heap w1 !! length (heap w) = Some s)
    by (rewrite Hh; now apply list_lookup_middle).
  assert (Hcfg : config w1 = config w).
  { subst w1. unfold createSession. now repeat case_match. }
  unfold ws_on_open. cbn [c_promise c_sessionId c_session c_voice c_instructions].
  rewrite Hobj. split; [|split; [|split; [|split]]].
  - rewrite promise_at_settle.
    destruct (decide (length (promises w) = length (promises w))); [|congruence].
    unfold promise_at. simpl. rewrite Hp, list_lookup_middle by reflexivity.
    now rewrite Hcfg, Hcr.
  - unfold status_at. rewrite heap_settle. simpl.
    rewrite !list_lookup_alter_eq, Hobj. reflexivity.
  - unfold sent_at. rewrite heap_settle. simpl.
    rewrite !list_lookup_alter_eq, Hobj. simpl. now rewrite Hsent.
  - unfold armed. rewrite timers_settle. simpl.
    apply bool_decide_eq_false_2.
    rewrite elem_of_difference, elem_of_singleton. tauto.
  - rewrite sessions_settle. simpl. rewrite Hs. apply get_set_same.
Qed.

(** [createSession] followed by [closeSession] with the id it returned:
    [getSession] then answers [null], and the transport was terminated. *)
Theorem create_then_close (w : World) (options : CreateOptions)
    (uuid : string) (now : Z) (c : Connection) :
  snd (createSession w options uuid now) = inr c ->
  let w1 := fst (createSession w options uuid now) in
  let w2 := fst (closeSession w1 (c_sessionId c)) in
  snd (closeSession w1 (c_sessionId c)) = closed_ok (c_sessionId c)
  /\ getSession w2 (c_sessionId c) = None
  /\ ws_terminated ∘ ws <$> session_at w2 (c_session c) = Some true.
Proof.
  intros Hc. destruct (createSession_inr _ _ _ _ _ Hc)
    as (-> & Hp & Ht & Hs & s & Hh & Hst & Hsent & Hterm & Hcr & Hpend).
  cbv zeta. set (w1 := fst (createSession w options uuid now)) in *.
  cbn [c_promise c_sessionId c_session].
  assert (Hobj : session_at w1 (length (heap w)) = Some s)
    by (unfold session_at; rewrite Hh; now apply list_lookup_middle).
  assert (Hget : JSMap.get (or_string (opt_sessionId options) uuid) (sessions w1)
                 = Some (length (heap w)))
    by (rewrite Hs; apply get_set_same).
  unfold closeSession. rewrite Hget. cbn [fst snd].
  split; [reflexivity|]. split.
  - unfold getSession.
    match goal with
    | |- context [JSMap.get ?k (sessions ?x)] =>
        replace (JSMap.get k (sessions x)) with (@None nat)
    end; [reflexivity|].
    symmetry. apply get_delete_same.
  - change (ws_terminated ∘ ws
              <$> session_at (modify (length (heap w)) ws_terminate
                    (_rejectAllPending w1 (length (heap w)) ClosedManually))
                    (length (heap w)) = Some true).
    rewrite session_at_modify, decide_True by reflexivity.
    rewrite session_at__rejectAllPending, Hobj. reflexivity.
Qed.

End Connecting.

(** ** A request from the call to its answer *)

Section Exchange.
Import SessionManager Accumulation.
Implicit Types (w : World) (s : SessionState) (p : Pending).

Lemma update_last_snoc {V : Type} (f : V -> V) (m : JSMap.t V) k v :
  JSMap.update_last f (m ++ [(k, v)]) = m ++ [(k, f v)].
Proof.
  induction m as [|[k0 v0] m IH]; [reflexivity|].
  simpl. rewrite IH. destruct m; reflexivity.
Qed.

Lemma delete_snoc {V : Type} (m : JSMap.t V) k v :
  JSMap.get k m = None -> JSMap.delete k (m ++ [(k, v)]) = m.
Proof.
  induction m as [|[k0 v0] m IH]; simpl.
  - now rewrite String.eqb_refl.
  - destruct (String.eqb k0 k); [discriminate|]. intros H. now rewrite IH.
Qed.

Lemma get_snoc_absent {V : Type} (m : JSMap.t V) k v k' :
  k' <> k -> JSMap.get k' (m ++ [(k, v)]) = JSMap.get k' m.
Proof.
  intros Hne. induction m as [|[k0 v0] m IH]; simpl.
  - destruct (String.eqb_spec k k'); [congruence | reflexivity].
  - now rewrite IH.
Qed.

Lemma truthy_ne k : k <> "" -> truthy k = true.
Proof.
  intros Hk. unfold truthy. destruct (String.eqb_spec k ""); [contradiction|reflexivity].
Qed.

Lemma history_at_settle h o w l : history_at (settle h o w) l = history_at w l.
Proof. unfold history_at. now rewrite heap_settle. Qed.

Lemma history_at_unregister l k w l' :
  history_at (unregister l k w) l' = history_at w l'.
Proof. unfold unregister. now rewrite history_at_modify. Qed.

Lemma history_at_pending_reject p err w l :
  history_at (pending_reject p err w) l = history_at w l.
Proof. unfold pending_reject. now rewrite history_at_settle. Qed.

Lemma history_at_pending_resolve p data t w :
  is_Some (heap w !! p_session p) ->
  history_at (pending_resolve p data t w) (p_session p)
  = history_at w (p_session p) ++ [user_turn p data t; assistant_turn data t].
Proof.
  intros [s Hs]. unfold pending_resolve. rewrite history_at_settle.
  unfold history_at.
  change (heap (modify ?a ?f ?x) !! ?b) with (session_at (modify a f x) b).
  rewrite !session_at_modify, !decide_True by reflexivity.
  unfold session_at. cbn [heap clearTimeout set_timers]. rewrite Hs. simpl.
  now rewrite <- app_assoc.
Qed.

Lemma history_at_pending_resolve_other p data t w l :
  p_session p <> l ->
  history_at (pending_resolve p data t w) l = history_at w l.
Proof.
  intros Hne. unfold pending_resolve. rewrite history_at_settle.
  unfold history_at.
  change (heap (modify ?a ?f ?x) !! ?b) with (session_at (modify a f x) b).
  rewrite !session_at_modify, !decide_False by assumption. reflexivity.
Qed.

Lemma dispatch_error w session s p event t :
  heap w !! session = Some s ->
  _getLatestPending s = Some p ->
  type event = "error" ->
  _handleOpenAIEvent w session event t
  = let w' := pending_reject p (OpenAIError (error_message event)) w in
    match _getLatestPendingId s with
    | Some requestId => if truthy requestId then unregister session requestId w' else w'
    | None => w'
    end.
Proof.
  intros Hs Hp Ht. unfold _handleOpenAIEvent. rewrite Hs, Ht, Hp. reflexivity.
Qed.

(** The latest entry after any accumulating events. *)
Lemma latest_after_accumulating w session k p events :
  JSMap.last_entry (pending_at w session) = Some (k, p) ->
  exists s2,
    heap (modify session (mutate_latest (accumulate_all events)) w) !! session
    = Some s2
    /\ _getLatestPending s2 = Some (accumulate_all events p)
    /\ _getLatestPendingId s2 = Some k.
Proof.
  intros Hlast.
  set (w2 := modify session (mutate_latest (accumulate_all events)) w).
  assert (Hlast2 : JSMap.last_entry (pending_at w2 session)
                   = Some (k, accumulate_all events p)).
  { subst w2. rewrite pending_at_mutate_latest, last_update_last, Hlast.
    reflexivity. }
  destruct (heap w2 !! session) as [s2|] eqn:Hs2.
  2:{ unfold pending_at in Hlast2. rewrite Hs2 in Hlast2. discriminate. }
  exists s2. split; [reflexivity|].
  unfold pending_at in Hlast2. rewrite Hs2 in Hlast2.
  now apply latest_pending.
Qed.

(** Accumulating events and then the terminal event: the world. *)
Lemma done_after_accumulating w session k p events event t :
  JSMap.last_entry (pending_at w session) = Some (k, p) ->
  k <> "" ->
  Forall (fun e => ends_request (fst e) = false) events ->
  type event = "response.done" ->
  _handleOpenAIEvent (dispatch_all w session events) session event t
  = unregister session k
      (pending_resolve (accumulate_all events p)
         (buffer (accumulate_all events p)) t
         (modify session (mutate_latest (accumulate_all events)) w)).
Proof.
  intros Hlast Hk Hall Ht.
  rewrite dispatch_all_accumulates by assumption.
  destruct (latest_after_accumulating w session k p events Hlast)
    as (s2 & Hs2 & Hp2 & Hid2).
  rewrite (dispatch_done _ _ _ _ _ _ Hs2 Hp2 Ht). cbv zeta.
  now rewrite Hid2, truthy_ne.
Qed.

Lemma error_after_accumulating w session k p events event t :
  JSMap.last_entry (pending_at w session) = Some (k, p) ->
  k <> "" ->
  Forall (fun e => ends_request (fst e) = false) events ->
  type event = "error" ->
  _handleOpenAIEvent (dispatch_all w session events) session event t
  = unregister session k
      (pending_reject (accumulate_all events p)
         (OpenAIError (error_message event))
         (modify session (mutate_latest (accumulate_all events)) w)).
Proof.
  intros Hlast Hk Hall Ht.
  rewrite dispatch_all_accumulates by assumption.
  destruct (latest_after_accumulating w session k p events Hlast)
    as (s2 & Hs2 & Hp2 & Hid2).
  rewrite (dispatch_error _ _ _ _ _ _ Hs2 Hp2 Ht). cbv zeta.
  now rewrite Hid2, truthy_ne.
Qed.

(** *** What the two calls leave behind *)

Lemma conversationHistory_ws_send_all ms s :
  conversationHistory (ws_send_all ms s) = conversationHistory s.
Proof.
  unfold ws_send_all. revert s.
  induction ms as [|m ms IH]; intros s; simpl; [reflexivity|]. now rewrite IH.
Qed.

Lemma ws_sent_ws_send_all ms s :
  ws_sent (ws (ws_send_all ms s)) = ws_sent (ws s) ++ ms.
Proof.
  unfold ws_send_all. revert s.
  induction ms as [|m ms IH]; intros s; simpl; [now rewrite app_nil_r|].
  rewrite IH. simpl. now rewrite <- app_assoc.
Qed.

Lemma sendText_Registered w sessionId text options uuid now session :
  _getSession w sessionId = inr session ->
  transport_open w sessionId = true ->
  Registered w (fst (sendText w sessionId text options uuid now)) session uuid
    (text_entry session sessionId text options uuid now (length (promises w))).
Proof.
  intros Hs Hopen. destruct (_getSession_inr _ _ _ Hs) as (Hget & s & Hheap & _).
  rewrite (sendText_unfold _ _ _ _ _ _ _ Hs Hopen). cbn [fst].
  split; try reflexivity.
  - intros Hfresh. rewrite !pending_at_modify_frame by reflexivity.
    rewrite pending_at_register
      by (simpl; apply (is_Some_heap_modify session session); eauto).
    change (pending_at (setTimeout ?h (set_promises ?ps ?x)) session)
      with (pending_at x session).
    rewrite pending_at_modify_frame by reflexivity.
    now apply set_absent.
  - intros l. rewrite !history_at_modify by reflexivity.
    unfold register. rewrite history_at_modify by reflexivity.
    change (history_at (setTimeout ?h (set_promises ?ps ?x)) l)
      with (history_at x l).
    now rewrite history_at_modify.
  - rewrite !is_Some_heap_modify. unfold register. rewrite is_Some_heap_modify.
    simpl. apply (is_Some_heap_modify session session). eauto.
Qed.

Lemma sendAudio_Registered w sessionId audio options uuid now session :
  _getSession w sessionId = inr session ->
  transport_open w sessionId = true ->
  Registered w (fst (sendAudio w sessionId audio options uuid now)) session uuid
    (audio_entry session sessionId options uuid now (length (promises w))).
Proof.
  intros Hs Hopen. destruct (_getSession_inr _ _ _ Hs) as (Hget & s & Hheap & _).
  rewrite (sendAudio_unfold _ _ _ _ _ _ _ Hs Hopen). cbn [fst].
  split; try reflexivity.
  - intros Hfresh.
    rewrite !pending_at_modify_frame
      by (try reflexivity; apply pendingResponses_ws_send_all).
    rewrite pending_at_register
      by (simpl; apply (is_Some_heap_modify session session); eauto).
    change (pending_at (setTimeout ?h (set_promises ?ps ?x)) session)
      with (pending_at x session).
    rewrite pending_at_modify_frame by reflexivity.
    now apply set_absent.
  - intros l.
    rewrite !history_at_modify
      by (try reflexivity; apply conversationHistory_ws_send_all).
    unfold register. rewrite history_at_modify by reflexivity.
    change (history_at (setTimeout ?h (set_promises ?ps ?x)) l)
      with (history_at x l).
    now rewrite history_at_modify.
  - rewrite !is_Some_heap_modify. unfold register. rewrite is_Some_heap_modify.
    simpl. apply (is_Some_heap_modify session session). eauto.
Qed.

End Exchange.

Section Answers.
Import SessionManager Accumulation.
Implicit Types (w : World) (s : SessionState) (p : Pending).

Lemma heap_pending_resolve_is_Some p data t w l :
  is_Some (heap (pending_resolve p data t w) !! l) <-> is_Some (heap w !! l).
Proof.
  unfold pending_resolve. rewrite heap_settle, !is_Some_heap_modify. reflexivity.
Qed.

Lemma timers_pending_resolve p data t w :
  timers (pending_resolve p data t w) = timers w ∖ {[p_promise p]}.
Proof. unfold pending_resolve. now rewrite timers_settle. Qed.

Lemma timers_pending_reject p err w :
  timers (pending_reject p err w) = timers w ∖ {[p_promise p]}.
Proof. unfold pending_reject. now rewrite timers_settle. Qed.

Lemma promise_at_pending_resolve_ne p data t w h :
  h <> p_promise p -> promise_at (pending_resolve p data t w) h = promise_at w h.
Proof.
  intros Hne. unfold pending_resolve. rewrite promise_at_settle_ne by congruence.
  reflexivity.
Qed.

Lemma promise_at_pending_reject_ne p err w h :
  h <> p_promise p -> promise_at (pending_reject p err w) h = promise_at w h.
Proof.
  intros Hne. unfold pending_reject. rewrite promise_at_settle_ne by congruence.
  reflexivity.
Qed.

Lemma promise_at_pending_reject p err w :
  promise_at w (p_promise p) = Some Unsettled ->
  promise_at (pending_reject p err w) (p_promise p) = Some (Rejected err).
Proof.
  intros H. unfold pending_reject. rewrite promise_at_settle, decide_True by reflexivity.
  change (promise_at (clearTimeout ?h ?x)) with (promise_at x).
  now rewrite H.
Qed.

Lemma user_turn_closure p q data t :
  p_kind q = p_kind p -> user_turn q data t = user_turn p data t.
Proof. intros H. unfold user_turn. now rewrite H. Qed.

Lemma last_entry_snoc {V : Type} (m : JSMap.t V) e :
  JSMap.last_entry (m ++ [e]) = Some e.
Proof. apply last_snoc. Qed.

(** The latest pending request, answered: after any accumulating events
    and the terminal event its promise is resolved with the accumulated
    buffer, the two turns of the exchange are appended to the history of
    its session, its entry is gone and its timer disarmed; other promises,
    other sessions and the other entries of the session are untouched. *)
Lemma exchange_resolved w session m k p events event t :
  pending_at w session = m ++ [(k, p)] ->
  JSMap.get k m = None ->
  k <> "" ->
  p_session p = session ->
  promise_at w (p_promise p) = Some Unsettled ->
  Forall (fun e => ends_request (fst e) = false) events ->
  type event = "response.done" ->
  let data := buffer (accumulate_all events p) in
  let w3 := _handleOpenAIEvent (dispatch_all w session events) session event t in
  promise_at w3 (p_promise p) = Some (Resolved (VResult (make_result p data t)))
  /\ history_at w3 session
     = history_at w session ++ [user_turn p data t; assistant_turn data t]
  /\ pending_at w3 session = m
  /\ armed w3 (p_promise p) = false
  /\ (forall h, h <> p_promise p -> promise_at w3 h = promise_at w h)
  /\ (forall l, l <> session ->
        pending_at w3 l = pending_at w l /\ history_at w3 l = history_at w l).
Proof.
  intros Hpend Hfresh Hk Hsess Hun Hall Ht. cbv zeta.
  assert (Hlast : JSMap.last_entry (pending_at w session) = Some (k, p))
    by (rewrite Hpend; apply last_entry_snoc).
  rewrite (done_after_accumulating _ _ _ _ _ _ _ Hlast Hk Hall Ht).
  destruct (accumulate_all_closure events p)
    as (Hkind & Hs' & Hsid & Hrid & Hopt & Hst & Hh & _ & _).
  set (p' := accumulate_all events p) in *.
  set (w2 := modify session (mutate_latest (accumulate_all events)) w).
  assert (Hheap2 : is_Some (heap w2 !! session)).
  { subst w2. apply is_Some_heap_modify. unfold pending_at in Hpend.
    destruct (heap w !! session); [eauto | now destruct m]. }
  split; [|split; [|split; [|split; [|split]]]].
  - rewrite promise_at_unregister, <- Hh, promise_at_pending_resolve.
    + now rewrite (make_result_closure p).
    + rewrite Hh. exact Hun.
  - rewrite history_at_unregister. rewrite <- Hsess at 1. rewrite <- Hs'.
    rewrite history_at_pending_resolve by (rewrite Hs', Hsess; exact Hheap2).
    rewrite Hs', Hsess. subst w2. rewrite history_at_modify by reflexivity.
    now rewrite (user_turn_closure p).
  - rewrite pending_at_unregister, pending_at_pending_resolve.
    subst w2. rewrite pending_at_mutate_latest, Hpend, update_last_snoc.
    now apply delete_snoc.
  - unfold armed. apply bool_decide_eq_false_2.
    change (timers (unregister ?l ?k0 ?x)) with (timers x).
    rewrite timers_pending_resolve, Hh, elem_of_difference, elem_of_singleton.
    tauto.
  - intros h Hne. rewrite promise_at_unregister.
    rewrite promise_at_pending_resolve_ne by (rewrite Hh; exact Hne).
    reflexivity.
  - intros l Hne. split.
    + rewrite pending_at_unregister_other by congruence.
      rewrite pending_at_pending_resolve. subst w2.
      rewrite pending_at_modify, decide_False by congruence. reflexivity.
    + rewrite history_at_unregister.
      rewrite history_at_pending_resolve_other by (rewrite Hs', Hsess; congruence).
      subst w2. now rewrite history_at_modify.
Qed.

(** The same request, answered by the error event instead. *)
Lemma exchange_rejected w session m k p events event t :
  pending_at w session = m ++ [(k, p)] ->
  JSMap.get k m = None ->
  k <> "" ->
  promise_at w (p_promise p) = Some Unsettled ->
  Forall (fun e => ends_request (fst e) = false) events ->
  type event = "error" ->
  let w3 := _handleOpenAIEvent (dispatch_all w session events) session event t in
  promise_at w3 (p_promise p)
  = Some (Rejected (OpenAIError (error_message event)))
  /\ (forall l, history_at w3 l = history_at w l)
  /\ pending_at w3 session = m
  /\ armed w3 (p_promise p) = false
  /\ (forall h, h <> p_promise p -> promise_at w3 h = promise_at w h).
Proof.
  intros Hpend Hfresh Hk Hun Hall Ht. cbv zeta.
  assert (Hlast : JSMap.last_entry (pending_at w session) = Some (k, p))
    by (rewrite Hpend; apply last_entry_snoc).
  rewrite (error_after_accumulating _ _ _ _ _ _ _ Hlast Hk Hall Ht).
  destruct (accumulate_all_closure events p)
    as (Hkind & Hs' & Hsid & Hrid & Hopt & Hst & Hh & _ & _).
  set (p' := accumulate_all events p) in *.
  set (w2 := modify session (mutate_latest (accumulate_all events)) w).
  split; [|split; [|split; [|split]]].
  - rewrite promise_at_unregister, <- Hh, promise_at_pending_reject; [reflexivity|].
    rewrite Hh. exact Hun.
  - intros l. rewrite history_at_unregister, history_at_pending_reject.
    subst w2. now rewrite history_at_modify.
  - rewrite pending_at_unregister, pending_at_pending_reject.
    subst w2. rewrite pending_at_mutate_latest, Hpend, update_last_snoc.
    now apply delete_snoc.
  - unfold armed. apply bool_decide_eq_false_2.
    change (timers (unregister ?l ?k0 ?x)) with (timers x).
    rewrite timers_pending_reject, Hh, elem_of_difference, elem_of_singleton.
    tauto.
  - intros h Hne. rewrite promise_at_unregister.
    rewrite promise_at_pending_reject_ne by (rewrite Hh; exact Hne).
    reflexivity.
Qed.

(** *** Text accumulated *)

Lemma string_append_assoc (a b c : string) :
  String.append (String.append a b) c = String.append a (String.append b c).
Proof.
  induction a as [|x a IH]; [reflexivity|].
  change (String x (String.append (String.append a b) c)
          = String x (String.append a (String.append b c))).
  now rewrite IH.
Qed.

Lemma string_append_nil_r (a : string) : String.append a "" = a.
Proof.
  induction a as [|x a IH]; [reflexivity|].
  change (String x (String.append a "") = String x a). now rewrite IH.
Qed.

Lemma concat_empty_cons x l :
  String.concat "" (x :: l) = String.append x (String.concat "" l).
Proof.
  destruct l as [|y l]; [|reflexivity].
  change (x = String.append x ""). now rewrite string_append_nil_r.
Qed.

Lemma textDelta_accumulate event p :
  is_transcript_delta event = false ->
  textDelta (buffer (accumulate event p))
  = String.append (textDelta (buffer p))
      (if is_text_delta event then or_string (delta event) "" else "").
Proof.
  unfold is_transcript_delta, is_text_delta, accumulate. intros ->.
  repeat case_match; simpl; now rewrite ?string_append_nil_r.
Qed.

(** Without transcript deltas in the stream, the response text is the
    text deltas joined in arrival order. *)
Lemma textDelta_accumulate_all events p :
  Forall (fun e => is_transcript_delta (fst e) = false) events ->
  textDelta (buffer (accumulate_all events p))
  = String.append (textDelta (buffer p)) (String.concat "" (text_payloads events)).
Proof.
  intros Hall. revert p.
  induction Hall as [|e events He _ IH]; intros p.
  - simpl. now rewrite string_append_nil_r.
  - change (accumulate_all (e :: events) p)
      with (accumulate_all events (accumulate (fst e) p)).
    rewrite IH, textDelta_accumulate by assumption.
    rewrite string_append_assoc. f_equal.
    unfold text_payloads at 2. cbn [flat_map]. fold (text_payloads events).
    destruct (is_text_delta (fst e)); [|reflexivity].
    cbn [app]. now rewrite concat_empty_cons.
Qed.

(** A text request from the call to its answer.  [sendText] on a session
    whose transport is open, then text-delta, audio-delta and informational
    events in any order, then the terminal event at time [t]: the promise
    of the call is resolved; the response text is the text deltas joined in
    arrival order, the duration is [t] minus the time of the call, the
    result carries the ids of the session and the request and no input
    transcript; the history of the session has gained the user turn with
    the text sent and the assistant turn with the response text, both
    stamped [t]; the pending table is as before the call and the timer is
    disarmed. *)
Theorem text_request_answered (w : World) (sessionId text : string)
    (options : SendOptions) (uuid : string) (now : Z) (session : nat)
    (events : list (Event * Z)) (event : Event) (t : Z) :
  _getSession w sessionId = inr session ->
  transport_open w sessionId = true ->
  JSMap.get uuid (pending_at w session) = None ->
  uuid <> "" ->
  Forall (fun e => ends_request (fst e) = false
                   /\ is_transcript_delta (fst e) = false) events ->
  type event = "response.done" ->
  let w1 := fst (sendText w sessionId text options uuid now) in
  let w3 := _handleOpenAIEvent (dispatch_all w1 session events) session event t in
  let answer := String.concat "" (text_payloads events) in
  (exists r,
     promise_at w3 (length (promises w)) = Some (Resolved (VResult r))
     /\ response_text r = answer
     /\ input_transcript r = None
     /\ duration_ms r = (t - now)%Z
     /\ session_id r = sessionId
     /\ request_id r = uuid)
  /\ (exists has_audio,
        history_at w3 session
        = history_at w session
          ++ [ {| role := role_user; content := text; timestamp := t;
                  content_type := None; has_audio := None |};
               {| role := role_assistant; content := answer; timestamp := t;
                  content_type := None; has_audio := Some has_audio |} ])
  /\ pending_at w3 session = pending_at w session
  /\ armed w3 (length (promises w)) = false.
Proof.
  intros Hs Hopen Hfresh Hk Hall Ht. cbv zeta.
  pose proof (sendText_Registered w sessionId text options uuid now session Hs Hopen)
    as [Hpend Hprom Htim Hhist Hheap _ _].
  set (w1 := fst (sendText w sessionId text options uuid now)) in *.
  set (p0 := text_entry session sessionId text options uuid now
               (length (promises w))) in *.
  assert (Hun : promise_at w1 (p_promise p0) = Some Unsettled).
  { unfold promise_at. rewrite Hprom. now apply list_lookup_middle. }
  assert (Hends : Forall (fun e => ends_request (fst e) = false) events)
    by (eapply Forall_impl; [exact Hall | now intros e [H _]]).
  assert (Htr : Forall (fun e => is_transcript_delta (fst e) = false) events)
    by (eapply Forall_impl; [exact Hall | now intros e [_ H]]).
  destruct (exchange_resolved w1 session (pending_at w session) uuid p0
              events event t (Hpend Hfresh) Hfresh Hk eq_refl Hun Hends Ht)
    as (Hres & Hh & Hp & Harm & _).
  pose proof (textDelta_accumulate_all events p0 Htr) as Htext.
  change (textDelta (buffer p0)) with "" in Htext.
  change (String.append "" ?x) with x in Htext.
  split; [|split; [|split]].
  - eexists. split; [exact Hres|]. repeat split. exact Htext.
  - eexists. rewrite Hh, Hhist. unfold user_turn, assistant_turn.
    cbn [p_kind p0 text_entry]. now rewrite Htext.
  - exact Hp.
  - exact Harm.
Qed.

(** The error event instead of the terminal event: the call is rejected
    with the message of the event, or with the fallback message when the
    event carries none; the exchange leaves no trace in the history, the
    pending table is as before the call and the timer is disarmed. *)
Theorem text_request_refused (w : World) (sessionId text : string)
    (options : SendOptions) (uuid : string) (now : Z) (session : nat)
    (events : list (Event * Z)) (event : Event) (t : Z) :
  _getSession w sessionId = inr session ->
  transport_open w sessionId = true ->
  JSMap.get uuid (pending_at w session) = None ->
  uuid <> "" ->
  Forall (fun e => ends_request (fst e) = false) events ->
  type event = "error" ->
  let w1 := fst (sendText w sessionId text options uuid now) in
  let w3 := _handleOpenAIEvent (dispatch_all w1 session events) session event t in
  promise_at w3 (length (promises w))
  = Some (Rejected (OpenAIError
       match error event with
       | Some {| message := Some m |} =>
           if String.eqb m "" then "Error desconocido de OpenAI" else m
       | _ => "Error desconocido de OpenAI"
       end))
  /\ history_at w3 session = history_at w session
  /\ pending_at w3 session = pending_at w session
  /\ armed w3 (length (promises w)) = false.
Proof.
  intros Hs Hopen Hfresh Hk Hall Ht. cbv zeta.
  pose proof (sendText_Registered w sessionId text options uuid now session Hs Hopen)
    as [Hpend Hprom Htim Hhist Hheap _ _].
  set (w1 := fst (sendText w sessionId text options uuid now)) in *.
  set (p0 := text_entry session sessionId text options uuid now
               (length (promises w))) in *.
  assert (Hun : promise_at w1 (p_promise p0) = Some Unsettled).
  { unfold promise_at. rewrite Hprom. now apply list_lookup_middle. }
  destruct (exchange_rejected w1 session (pending_at w session) uuid p0
              events event t (Hpend Hfresh) Hfresh Hk Hun Hall Ht)
    as (Hres & Hh & Hp & Harm & _).
  split; [|split; [|split]].
  - etransitivity; [exact Hres|]. unfold error_message.
    destruct (error event) as [[[m|]]|]; reflexivity.
  - now rewrite Hh, Hhist.
  - exact Hp.
  - exact Harm.
Qed.

End Answers.

Section InFlight.
Import SessionManager Accumulation.
Implicit Types (w : World) (s : SessionState) (p : Pending).

Lemma _getSession_modify l (f : SessionState -> SessionState) w sessionId :
  (forall s, status (f s) = status s) ->
  _getSession (modify l f w) sessionId = _getSession w sessionId.
Proof.
  intros Hf. unfold _getSession. cbn [sessions modify set_heap].
  destruct (JSMap.get sessionId (sessions w)) as [l'|]; [|reflexivity].
  change (heap (modify l f w) !! l') with (session_at (modify l f w) l').
  change (alter f l (heap w) !! l') with (session_at (modify l f w) l').
  rewrite session_at_modify. unfold session_at.
  destruct (decide (l = l')) as [->|]; [|reflexivity].
  destruct (heap w !! l') as [s|]; [|reflexivity]. simpl. now rewrite Hf.
Qed.

Lemma _getSession_settle h o w sessionId :
  _getSession (settle h o w) sessionId = _getSession w sessionId.
Proof. unfold _getSession. now rewrite sessions_settle, heap_settle. Qed.

Lemma transport_open_modify l (f : SessionState -> SessionState) w sessionId :
  (forall s, status (f s) = status s) ->
  transport_open (modify l f w) sessionId = transport_open w sessionId.
Proof.
  intros Hf. unfold transport_open. rewrite _getSession_modify by assumption.
  destruct (_getSession w sessionId) as [e|l']; [reflexivity|].
  change (heap (modify l f w) !! l') with (session_at (modify l f w) l').
  rewrite session_at_modify. unfold session_at.
  destruct (decide (l = l')) as [->|]; [|reflexivity].
  destruct (heap w !! l') as [s|]; [|reflexivity]. simpl. now rewrite Hf.
Qed.

Lemma transport_open_settle h o w sessionId :
  transport_open (settle h o w) sessionId = transport_open w sessionId.
Proof. unfold transport_open. now rewrite _getSession_settle, heap_settle. Qed.

Lemma _getSession_sendText w sessionId text options uuid now sessionId' :
  _getSession (fst (sendText w sessionId text options uuid now)) sessionId'
  = _getSession w sessionId'.
Proof.
  destruct (_getSession w sessionId) as [e|session] eqn:Hs.
  - unfold sendText. now rewrite Hs.
  - rewrite (sendText_cases _ _ _ _ _ _ _ Hs). cbv zeta.
    destruct (transport_open w sessionId); cbn [fst];
      rewrite ?_getSession_settle, ?_getSession_modify by reflexivity;
      unfold register; rewrite _getSession_modify by reflexivity;
      change (_getSession (setTimeout ?h (set_promises ?ps ?x)) sessionId')
        with (_getSession x sessionId');
      now rewrite _getSession_modify.
Qed.

Lemma transport_open_sendText w sessionId text options uuid now sessionId' :
  transport_open (fst (sendText w sessionId text options uuid now)) sessionId'
  = transport_open w sessionId'.
Proof.
  destruct (_getSession w sessionId) as [e|session] eqn:Hs.
  - unfold sendText. now rewrite Hs.
  - rewrite (sendText_cases _ _ _ _ _ _ _ Hs). cbv zeta.
    destruct (transport_open w sessionId); cbn [fst];
      rewrite ?transport_open_settle, ?transport_open_modify by reflexivity;
      unfold register; rewrite transport_open_modify by reflexivity;
      change (transport_open (setTimeout ?h (set_promises ?ps ?x)) sessionId')
        with (transport_open x sessionId');
      now rewrite transport_open_modify.
Qed.

(** Inbound events are attributed by position, not by id.  With two text
    requests in flight on one session, the events that arrive next, and
    the terminal event, go to the request made last: it is resolved with
    the text that arrived, while the request made first stays pending and
    unsettled.  The next terminal event then resolves the first request
    with an empty response text. *)
Theorem answer_goes_to_latest (w : World) (sessionId text1 text2 : string)
    (options1 options2 : SendOptions) (uuid1 uuid2 : string) (now1 now2 : Z)
    (session : nat) (events : list (Event * Z)) (event event' : Event) (t t' : Z) :
  _getSession w sessionId = inr session ->
  transport_open w sessionId = true ->
  JSMap.get uuid1 (pending_at w session) = None ->
  JSMap.get uuid2 (pending_at w session) = None ->
  uuid1 <> "" -> uuid2 <> "" -> uuid1 <> uuid2 ->
  Forall (fun e => ends_request (fst e) = false
                   /\ is_transcript_delta (fst e) = false) events ->
  type event = "response.done" ->
  type event' = "response.done" ->
  let w1 := fst (sendText w sessionId text1 options1 uuid1 now1) in
  let w2 := fst (sendText w1 sessionId text2 options2 uuid2 now2) in
  let w3 := _handleOpenAIEvent (dispatch_all w2 session events) session event t in
  let w4 := _handleOpenAIEvent w3 session event' t' in
  (exists r2,
     promise_at w3 (length (promises w) + 1) = Some (Resolved (VResult r2))
     /\ request_id r2 = uuid2
     /\ response_text r2 = String.concat "" (text_payloads events))
  /\ promise_at w3 (length (promises w)) = Some Unsettled
  /\ is_Some (JSMap.get uuid1 (pending_at w3 session))
  /\ (exists r1,
        promise_at w4 (length (promises w)) = Some (Resolved (VResult r1))
        /\ request_id r1 = uuid1
        /\ response_text r1 = "").
Proof.
  intros Hs Hopen Hf1 Hf2 Hk1 Hk2 Hne Hall Ht Ht'. cbv zeta.
  pose proof (sendText_Registered w sessionId text1 options1 uuid1 now1 session Hs Hopen)
    as [Hpend1 Hprom1 _ _ _ _ _].
  set (w1 := fst (sendText w sessionId text1 options1 uuid1 now1)) in *.
  set (p1 := text_entry session sessionId text1 options1 uuid1 now1
               (length (promises w))) in *.
  specialize (Hpend1 Hf1).
  assert (Hs1 : _getSession w1 sessionId = inr session)
    by (subst w1; now rewrite _getSession_sendText).
  assert (Hf2' : JSMap.get uuid2 (pending_at w1 session) = None)
    by (rewrite Hpend1, get_snoc_absent by congruence; exact Hf2).
  assert (Hopen1 : transport_open w1 sessionId = true)
    by (subst w1; now rewrite transport_open_sendText).
  pose proof (sendText_Registered w1 sessionId text2 options2 uuid2 now2 session
                Hs1 Hopen1)
    as [Hpend2 Hprom2 _ _ _ _ _].
  set (w2 := fst (sendText w1 sessionId text2 options2 uuid2 now2)) in *.
  assert (Hlen : length (promises w1) = length (promises w) + 1)
    by (rewrite Hprom1, length_app; reflexivity).
  rewrite Hlen in Hpend2.
  set (p2 := text_entry session sessionId text2 options2 uuid2 now2
               (length (promises w) + 1)) in *.
  specialize (Hpend2 Hf2').
  assert (Hun2 : promise_at w2 (p_promise p2) = Some Unsettled).
  { unfold promise_at. rewrite Hprom2. cbn [p_promise p2 text_entry].
    rewrite <- Hlen. now apply list_lookup_middle. }
  assert (Hun1 : promise_at w2 (p_promise p1) = Some Unsettled).
  { unfold promise_at. rewrite Hprom2, Hprom1. cbn [p_promise p1 text_entry].
    rewrite lookup_app_l by (rewrite length_app; simpl; lia).
    now apply list_lookup_middle. }
  assert (Hends : Forall (fun e => ends_request (fst e) = false) events)
    by (eapply Forall_impl; [exact Hall | now intros e [H _]]).
  assert (Htr : Forall (fun e => is_transcript_delta (fst e) = false) events)
    by (eapply Forall_impl; [exact Hall | now intros e [_ H]]).
  destruct (exchange_resolved w2 session (pending_at w1 session) uuid2 p2
              events event t Hpend2 Hf2' Hk2 eq_refl Hun2 Hends Ht)
    as (Hres2 & _ & Hp3 & _ & Hother & _).
  set (w3 := _handleOpenAIEvent (dispatch_all w2 session events) session event t) in *.
  assert (Hun3 : promise_at w3 (p_promise p1) = Some Unsettled).
  { rewrite Hother; [exact Hun1|]. cbn [p_promise p1 p2 text_entry]. lia. }
  rewrite Hpend1 in Hp3.
  destruct (exchange_resolved w3 session (pending_at w session) uuid1 p1
              [] event' t' Hp3 Hf1 Hk1 eq_refl Hun3 (List.Forall_nil _) Ht')
    as (Hres1 & _).
  split; [|split; [|split]].
  - eexists. split; [exact Hres2|]. split; [reflexivity|].
    pose proof (textDelta_accumulate_all events p2 Htr) as Htext.
    exact Htext.
  - exact Hun3.
  - rewrite Hp3. clear. induction (pending_at w session) as [|[k0 v0] m IH]; simpl.
    + rewrite String.eqb_refl. eauto.
    + destruct (String.eqb k0 uuid1); eauto.
  - eexists. split; [exact Hres1|]. split; reflexivity.
Qed.

(** *** Audio requests *)

Lemma inputTranscript_accumulate event p :
  isAudioInput p = true ->
  inputTranscript (buffer (accumulate event p))
  = if is_transcription event then or_string (transcript event) ""
    else inputTranscript (buffer p).
Proof.
  intros Ha. destruct (is_transcription event) eqn:Hev.
  - unfold is_transcription, one_of in Hev. simpl in Hev.
    rewrite orb_false_r in Hev. apply String.eqb_eq in Hev.
    unfold accumulate. rewrite Hev, Ha. reflexivity.
  - unfold accumulate. unfold is_transcription in Hev. rewrite Hev.
    repeat case_match; reflexivity.
Qed.

Lemma last_cons_default {A : Type} (x d : A) (l : list A) :
  default d (last (x :: l)) = default x (last l).
Proof.
  revert x d. induction l as [|y l IH]; intros x d; [reflexivity|].
  change (last (x :: y :: l)) with (last (y :: l)).
  now rewrite (IH y d), (IH y x).
Qed.

(** The input transcript of an audio request is the one of the last
    transcription event. *)
Lemma inputTranscript_accumulate_all events p :
  isAudioInput p = true ->
  inputTranscript (buffer (accumulate_all events p))
  = default (inputTranscript (buffer p)) (last (transcriptions events)).
Proof.
  revert p. induction events as [|[event t] events IH]; intros p Ha.
  - reflexivity.
  - change (accumulate_all ((event, t) :: events) p)
      with (accumulate_all events (accumulate event p)).
    rewrite IH
      by (destruct (accumulate_closure event p) as (_&_&_&_&_&_&_&_&->); exact Ha).
    rewrite inputTranscript_accumulate by assumption.
    unfold transcriptions at 2. cbn [flat_map fst]. fold (transcriptions events).
    destruct (is_transcription event); [|reflexivity].
    cbn [app]. now rewrite last_cons_default.
Qed.

(** An audio request from the call to its answer.  The result carries, as
    input transcript, the transcript of the last transcription event that
    arrived, the empty string if none did; the user turn recorded in the
    history is that transcript, marked as audio, or the placeholder
    [[audio]] when it is empty; with [returnAudio] omitted the result has
    the audio chunks joined in arrival order whenever one arrived. *)
Theorem audio_request_answered (w : World) (sessionId audio : string)
    (uuid : string) (now : Z) (session : nat)
    (events : list (Event * Z)) (event : Event) (t : Z) :
  _getSession w sessionId = inr session ->
  transport_open w sessionId = true ->
  JSMap.get uuid (pending_at w session) = None ->
  uuid <> "" ->
  Forall (fun e => ends_request (fst e) = false) events ->
  type event = "response.done" ->
  let w1 := fst (sendAudio w sessionId audio {| opt_returnAudio := None |} uuid now) in
  let w3 := _handleOpenAIEvent (dispatch_all w1 session events) session event t in
  let said := default "" (last (transcriptions events)) in
  (exists r,
     promise_at w3 (length (promises w)) = Some (Resolved (VResult r))
     /\ input_transcript r = Some said
     /\ duration_ms r = (t - now)%Z
     /\ request_id r = uuid
     /\ audio_base64 r
        = match audio_payloads events with
          | [] => None
          | chunks => Some (String.concat "" chunks)
          end)
  /\ (exists answer,
        history_at w3 session
        = history_at w session
          ++ [ {| role := role_user;
                  content := if String.eqb said "" then "[audio]" else said;
                  timestamp := t;
                  content_type := Some "audio"; has_audio := None |};
               {| role := role_assistant; content := answer; timestamp := t;
                  content_type := None;
                  has_audio := Some (0 <? length (audio_payloads events))%nat |} ])
  /\ pending_at w3 session = pending_at w session.
Proof.
  intros Hs Hopen Hfresh Hk Hall Ht. cbv zeta.
  pose proof (sendAudio_Registered w sessionId audio {| opt_returnAudio := None |}
                uuid now session Hs Hopen)
    as [Hpend Hprom Htim Hhist Hheap _ _].
  set (w1 := fst (sendAudio w sessionId audio {| opt_returnAudio := None |} uuid now))
    in *.
  set (p0 := audio_entry session sessionId {| opt_returnAudio := None |} uuid now
               (length (promises w))) in *.
  assert (Hun : promise_at w1 (p_promise p0) = Some Unsettled).
  { unfold promise_at. rewrite Hprom. now apply list_lookup_middle. }
  destruct (exchange_resolved w1 session (pending_at w session) uuid p0
              events event t (Hpend Hfresh) Hfresh Hk eq_refl Hun Hall Ht)
    as (Hres & Hh & Hp & _).
  pose proof (inputTranscript_accumulate_all events p0 eq_refl) as Hsaid.
  pose proof (audioDelta_accumulate_all events p0 eq_refl) as Haudio.
  change (inputTranscript (buffer p0)) with "" in Hsaid.
  change (audioDelta (buffer p0)) with (@nil string) in Haudio.
  change ([] ++ audio_payloads events) with (audio_payloads events) in Haudio.
  split; [|split].
  - eexists. split; [exact Hres|].
    unfold make_result. cbn [p_kind p_options_returnAudio p_startTime p_requestId
                             p0 audio_entry not_false opt_returnAudio
                             input_transcript duration_ms request_id audio_base64].
    rewrite Hsaid, Haudio. repeat split.
    destruct (audio_payloads events); reflexivity.
  - eexists. rewrite Hh, Hhist. unfold user_turn, assistant_turn.
    cbn [p_kind p0 audio_entry or_string]. rewrite Hsaid, Haudio. reflexivity.
  - exact Hp.
Qed.

End InFlight.

(** ** The messages of an audio request *)

Section Chunks.
Import SessionManager.
Implicit Types (w : World) (s : SessionState).

Lemma list_ascii_substring n m (a : string) :
  list_ascii_of_string (substring n m a)
  = take m (drop n (list_ascii_of_string a)).
Proof.
  revert n m. induction a as [|c a IH]; intros n m.
  - destruct n, m; reflexivity.
  - destruct n as [|n].
    + destruct m as [|m]; [reflexivity|]. simpl. now rewrite IH.
    + simpl. apply IH.
Qed.

Lemma list_ascii_append (a b : string) :
  list_ascii_of_string (String.append a b)
  = list_ascii_of_string a ++ list_ascii_of_string b.
Proof.
  induction a as [|c a IH]; [reflexivity|].
  change (c :: list_ascii_of_string (String.append a b)
          = c :: (list_ascii_of_string a ++ list_ascii_of_string b)).
  now rewrite IH.
Qed.

Lemma length_list_ascii (a : string) :
  length (list_ascii_of_string a) = String.length a.
Proof. induction a as [|c a IH]; simpl; [reflexivity | now rewrite IH]. Qed.

Lemma CHUNK_SIZE_pos : 0 < CHUNK_SIZE.
Proof. unfold CHUNK_SIZE. lia. Qed.

(** The loop cuts the suffix of the payload from index [i] on into
    non-empty pieces of at most [CHUNK_SIZE] characters. *)
Lemma append_chunks_spec (audio : string) fuel i :
  String.length audio - i <= fuel ->
  exists chunks,
    append_chunks fuel audio i = map input_audio_buffer_append chunks
    /\ list_ascii_of_string (String.concat "" chunks)
       = drop i (list_ascii_of_string audio)
    /\ Forall (fun a => 0 < String.length a <= CHUNK_SIZE) chunks.
Proof.
  pose proof CHUNK_SIZE_pos as Hpos.
  revert i. induction fuel as [|fuel IH]; intros i Hfuel.
  - exists []. repeat split; [|constructor].
    symmetry. apply drop_ge. rewrite length_list_ascii. lia.
  - cbn [append_chunks]. destruct (Nat.ltb_spec i (String.length audio)) as [Hi|Hi].
    + destruct (IH (i + CHUNK_SIZE)) as (chunks & Heq & Hcat & Hall); [lia|].
      exists (substring i CHUNK_SIZE audio :: chunks). split; [|split].
      * cbn [map]. now rewrite Heq.
      * rewrite concat_empty_cons, list_ascii_append, Hcat, list_ascii_substring.
        rewrite <- drop_drop. apply take_drop.
      * constructor; [|exact Hall].
        rewrite <- length_list_ascii, list_ascii_substring.
        rewrite length_take, length_drop, length_list_ascii. lia.
    + exists []. repeat split; [|constructor].
      symmetry. apply drop_ge. rewrite length_list_ascii. lia.
Qed.

Lemma sent_at_modify_frame l l' (f : SessionState -> SessionState) w :
  (forall s, ws_sent (ws (f s)) = ws_sent (ws s)) ->
  sent_at (modify l f w) l' = sent_at w l'.
Proof.
  intros Hf. rewrite sent_at_modify. unfold sent_at.
  destruct (decide (l = l')) as [->|]; [|reflexivity].
  destruct (heap w !! l'); [apply Hf | reflexivity].
Qed.

Lemma sent_at_send l m w :
  is_Some (heap w !! l) ->
  sent_at (modify l (ws_send m) w) l = sent_at w l ++ [m].
Proof.
  intros [s Hs]. rewrite sent_at_modify, decide_True by reflexivity.
  unfold sent_at. now rewrite Hs.
Qed.

Lemma sent_at_send_all l ms w :
  is_Some (heap w !! l) ->
  sent_at (modify l (ws_send_all ms) w) l = sent_at w l ++ ms.
Proof.
  intros [s Hs]. rewrite sent_at_modify, decide_True by reflexivity.
  unfold sent_at. rewrite Hs. apply ws_sent_ws_send_all.
Qed.

(** [sendAudio] on a session whose transport is open sends, in this
    order: the message that clears the input buffer; the payload cut into
    append messages, each carrying a non-empty piece of at most
    [CHUNK_SIZE] (15000) characters, the pieces joined giving back the
    payload; the commit message; the message that asks for the response,
    with the audio modality unless [returnAudio] is [false]. *)
Theorem sendAudio_streams_payload (w : World) (sessionId audio : string)
    (options : SendOptions) (uuid : string) (now : Z) (session : nat) :
  _getSession w sessionId = inr session ->
  transport_open w sessionId = true ->
  exists chunks,
    sent_at (fst (sendAudio w sessionId audio options uuid now)) session
    = sent_at w session
      ++ [input_audio_buffer_clear]
      ++ map input_audio_buffer_append chunks
      ++ [ input_audio_buffer_commit (String.append "audio_" uuid);
           response_create (String.append "res_" uuid)
             (match opt_returnAudio options with
              | Some false => [modality_text]
              | _ => [modality_text; modality_audio]
              end) ]
    /\ String.concat "" chunks = audio
    /\ Forall (fun a => 0 < String.length a <= CHUNK_SIZE) chunks.
Proof.
  intros Hs Hopen. destruct (_getSession_inr _ _ _ Hs) as (Hget & s & Hheap & _).
  destruct (append_chunks_spec audio (String.length audio) 0)
    as (chunks & Heq & Hcat & Hall); [lia|].
  exists chunks. split; [|split].
  - rewrite (sendAudio_unfold _ _ _ _ _ _ _ Hs Hopen). cbn [fst]. rewrite Heq.
    assert (H0 : is_Some (heap (modify session (set_lastActivityAt now) w) !! session))
      by (apply is_Some_heap_modify; eauto).
    rewrite !sent_at_send, sent_at_send_all, sent_at_send.
    + unfold register. rewrite sent_at_modify_frame by reflexivity.
      change (sent_at (setTimeout ?h (set_promises ?ps ?x)) session)
        with (sent_at x session).
      rewrite sent_at_modify_frame by reflexivity.
      rewrite <- !app_assoc. repeat f_equal.
      unfold not_false. now destruct (opt_returnAudio options) as [[]|].
    + unfold register. now apply is_Some_heap_modify.
    + rewrite is_Some_heap_modify. unfold register. now apply is_Some_heap_modify.
    + rewrite !is_Some_heap_modify. unfold register. now apply is_Some_heap_modify.
    + rewrite !is_Some_heap_modify. unfold register. now apply is_Some_heap_modify.
  - rewrite <- (string_of_list_ascii_of_string (String.concat "" chunks)), Hcat.
    apply string_of_list_ascii_of_string.
  - exact Hall.
Qed.

(** [sendText] sends the user item and then the message that asks for
    the response, with the audio modality only when [returnAudio] is
    [true]. *)
Lemma sendText_messages w sessionId text options uuid now session :
  _getSession w sessionId = inr session ->
  transport_open w sessionId = true ->
  sent_at (fst (sendText w sessionId text options uuid now)) session
  = sent_at w session
    ++ [ conversation_item_create text (String.append "msg_" uuid);
         response_create (String.append "res_" uuid)
           (match opt_returnAudio options with
            | Some true => [modality_text; modality_audio]
            | _ => [modality_text]
            end) ].
Proof.
  intros Hs Hopen. destruct (_getSession_inr _ _ _ Hs) as (Hget & s & Hheap & _).
  rewrite (sendText_unfold _ _ _ _ _ _ _ Hs Hopen). cbn [fst].
  assert (H0 : is_Some (heap (modify session (set_lastActivityAt now) w) !! session))
    by (apply is_Some_heap_modify; eauto).
  rewrite !sent_at_send.
  - unfold register. rewrite sent_at_modify_frame by reflexivity.
    change (sent_at (setTimeout ?h (set_promises ?ps ?x)) session)
      with (sent_at x session).
    rewrite sent_at_modify_frame by reflexivity.
    rewrite <- !app_assoc. repeat f_equal.
    unfold is_true. now destruct (opt_returnAudio options) as [[]|].
  - unfold register. now apply is_Some_heap_modify.
  - rewrite is_Some_heap_modify. unfold register. now apply is_Some_heap_modify.
Qed.

End Chunks.

(** ** Transport failures *)

Section Failures.
Import SessionManager Runs.
Implicit Types (w : World) (s : SessionState) (p : Pending) (c : Connection).

Lemma ws_on_error_unfold w c err :
  ws_on_error w c err
  = _rejectAllPending
      (modify (c_session c) (set_status status_error)
         (clearTimeout (c_promise c) w))
      (c_session c) (TransportError err).
Proof.
  unfold ws_on_error.
  destruct (ws_on_error_status_tested w c err) as [-> | ->]; reflexivity.
Qed.

Lemma getSession_status w sessionId l :
  JSMap.get sessionId (sessions w) = Some l ->
  ss_status <$> getSession w sessionId = status_at w l.
Proof.
  intros Hget. unfold getSession, status_at. rewrite Hget.
  now destruct (heap w !! l).
Qed.

Lemma _getSession_status w sessionId l st :
  JSMap.get sessionId (sessions w) = Some l ->
  status_at w l = Some st ->
  st = status_error \/ st = status_closed ->
  _getSession w sessionId = inl (SessionUnavailable st).
Proof.
  intros Hget Hst Hor. unfold _getSession, status_at in *. rewrite Hget.
  destruct (heap w !! l) as [s|]; [|discriminate].
  injection Hst as Hst. rewrite Hst. now destruct Hor as [-> | ->].
Qed.

(** A transport error on a registered session, in any reachable state
    and whether or not requests are pending: every pending request of the
    session that was unsettled is rejected with the transport error, one
    that its own call had already rejected keeps that error, and the
    pending table is emptied; the session stays in the registry with
    status [error], so [getSession] still reports it while every later
    request call on it is refused as unavailable. *)
Theorem transport_error_rejects_pending (cfg : Config) (sys : System)
    (c : Connection) (err : string) :
  reachable cfg sys ->
  JSMap.get (c_sessionId c) (sessions (world sys)) = Some (c_session c) ->
  let w' := ws_on_error (world sys) c err in
  (forall k p,
     (k, p) ∈ pending_at (world sys) (c_session c) ->
     (promise_at (world sys) (p_promise p) = Some Unsettled
      /\ promise_at w' (p_promise p) = Some (Rejected (TransportError err)))
     \/ (promise_at (world sys) (p_promise p) = Some (Rejected NOT_OPEN)
         /\ promise_at w' (p_promise p) = Some (Rejected NOT_OPEN)))
  /\ pending_at w' (c_session c) = []
  /\ ss_status <$> getSession w' (c_sessionId c) = Some status_error
  /\ (forall text options uuid now,
        sendText w' (c_sessionId c) text options uuid now
        = (w', inl (SessionUnavailable status_error)))
  /\ (forall audio options uuid now,
        sendAudio w' (c_sessionId c) audio options uuid now
        = (w', inl (SessionUnavailable status_error))).
Proof.
  intros Hr Hget. cbv zeta.
  pose proof (reachable_Inv _ _ Hr) as HI.
  rewrite ws_on_error_unfold.
  set (w2 := modify (c_session c) (set_status status_error)
               (clearTimeout (c_promise c) (world sys))).
  assert (Hpend2 : pending_at w2 (c_session c) = pending_at (world sys) (c_session c)).
  { subst w2. now rewrite pending_at_modify_frame. }
  assert (Hheap : is_Some (heap (world sys) !! c_session c)).
  { apply lookup_lt_is_Some. exact (inv_registry sys HI _ _ Hget). }
  assert (Hst : status_at (_rejectAllPending w2 (c_session c) (TransportError err))
                  (c_session c) = Some status_error).
  { rewrite status_at__rejectAllPending. subst w2.
    rewrite status_at_modify, decide_True by reflexivity.
    destruct Hheap as [s Hs0]. cbn [heap clearTimeout set_timers].
    rewrite Hs0. reflexivity. }
  assert (Hget' : JSMap.get (c_sessionId c)
                    (sessions (_rejectAllPending w2 (c_session c) (TransportError err)))
                  = Some (c_session c)).
  { rewrite sessions__rejectAllPending. exact Hget. }
  assert (Hun' : _getSession (_rejectAllPending w2 (c_session c) (TransportError err))
                   (c_sessionId c) = inl (SessionUnavailable status_error)).
  { apply (_getSession_status _ _ _ _ Hget' Hst). now left. }
  split; [|split; [|split; [|split]]].
  - intros k p Hin.
    rewrite promise_at__rejectAllPending, Hpend2, decide_True
      by (now apply (handle_of_entry _ (k, p))).
    change (promise_at w2 (p_promise p)) with (promise_at (world sys) (p_promise p)).
    destruct (inv_awaiting sys HI _ _ _ Hin) as [-> | ->];
      [left | right]; split; reflexivity.
  - apply pending_at__rejectAllPending.
  - rewrite (getSession_status _ _ _ Hget'). exact Hst.
  - intros. unfold sendText. now rewrite Hun'.
  - intros. unfold sendAudio. now rewrite Hun'.
Qed.

(** The transport of a session object closing, in any reachable state and
    whether or not requests are pending: every pending request of the
    session that was unsettled is rejected with the closed error carrying
    the close code, one that its own call had already rejected keeps that
    error, and the pending table is emptied; the session object is marked
    [closed] and its id leaves the registry, so [getSession] answers
    [null] and request calls are refused as not found. *)
Theorem transport_close_rejects_pending (cfg : Config) (sys : System)
    (c : Connection) (code : Z) :
  reachable cfg sys ->
  is_Some (heap (world sys) !! c_session c) ->
  let w' := ws_on_close (world sys) c code in
  (forall k p,
     (k, p) ∈ pending_at (world sys) (c_session c) ->
     (promise_at (world sys) (p_promise p) = Some Unsettled
      /\ promise_at w' (p_promise p) = Some (Rejected (SessionClosed code)))
     \/ (promise_at (world sys) (p_promise p) = Some (Rejected NOT_OPEN)
         /\ promise_at w' (p_promise p) = Some (Rejected NOT_OPEN)))
  /\ pending_at w' (c_session c) = []
  /\ status_at w' (c_session c) = Some status_closed
  /\ getSession w' (c_sessionId c) = None
  /\ (forall text options uuid now,
        sendText w' (c_sessionId c) text options uuid now
        = (w', inl (SessionNotFound (c_sessionId c))))
  /\ (forall audio options uuid now,
        sendAudio w' (c_sessionId c) audio options uuid now
        = (w', inl (SessionNotFound (c_sessionId c)))).
Proof.
  intros Hr Hheap. cbv zeta.
  pose proof (reachable_Inv _ _ Hr) as HI.
  unfold ws_on_close.
  set (w2 := modify (c_session c) (set_status status_closed) (world sys)).
  set (w3 := _rejectAllPending w2 (c_session c) (SessionClosed code)).
  assert (Hpend2 : pending_at w2 (c_session c) = pending_at (world sys) (c_session c)).
  { subst w2. now rewrite pending_at_modify_frame. }
  assert (Hgone : JSMap.get (c_sessionId c)
                    (sessions (set_sessions
                       (JSMap.delete (c_sessionId c) (sessions w3)) w3)) = None)
    by apply get_delete_same.
  split; [|split; [|split; [|split; [|split]]]].
  - intros k p Hin.
    change (promise_at (set_sessions (JSMap.delete (c_sessionId c) (sessions w3)) w3)
              (p_promise p))
      with (promise_at w3 (p_promise p)).
    subst w3. rewrite promise_at__rejectAllPending, Hpend2, decide_True
      by (now apply (handle_of_entry _ (k, p))).
    change (promise_at w2 (p_promise p)) with (promise_at (world sys) (p_promise p)).
    destruct (inv_awaiting sys HI _ _ _ Hin) as [-> | ->];
      [left | right]; split; reflexivity.
  - change (pending_at w3 (c_session c) = []).
    apply pending_at__rejectAllPending.
  - change (status_at w3 (c_session c) = Some status_closed).
    subst w3. rewrite status_at__rejectAllPending. subst w2.
    rewrite status_at_modify, decide_True by reflexivity.
    destruct Hheap as [s ->]. reflexivity.
  - unfold getSession. now rewrite Hgone.
  - intros. unfold sendText, _getSession. now rewrite Hgone.
  - intros. unfold sendAudio, _getSession. now rewrite Hgone.
Qed.

(** The transport closing before it opened.  The close handler removes
    the session from the registry but neither settles the promise of
    [createSession] nor disarms the connect timer: the caller is answered
    only when that timer fires, with the connect-timeout error. *)
Theorem close_while_connecting (w : World) (options : CreateOptions)
    (uuid : string) (now : Z) (c : Connection) (code : Z) :
  snd (createSession w options uuid now) = inr c ->
  let w1 := fst (createSession w options uuid now) in
  let w2 := ws_on_close w1 c code in
  getSession w2 (c_sessionId c) = None
  /\ promise_at w2 (c_promise c) = Some Unsettled
  /\ armed w2 (c_promise c) = true
  /\ promise_at (connectTimeout_fires w2 c) (c_promise c)
     = Some (Rejected ConnectTimeout).
Proof.
  intros Hc. destruct (createSession_inr _ _ _ _ _ Hc)
    as (-> & Hp & Ht & Hs & s & Hh & Hst & Hsent & Hterm & Hcr & Hpend).
  cbv zeta. set (w1 := fst (createSession w options uuid now)) in *.
  cbn [c_promise c_sessionId c_session].
  set (c := {| c_session := length (heap w);
               c_sessionId := or_string (opt_sessionId options) uuid;
               c_promise := length (promises w);
               c_voice := or_string (opt_voice options) (defaultVoice (config w));
               c_instructions :=
                 or_string (opt_instructions options)
                   (defaultInstructions (config w)) |}).
  assert (Hobj : heap w1 !! length (heap w) = Some s)
    by (rewrite Hh; now apply list_lookup_middle).
  unfold ws_on_close. cbn [c_promise c_sessionId c_session c].
  set (w2 := modify (length (heap w)) (set_status status_closed) w1).
  set (w3 := _rejectAllPending w2 (length (heap w)) (SessionClosed code)).
  assert (Hnone : pending_at w2 (length (heap w)) = []).
  { subst w2. rewrite pending_at_modify_frame by reflexivity.
    unfold pending_at. now rewrite Hobj. }
  assert (Hprom : promise_at w3 (length (promises w)) = Some Unsettled).
  { subst w3. rewrite promise_at__rejectAllPending, Hnone.
    rewrite decide_False by apply not_elem_of_nil.
    change (promise_at w2 ?h) with (promise_at w1 h).
    unfold promise_at. rewrite Hp. now apply list_lookup_middle. }
  assert (Harmed : length (promises w) ∈ timers w3).
  { subst w3. rewrite timers__rejectAllPending, Hnone. split.
    - change (timers w2) with (timers w1). rewrite Ht.
      apply elem_of_union. left. now apply elem_of_singleton.
    - apply not_elem_of_nil. }
  split; [|split; [|split]].
  - unfold getSession. cbn [sessions set_sessions]. now rewrite get_delete_same.
  - exact Hprom.
  - unfold armed. now apply bool_decide_eq_true.
  - unfold connectTimeout_fires. cbn [c_promise c_sessionId c_session c].
    rewrite bool_decide_eq_true_2 by exact Harmed.
    rewrite promise_at_settle, decide_True by reflexivity.
    match goal with
    | |- match promise_at ?x _ with _ => _ end = _ =>
        change (promise_at x (length (promises w)))
          with (promise_at w3 (length (promises w)))
    end.
    now rewrite Hprom.
Qed.

End Failures.

(** ** Answers that come too late *)

Section LateAnswers.
Import SessionManager Accumulation.
Implicit Types (w : World) (s : SessionState) (p : Pending).

Lemma dispatch_idle w session event now :
  pending_at w session = [] -> _handleOpenAIEvent w session event now = w.
Proof.
  unfold pending_at, _handleOpenAIEvent. intros Hempty.
  destruct (heap w !! session) as [s|]; [|reflexivity].
  rewrite (_getLatestPending_empty s Hempty).
  repeat case_match; reflexivity.
Qed.

Lemma dispatch_all_idle w session events :
  pending_at w session = [] -> dispatch_all w session events = w.
Proof.
  intros Hempty. induction events as [|e events IH]; [reflexivity|].
  unfold dispatch_all in *. cbn [fold_left]. now rewrite dispatch_idle.
Qed.

(** A text request that times out, no other request being pending on the
    session: whatever arrives afterwards, the terminal event of the late
    answer included, changes nothing; the exchange never reaches the
    history. *)
Theorem late_answer_dropped (w : World) (sessionId text : string)
    (options : SendOptions) (uuid : string) (now : Z) (session : nat)
    (events late : list (Event * Z)) :
  _getSession w sessionId = inr session ->
  transport_open w sessionId = true ->
  pending_at w session = [] ->
  Forall (fun e => ends_request (fst e) = false) events ->
  let w1 := fst (sendText w sessionId text options uuid now) in
  let call := {| call_session := session; call_requestId := uuid;
                 call_promise := length (promises w) |} in
  let w3 := responseTimeout_fires (dispatch_all w1 session events) call in
  snd (sendText w sessionId text options uuid now) = inr call
  /\ promise_at w3 (length (promises w))
     = Some (Rejected (ResponseTimeout (responseTimeoutMs (config w))))
  /\ dispatch_all w3 session late = w3
  /\ history_at (dispatch_all w3 session late) session = history_at w session.
Proof.
  intros Hs Hopen Hempty Hall. cbv zeta.
  pose proof (sendText_Registered w sessionId text options uuid now session Hs Hopen)
    as [Hpend Hprom Htim Hhist Hheap _ Hcfg].
  assert (Hcall : snd (sendText w sessionId text options uuid now)
                  = inr {| call_session := session; call_requestId := uuid;
                           call_promise := length (promises w) |})
    by (now rewrite (sendText_unfold _ _ _ _ _ _ _ Hs Hopen)).
  set (w1 := fst (sendText w sessionId text options uuid now)) in *.
  rewrite Hempty in Hpend. specialize (Hpend eq_refl).
  rewrite dispatch_all_accumulates by assumption.
  set (w2 := modify session (mutate_latest (accumulate_all events)) w1).
  assert (Harmed : bool_decide (length (promises w) ∈ timers w2) = true).
  { apply bool_decide_eq_true. change (timers w2) with (timers w1).
    rewrite Htim. apply elem_of_union. left. now apply elem_of_singleton. }
  assert (Hfired : responseTimeout_fires w2
                     {| call_session := session; call_requestId := uuid;
                        call_promise := length (promises w) |}
                   = settle (length (promises w))
                       (Rejected (ResponseTimeout (responseTimeoutMs (config w))))
                       (unregister session uuid
                          (clearTimeout (length (promises w)) w2))).
  { unfold responseTimeout_fires. cbn [call_promise call_session call_requestId].
    rewrite Harmed. cbv zeta.
    change (config (unregister ?l ?k ?x)) with (config x).
    change (config (clearTimeout ?h ?x)) with (config x).
    change (config w2) with (config w1). now rewrite Hcfg. }
  rewrite Hfired.
  set (w3 := settle _ _ _).
  assert (Hnone : pending_at w3 session = []).
  { subst w3. rewrite pending_at_settle, pending_at_unregister.
    change (pending_at (clearTimeout ?h ?x) session) with (pending_at x session).
    subst w2. rewrite pending_at_mutate_latest, Hpend.
    change ([] ++ [(uuid, ?q)]) with [(uuid, q)]. simpl.
    now rewrite String.eqb_refl. }
  split; [exact Hcall|]. split; [|split].
  - subst w3. rewrite promise_at_settle, decide_True by reflexivity.
    change (promise_at (unregister ?l ?k ?x) ?h) with (promise_at x h).
    change (promise_at (clearTimeout ?h0 ?x) ?h) with (promise_at x h).
    change (promise_at w2 ?h) with (promise_at w1 h).
    unfold promise_at. rewrite Hprom, list_lookup_middle by reflexivity.
    reflexivity.
  - now apply dispatch_all_idle.
  - rewrite dispatch_all_idle by assumption.
    subst w3. rewrite history_at_settle, history_at_unregister.
    change (history_at (clearTimeout ?h ?x) session) with (history_at x session).
    subst w2. rewrite history_at_modify by reflexivity. apply Hhist.
Qed.

End LateAnswers.

(** ** The registry *)

Section RegistryFacts.
Import SessionManager Registry.
Implicit Types (w : World) (s : SessionState) (p : Pending) (c : Connection).

Lemma ids_kept_refl w : ids_kept w w.
Proof. intros l s Hs. eauto. Qed.

Lemma ids_kept_trans w1 w2 w3 : ids_kept w1 w2 -> ids_kept w2 w3 -> ids_kept w1 w3.
Proof.
  intros H12 H23 l s Hs. destruct (H12 _ _ Hs) as (s2 & Hs2 & Hid2).
  destruct (H23 _ _ Hs2) as (s3 & Hs3 & Hid3). exists s3. split; [exact Hs3|].
  congruence.
Qed.

Lemma delete_all_app {V : Type} ks ks' (m : JSMap.t V) :
  delete_all (ks ++ ks') m = delete_all ks' (delete_all ks m).
Proof. unfold delete_all. apply fold_left_app. Qed.

Lemma shrinks_refl w : shrinks w w.
Proof. split; [reflexivity|]. split; [apply ids_kept_refl|]. now exists []. Qed.

Lemma shrinks_trans w1 w2 w3 : shrinks w1 w2 -> shrinks w2 w3 -> shrinks w1 w3.
Proof.
  intros (Hc12 & Hi12 & ks & Hs12) (Hc23 & Hi23 & ks' & Hs23).
  split; [congruence|]. split; [eapply ids_kept_trans; eassumption|].
  exists (ks ++ ks'). now rewrite delete_all_app, <- Hs12.
Qed.

Lemma shrinks_frame w x w' :
  shrinks w x -> config w' = config x -> heap w' = heap x ->
  sessions w' = sessions x -> shrinks w w'.
Proof.
  intros H Hc Hh Hs. apply (shrinks_trans _ x); [exact H|].
  split; [exact Hc|]. split.
  - intros l s Hl. rewrite Hh. eauto.
  - exists []. exact Hs.
Qed.

Lemma shrinks_settle w x h o : shrinks w x -> shrinks w (settle h o x).
Proof.
  intros H. apply (shrinks_frame _ x); auto using config_settle, heap_settle, sessions_settle.
Qed.

Lemma shrinks_clearTimeout w x h : shrinks w x -> shrinks w (clearTimeout h x).
Proof. intros H. now apply (shrinks_frame _ x). Qed.

Lemma shrinks_setTimeout w x h : shrinks w x -> shrinks w (setTimeout h x).
Proof. intros H. now apply (shrinks_frame _ x). Qed.

Lemma shrinks_set_promises w x ps : shrinks w x -> shrinks w (set_promises ps x).
Proof. intros H. now apply (shrinks_frame _ x). Qed.

Lemma shrinks_modify w x l (f : SessionState -> SessionState) :
  (forall s, id (f s) = id s) -> shrinks w x -> shrinks w (modify l f x).
Proof.
  intros Hf H. apply (shrinks_trans _ x); [exact H|].
  split; [reflexivity|]. split; [|now exists []].
  intros l' s Hs.
  change (heap (modify l f x) !! l') with (session_at (modify l f x) l').
  rewrite session_at_modify. unfold session_at.
  destruct (decide (l = l')) as [->|]; [|eauto].
  rewrite Hs. simpl. eauto.
Qed.

Lemma shrinks_delete w x k :
  shrinks w x -> shrinks w (set_sessions (JSMap.delete k (sessions x)) x).
Proof.
  intros H. apply (shrinks_trans _ x); [exact H|].
  split; [reflexivity|]. split; [|now exists [k]].
  intros l s Hs. exists s. split; [exact Hs | reflexivity].
Qed.

Lemma config_reject_each err entries w : config (reject_each err entries w) = config w.
Proof.
  unfold reject_each. revert w.
  induction entries as [|e entries IH]; intros w; simpl; [reflexivity|].
  rewrite IH. unfold pending_reject. now rewrite config_settle.
Qed.

Lemma shrinks__rejectAllPending w x l err :
  shrinks w x -> shrinks w (_rejectAllPending x l err).
Proof.
  intros H. destruct (heap x !! l) as [s|] eqn:Hs.
  - rewrite (_rejectAllPending_unfold _ _ _ _ Hs).
    apply shrinks_modify; [reflexivity|].
    apply (shrinks_frame _ x);
      auto using config_reject_each, heap_reject_each, sessions_reject_each.
  - unfold _rejectAllPending. now rewrite Hs.
Qed.

Lemma shrinks_pending_resolve w x p data t :
  shrinks w x -> shrinks w (pending_resolve p data t x).
Proof.
  intros H. unfold pending_resolve. apply shrinks_settle.
  do 2 (apply shrinks_modify; [reflexivity|]). now apply shrinks_clearTimeout.
Qed.

Lemma shrinks_pending_reject w x p err :
  shrinks w x -> shrinks w (pending_reject p err x).
Proof.
  intros H. unfold pending_reject. apply shrinks_settle.
  now apply shrinks_clearTimeout.
Qed.

Lemma id_ws_send_all ms s : id (ws_send_all ms s) = id s.
Proof.
  unfold ws_send_all. revert s.
  induction ms as [|m ms IH]; intros s; simpl; [reflexivity|]. now rewrite IH.
Qed.

Ltac shrink :=
  repeat first
    [ assumption
    | apply shrinks_refl
    | apply shrinks_settle
    | apply shrinks_pending_resolve
    | apply shrinks_pending_reject
    | apply shrinks__rejectAllPending
    | apply shrinks_delete
    | apply shrinks_clearTimeout
    | apply shrinks_setTimeout
    | apply shrinks_set_promises
    | (apply shrinks_modify; [first [reflexivity | apply id_ws_send_all]|]) ].

Lemma shrinks_dispatch w x l event t :
  shrinks w x -> shrinks w (_handleOpenAIEvent x l event t).
Proof.
  intros H. unfold _handleOpenAIEvent.
  repeat case_match; unfold unregister; shrink.
Qed.

Lemma shrinks_closeSession w x k : shrinks w x -> shrinks w (fst (closeSession x k)).
Proof.
  intros H. unfold closeSession. case_match; cbn [fst]; shrink.
Qed.

Lemma shrinks_cleanup w x now :
  shrinks w x -> shrinks w (_cleanupIdleSessions x now).
Proof.
  unfold _cleanupIdleSessions. generalize (sessions x) as es. intros es. revert x.
  induction es as [|e es IH]; intros x H; [exact H|].
  cbn [fold_left]. apply IH. case_match; [now apply shrinks_closeSession | exact H].
Qed.

Lemma shrinks_sendText w sessionId text options uuid now :
  shrinks w (fst (sendText w sessionId text options uuid now)).
Proof.
  unfold sendText. repeat case_match; cbn [fst]; unfold register; shrink.
Qed.

Lemma shrinks_sendAudio w sessionId audio options uuid now :
  shrinks w (fst (sendAudio w sessionId audio options uuid now)).
Proof.
  unfold sendAudio. repeat case_match; cbn [fst]; unfold register; shrink.
Qed.

Lemma shrinks_updateInstructions w sessionId instructions now :
  shrinks w (fst (updateInstructions w sessionId instructions now)).
Proof.
  unfold updateInstructions. repeat case_match; cbn [fst]; shrink.
Qed.

Lemma shrinks_connectTimeout w c : shrinks w (connectTimeout_fires w c).
Proof. unfold connectTimeout_fires. case_match; shrink. Qed.

Lemma shrinks_open w c : shrinks w (ws_on_open w c).
Proof. unfold ws_on_open. case_match; shrink. Qed.

Lemma shrinks_error w c err : shrinks w (ws_on_error w c err).
Proof. rewrite ws_on_error_unfold. shrink. Qed.

Lemma shrinks_close w c code : shrinks w (ws_on_close w c code).
Proof. unfold ws_on_close. shrink. Qed.

Lemma shrinks_responseTimeout w call : shrinks w (responseTimeout_fires w call).
Proof. unfold responseTimeout_fires. case_match; unfold unregister; shrink. Qed.

(** *** Deleting keeps the registry well formed *)

Lemma keys_delete_subseteq {V : Type} k (m : JSMap.t V) x :
  x ∈ JSMap.keys (JSMap.delete k m) -> x ∈ JSMap.keys m.
Proof.
  induction m as [|[k0 v0] m IH]; simpl; [tauto|].
  destruct (String.eqb k0 k); simpl; rewrite ?elem_of_cons; intuition.
Qed.

Lemma NoDup_keys_delete {V : Type} k (m : JSMap.t V) :
  NoDup (JSMap.keys m) -> NoDup (JSMap.keys (JSMap.delete k m)).
Proof.
  induction m as [|[k0 v0] m IH]; simpl; [auto|].
  rewrite NoDup_cons. intros [Hk0 Hm].
  destruct (String.eqb k0 k); simpl; [auto|].
  apply NoDup_cons. split; [|auto].
  intros Hin. apply Hk0. eapply keys_delete_subseteq, Hin.
Qed.

Lemma size_delete {V : Type} k (m : JSMap.t V) :
  JSMap.size (JSMap.delete k m) <= JSMap.size m.
Proof.
  unfold JSMap.size. induction m as [|[k0 v0] m IH]; simpl; [lia|].
  destruct (String.eqb k0 k); simpl; lia.
Qed.

Lemma Wf_shrinks cfg w w' : Wf cfg w -> shrinks w w' -> Wf cfg w'.
Proof.
  intros [Hcfg Hnd Hids Hb] (Hc & Hkept & ks & Hs).
  assert (Hall : NoDup (JSMap.keys (sessions w'))
                 /\ (forall k l, JSMap.get k (sessions w') = Some l ->
                                 JSMap.get k (sessions w) = Some l)
                 /\ JSMap.size (sessions w') <= JSMap.size (sessions w)).
  { rewrite Hs. clear Hs Hids Hb. revert Hnd. generalize (sessions w) as m.
    induction ks as [|k ks IH]; intros m Hnd.
    - repeat split; auto.
    - destruct (IH (JSMap.delete k m) (NoDup_keys_delete k m Hnd)) as (H1 & H2 & H3).
      split; [exact H1|]. split.
      + intros k' l Hget. eapply get_delete_Some, H2, Hget.
      + pose proof (size_delete k m). unfold delete_all in *. simpl. lia. }
  destruct Hall as (H1 & H2 & H3). split.
  - congruence.
  - exact H1.
  - intros k l Hget. destruct (Hids _ _ (H2 _ _ Hget)) as (s & Hsl & Hid).
    destruct (Hkept _ _ Hsl) as (s' & Hs' & Hid'). exists s'. split; [exact Hs'|].
    congruence.
  - intros Hpos. specialize (Hb Hpos). lia.
Qed.

(** *** Creating keeps it well formed *)

Lemma keys_set_subseteq {V : Type} k (v : V) (m : JSMap.t V) x :
  x ∈ JSMap.keys (JSMap.set k v m) -> x = k \/ x ∈ JSMap.keys m.
Proof.
  induction m as [|[k0 v0] m IH]; simpl.
  - rewrite elem_of_cons. intros [->|H]; [now left | now apply elem_of_nil in H].
  - destruct (String.eqb_spec k0 k) as [->|Hne]; simpl; rewrite !elem_of_cons.
    + intuition.
    + intuition.
Qed.

Lemma NoDup_keys_set {V : Type} k (v : V) (m : JSMap.t V) :
  NoDup (JSMap.keys m) -> NoDup (JSMap.keys (JSMap.set k v m)).
Proof.
  induction m as [|[k0 v0] m IH]; simpl.
  - intros _. apply NoDup_singleton.
  - rewrite NoDup_cons. intros [Hk0 Hm].
    destruct (String.eqb_spec k0 k) as [->|Hne]; simpl.
    + apply NoDup_cons. auto.
    + apply NoDup_cons. split; [|auto].
      intros Hin. apply keys_set_subseteq in Hin as [->|Hin]; [congruence | auto].
Qed.

Lemma size_set {V : Type} k (v : V) (m : JSMap.t V) :
  JSMap.size (JSMap.set k v m) <= S (JSMap.size m).
Proof.
  unfold JSMap.size. induction m as [|[k0 v0] m IH]; simpl; [lia|].
  destruct (String.eqb k0 k); simpl; lia.
Qed.

Lemma Wf_createSession cfg w options uuid now :
  Wf cfg w -> Wf cfg (fst (createSession w options uuid now)).
Proof.
  intros [Hcfg Hnd Hids Hb]. unfold createSession.
  destruct ((0 <? maxSessions (config w))%Z
            && (maxSessions (config w) <=? Z.of_nat (JSMap.size (sessions w)))%Z)
    eqn:Hfull; [now split|].
  cbn [fst]. split.
  - exact Hcfg.
  - change (NoDup (JSMap.keys
                     (JSMap.set (or_string (opt_sessionId options) uuid)
                        (length (heap w)) (sessions w)))).
    now apply NoDup_keys_set.
  - intros k l Hget.
    change (JSMap.get k (JSMap.set (or_string (opt_sessionId options) uuid)
                           (length (heap w)) (sessions w)) = Some l) in Hget.
    match goal with
    | |- exists s, heap ?x !! l = Some s /\ _ =>
        match eval cbn [heap setTimeout set_timers set_sessions set_heap set_promises]
              in (heap x) with
        | ?hw ++ [?obj] => change (heap x) with (heap w ++ [obj])
        end
    end.
    destruct (decide (or_string (opt_sessionId options) uuid = k)) as [<-|Hne].
    + rewrite get_set_same in Hget. injection Hget as <-.
      rewrite list_lookup_middle by reflexivity. eauto.
    + rewrite get_set_other in Hget by assumption.
      destruct (Hids _ _ Hget) as (s & Hs & Hid). exists s. split; [|exact Hid].
      rewrite lookup_app_l; [exact Hs|]. now apply lookup_lt_Some in Hs.
  - intros Hpos.
    change (Z.of_nat (JSMap.size
                        (JSMap.set (or_string (opt_sessionId options) uuid)
                           (length (heap w)) (sessions w)))
            <= maxSessions cfg)%Z.
    rewrite Hcfg in Hfull. apply andb_false_iff in Hfull as [Hf|Hf].
    + apply Z.ltb_ge in Hf. lia.
    + apply Z.leb_gt in Hf.
      pose proof (size_set (or_string (opt_sessionId options) uuid)
                    (length (heap w)) (sessions w)) as Hsz.
      unfold JSMap.size in *. cbn [length] in *. lia.
Qed.

Lemma Wf_initial cfg : Wf cfg (constructor cfg).
Proof.
  split; [reflexivity | apply NoDup_nil_2 | discriminate | simpl; lia].
Qed.

End RegistryFacts.

Section RegistryOverRuns.
Import SessionManager Registry Runs.
Implicit Types (w : World) (s : SessionState) (sys : System).

Lemma reachable_Wf cfg sys : reachable cfg sys -> Wf cfg (world sys).
Proof.
  induction 1 as [|sys a _ IH _]; [apply Wf_initial|].
  destruct a; cbn [exec world with_world].
  1: now apply Wf_createSession.
  all: eapply Wf_shrinks; [exact IH|].
  - apply shrinks_sendText.
  - apply shrinks_sendAudio.
  - apply shrinks_updateInstructions.
  - apply shrinks_closeSession, shrinks_refl.
  - apply shrinks_cleanup, shrinks_refl.
  - apply shrinks_connectTimeout.
  - apply shrinks_open.
  - apply shrinks_dispatch, shrinks_refl.
  - apply shrinks_error.
  - apply shrinks_close.
  - apply shrinks_responseTimeout.
Qed.

(** With [maxSessions] set, the registry never holds more sessions than
    that, whatever the callers, the transports and the timers did; and
    when it holds that many, [createSession] is refused with the
    limit-reached error and changes nothing. *)
Theorem registry_within_limit (cfg : Config) (sys : System) :
  reachable cfg sys ->
  (0 < maxSessions cfg)%Z ->
  (Z.of_nat (JSMap.size (sessions (world sys))) <= maxSessions cfg)%Z
  /\ (Z.of_nat (JSMap.size (sessions (world sys))) = maxSessions cfg ->
      forall options uuid now,
        createSession (world sys) options uuid now
        = (world sys, inl (LimitReached (maxSessions cfg)))).
Proof.
  intros Hr Hpos. destruct (reachable_Wf _ _ Hr) as [Hcfg _ _ Hb].
  split; [auto|]. intros Hfull options uuid now.
  unfold createSession. rewrite Hcfg.
  destruct (Z.ltb_spec 0 (maxSessions cfg)); [|lia].
  destruct (Z.leb_spec (maxSessions cfg)
              (Z.of_nat (JSMap.size (sessions (world sys))))); [reflexivity | lia].
Qed.

(** In any reachable state [listSessions] returns one summary for each
    registered id, in registration order, none of them [null], each
    carrying its id; and no id is registered twice. *)
Theorem registered_sessions_listed (cfg : Config) (sys : System) :
  reachable cfg sys ->
  NoDup (JSMap.keys (sessions (world sys)))
  /\ Forall2 (fun k r => exists summary, r = Some summary /\ ss_session_id summary = k)
       (JSMap.keys (sessions (world sys))) (listSessions (world sys)).
Proof.
  intros Hr. destruct (reachable_Wf _ _ Hr) as [_ Hnd Hids _].
  split; [exact Hnd|]. unfold listSessions, JSMap.keys.
  assert (Hall : forall e, e ∈ sessions (world sys) ->
                   exists summary, getSession (world sys) e.1 = Some summary
                                   /\ ss_session_id summary = e.1).
  { intros [k l0] Hin.
    assert (Hk : k ∈ JSMap.keys (sessions (world sys))).
    { unfold JSMap.keys. apply list_elem_of_In, in_map_iff.
      exists (k, l0). split; [reflexivity | now apply list_elem_of_In]. }
    apply get_is_Some_keys in Hk as [l Hget].
    destruct (Hids _ _ Hget) as (s & Hs & Hid).
    unfold getSession. cbn [fst]. rewrite Hget, Hs. simpl. eauto. }
  revert Hall. generalize (sessions (world sys)) at 1 2 3 as es.
  induction es as [|e es IH]; intros Hall; [constructor|].
  cbn [map]. constructor.
  - apply Hall. left.
  - apply IH. intros e' He'. apply Hall. now right.
Qed.

(** *** The idle sweep and [destroy] *)

Lemma sessions_closeSession w k :
  sessions (fst (closeSession w k)) = JSMap.delete k (sessions w).
Proof.
  unfold closeSession. destruct (JSMap.get k (sessions w)) as [l|] eqn:Hget.
  - cbn [fst sessions set_sessions modify set_heap].
    now rewrite sessions__rejectAllPending.
  - cbn [fst]. symmetry. now apply delete_absent.
Qed.

Lemma config__rejectAllPending w l err : config (_rejectAllPending w l err) = config w.
Proof.
  destruct (heap w !! l) as [s|] eqn:Hs.
  - rewrite (_rejectAllPending_unfold _ _ _ _ Hs). cbn [config modify set_heap].
    apply config_reject_each.
  - unfold _rejectAllPending. now rewrite Hs.
Qed.

Lemma is_idle_closeSession w k now l :
  is_idle (fst (closeSession w k)) now l = is_idle w now l.
Proof.
  unfold closeSession. destruct (JSMap.get k (sessions w)) as [l0|]; [|reflexivity].
  cbn [fst]. unfold is_idle.
  change (lastActivityAt_at (set_sessions ?m ?x) l) with (lastActivityAt_at x l).
  change (config (set_sessions ?m ?x)) with (config x).
  rewrite lastActivityAt_at_modify by reflexivity.
  rewrite lastActivityAt_at__rejectAllPending.
  change (config (modify ?a ?f ?x)) with (config x).
  now rewrite config__rejectAllPending.
Qed.

Lemma sessions_cleanup_fold w0 now es w :
  (forall l, is_idle w now l = is_idle w0 now l) ->
  sessions
    (fold_left
       (fun w e => if is_idle w now (snd e) then fst (closeSession w (fst e)) else w)
       es w)
  = fold_left
      (fun m e => if is_idle w0 now (snd e) then JSMap.delete (fst e) m else m)
      es (sessions w).
Proof.
  revert w. induction es as [|e es IH]; intros w Hidle; [reflexivity|].
  cbn [fold_left]. rewrite Hidle. destruct (is_idle w0 now e.2).
  - rewrite IH; [now rewrite sessions_closeSession|].
    intros l. now rewrite is_idle_closeSession.
  - now apply IH.
Qed.

Lemma get_sweep_fold (idle : nat -> bool) k es (m : JSMap.t nat) :
  JSMap.get k
    (fold_left (fun m e => if idle (snd e) then JSMap.delete (fst e) m else m) es m)
  = if existsb (fun e => String.eqb (fst e) k && idle (snd e)) es
    then None else JSMap.get k m.
Proof.
  revert m. induction es as [|[k0 l0] es IH]; intros m; [reflexivity|].
  cbn [fold_left existsb fst snd]. rewrite IH.
  destruct (idle l0); [|now rewrite andb_false_r].
  rewrite andb_true_r. destruct (String.eqb_spec k0 k) as [->|Hne]; simpl.
  - rewrite get_delete_same. now destruct (existsb _ es).
  - now rewrite get_delete_other.
Qed.

Lemma existsb_unique (idle : nat -> bool) k (m : JSMap.t nat) :
  NoDup (JSMap.keys m) ->
  existsb (fun e => String.eqb (fst e) k && idle (snd e)) m
  = match JSMap.get k m with
    | Some l => idle l
    | None => false
    end.
Proof.
  induction m as [|[k0 l0] m IH]; [reflexivity|].
  cbn [JSMap.keys map fst]. rewrite NoDup_cons. intros [Hk0 Hnd].
  cbn [existsb JSMap.get fst snd]. rewrite (IH Hnd).
  destruct (String.eqb_spec k0 k) as [->|Hne]; simpl; [|reflexivity].
  destruct (JSMap.get k m) as [l|] eqn:Hget; [|apply orb_false_r].
  exfalso. apply Hk0. apply get_is_Some_keys. eauto.
Qed.

(** The idle sweep, in any reachable state: it removes from the registry
    exactly the sessions whose last activity is more than
    [sessionMaxIdleMs] before [now], and leaves the entries of the others
    as they are. *)
Theorem idle_sweep_removes_idle (cfg : Config) (sys : System) (now : Z) (k : string) :
  reachable cfg sys ->
  JSMap.get k (sessions (_cleanupIdleSessions (world sys) now))
  = match JSMap.get k (sessions (world sys)) with
    | Some l =>
        match lastActivityAt_at (world sys) l with
        | Some t => if (sessionMaxIdleMs cfg <? now - t)%Z then None else Some l
        | None => Some l
        end
    | None => None
    end.
Proof.
  intros Hr. destruct (reachable_Wf _ _ Hr) as [Hcfg Hnd _ _].
  unfold _cleanupIdleSessions.
  rewrite (sessions_cleanup_fold (world sys)) by reflexivity.
  rewrite (get_sweep_fold (is_idle (world sys) now)).
  rewrite (existsb_unique (is_idle (world sys) now)) by exact Hnd.
  destruct (JSMap.get k (sessions (world sys))) as [l|]; [|reflexivity].
  unfold is_idle. rewrite Hcfg.
  destruct (lastActivityAt_at (world sys) l) as [t|]; [|reflexivity].
  now destruct (sessionMaxIdleMs cfg <? now - t)%Z.
Qed.

Lemma delete_all_covered {V : Type} ks (m : JSMap.t V) :
  (forall k, k ∈ JSMap.keys m -> k ∈ ks) -> delete_all ks m = [].
Proof.
  revert m. induction ks as [|k ks IH]; intros m Hsub.
  - destruct m as [|[k0 v0] m]; [reflexivity|].
    specialize (Hsub k0). cbn [JSMap.keys map fst] in Hsub.
    exfalso. eapply not_elem_of_nil, Hsub. left.
  - unfold delete_all in *. cbn [fold_left]. apply IH. intros k' Hk'.
    assert (Hne : k' <> k).
    { intros ->. apply get_is_Some_keys in Hk' as [v Hv].
      now rewrite get_delete_same in Hv. }
    apply keys_delete_subseteq, Hsub in Hk'.
    apply elem_of_cons in Hk' as [->|Hk']; [contradiction | exact Hk'].
Qed.

Lemma sessions_destroy_fold (es : JSMap.t nat) w :
  sessions (fold_left (fun w e => fst (closeSession w (fst e))) es w)
  = delete_all (map fst es) (sessions w).
Proof.
  revert w. induction es as [|e es IH]; intros w; [reflexivity|].
  unfold delete_all in *. cbn [fold_left map]. now rewrite IH, sessions_closeSession.
Qed.

Lemma terminated_closeSession w k l :
  ws_terminated ∘ ws <$> session_at w l = Some true ->
  ws_terminated ∘ ws <$> session_at (fst (closeSession w k)) l = Some true.
Proof.
  intros H. unfold closeSession.
  destruct (JSMap.get k (sessions w)) as [l0|]; [|exact H]. cbn [fst].
  change (session_at (set_sessions ?m ?x) l) with (session_at x l).
  rewrite session_at_modify.
  destruct (decide (l0 = l)) as [->|Hne].
  - rewrite session_at__rejectAllPending.
    destruct (session_at w l); [reflexivity | discriminate].
  - destruct (decide (l0 = l0)) as [_|]; [|congruence].
    assert (Hsame : session_at (_rejectAllPending w l0 ClosedManually) l
                    = session_at w l).
    { destruct (heap w !! l0) as [s|] eqn:Hs.
      - rewrite (_rejectAllPending_unfold _ _ _ _ Hs).
        rewrite session_at_modify, decide_False by assumption.
        unfold session_at. now rewrite heap_reject_each.
      - unfold _rejectAllPending. now rewrite Hs. }
    now rewrite Hsame.
Qed.

Lemma terminated_destroy_fold (es : JSMap.t nat) w l :
  ws_terminated ∘ ws <$> session_at w l = Some true ->
  ws_terminated ∘ ws
    <$> session_at (fold_left (fun w e => fst (closeSession w (fst e))) es w) l
  = Some true.
Proof.
  revert w. induction es as [|e es IH]; intros w H; [exact H|].
  cbn [fold_left]. apply IH. now apply terminated_closeSession.
Qed.

Lemma closeSession_terminates w k l :
  JSMap.get k (sessions w) = Some l ->
  is_Some (heap w !! l) ->
  ws_terminated ∘ ws <$> session_at (fst (closeSession w k)) l = Some true.
Proof.
  intros Hget [s Hs]. unfold closeSession. rewrite Hget. cbn [fst].
  change (session_at (set_sessions ?m ?x) l) with (session_at x l).
  rewrite session_at_modify, decide_True by reflexivity.
  rewrite session_at__rejectAllPending. unfold session_at. now rewrite Hs.
Qed.

Lemma destroy_fold_terminates (es : JSMap.t nat) w :
  NoDup (map fst es) ->
  (forall k l, (k, l) ∈ es ->
     JSMap.get k (sessions w) = Some l /\ is_Some (heap w !! l)) ->
  forall k l, (k, l) ∈ es ->
    ws_terminated ∘ ws
      <$> session_at (fold_left (fun w e => fst (closeSession w (fst e))) es w) l
    = Some true.
Proof.
  revert w. induction es as [|[k0 l0] es IH]; intros w Hnd Hreg k l Hin.
  - now apply elem_of_nil in Hin.
  - cbn [map fst] in Hnd. apply NoDup_cons in Hnd as [Hk0 Hnd].
    cbn [fold_left fst].
    apply elem_of_cons in Hin as [[= -> ->]|Hin].
    + apply terminated_destroy_fold.
      destruct (Hreg k0 l0) as [Hget Hs]; [left|].
      now apply closeSession_terminates.
    + refine (IH _ Hnd _ k l Hin).
      intros k' l' Hin'. destruct (Hreg k' l') as [Hget Hs]; [now right|].
      assert (Hne : k0 <> k').
      { intros ->. apply Hk0. apply list_elem_of_In, in_map_iff.
        exists (k', l'). split; [reflexivity | now apply list_elem_of_In]. }
      split.
      * rewrite sessions_closeSession, get_delete_other by assumption. exact Hget.
      * destruct (shrinks_closeSession w w k0 (shrinks_refl w)) as (_ & Hkept & _).
        destruct Hs as [s Hs]. destruct (Hkept _ _ Hs) as (s' & Hs' & _). eauto.
Qed.

Lemma get_of_elem {V : Type} k (v : V) (m : JSMap.t V) :
  NoDup (JSMap.keys m) -> (k, v) ∈ m -> JSMap.get k m = Some v.
Proof.
  induction m as [|[k0 v0] m IH]; intros Hnd Hin.
  - now apply elem_of_nil in Hin.
  - cbn [JSMap.keys map fst] in Hnd. apply NoDup_cons in Hnd as [Hk0 Hnd].
    cbn [JSMap.get]. apply elem_of_cons in Hin as [[= -> ->]|Hin].
    + now rewrite String.eqb_refl.
    + destruct (String.eqb_spec k0 k) as [->|Hne]; [|auto].
      exfalso. apply Hk0. apply list_elem_of_In, in_map_iff.
      exists (k, v). split; [reflexivity | now apply list_elem_of_In].
Qed.

Lemma elem_of_get {V : Type} k (v : V) (m : JSMap.t V) :
  JSMap.get k m = Some v -> (k, v) ∈ m.
Proof.
  induction m as [|[k0 v0] m IH]; [discriminate|]. cbn [JSMap.get].
  destruct (String.eqb_spec k0 k) as [->|Hne].
  - intros [= ->]. left.
  - intros H. right. auto.
Qed.

(** [destroy], in any reachable state, closes every session: the registry
    is left empty and the transport of every session that was registered
    is terminated. *)
Theorem destroy_closes_everything (cfg : Config) (sys : System) :
  reachable cfg sys ->
  sessions (destroy (world sys)) = []
  /\ listSessions (destroy (world sys)) = []
  /\ forall k l,
       JSMap.get k (sessions (world sys)) = Some l ->
       ws_terminated ∘ ws <$> session_at (destroy (world sys)) l = Some true.
Proof.
  intros Hr. destruct (reachable_Wf _ _ Hr) as [_ Hnd Hids _].
  assert (Hempty : sessions (destroy (world sys)) = []).
  { unfold destroy. rewrite sessions_destroy_fold. now apply delete_all_covered. }
  split; [exact Hempty|]. split.
  - unfold listSessions. now rewrite Hempty.
  - intros k l Hget. unfold destroy.
    apply (destroy_fold_terminates _ _ Hnd) with (k := k).
    + intros k' l' Hin. apply (get_of_elem _ _ _ Hnd) in Hin.
      split; [exact Hin|]. destruct (Hids _ _ Hin) as (s & Hs & _). eauto.
    + now apply elem_of_get.
Qed.

End RegistryOverRuns.

(** ** The theorems on the concrete runs *)

Section RunWitnesses.
Import SessionManager Accumulation Runs Scenario.

Lemma sys_limited_reachable : reachable limited_config sys_limited.
Proof.
  unfold sys_limited. apply reachable_step; [apply reachable_initial | exact I].
Defined.

(** The connect timer of the session of the scenario fires before the transport opened. *)
Lemma connect_timeout_discards_witness :
  let w1 := fst (createSession w_new (options_for "s1") "uuid-1" 1000%Z) in
  let w2 := connectTimeout_fires w1 c1 in
  promise_at w2 (c_promise c1) = Some (Rejected ConnectTimeout)
  /\ JSMap.get (c_sessionId c1) (sessions w2) = None
  /\ getSession w2 (c_sessionId c1) = None
  /\ ws_terminated ∘ ws <$> session_at w2 (c_session c1) = Some true
  /\ connectTimeout_fires (ws_on_open w1 c1) c1 = ws_on_open w1 c1.
Proof.
  apply (connect_timeout_discards w_new (options_for "s1") "uuid-1" 1000%Z c1).
  - vm_compute; reflexivity.
Defined.

(** The transport of the session of the scenario opens. *)
Lemma open_resolves_ready_witness :
  let w2 := ws_on_open (fst (createSession w_new (options_for "s1") "uuid-1" 1000%Z)) c1 in
  promise_at w2 (c_promise c1)
  = Some (Resolved (VSession
       {| si_session_id := or_string (opt_sessionId (options_for "s1")) "uuid-1";
          si_status := "ready";
          si_model := cfg_model (config w_new);
          si_voice := or_string (opt_voice (options_for "s1")) (defaultVoice (config w_new));
          si_instructions_preview :=
            preview (or_string (opt_instructions (options_for "s1"))
                       (defaultInstructions (config w_new)));
          si_created_at := 1000%Z |}))
  /\ status_at w2 (c_session c1) = Some status_connected
  /\ sent_at w2 (c_session c1)
     = [session_update
          (or_string (opt_instructions (options_for "s1")) (defaultInstructions (config w_new)))
          (or_string (opt_voice (options_for "s1")) (defaultVoice (config w_new)))]
  /\ armed w2 (c_promise c1) = false
  /\ JSMap.get (c_sessionId c1) (sessions w2) = Some (c_session c1).
Proof.
  apply (open_resolves_ready w_new (options_for "s1") "uuid-1" 1000%Z c1).
  - vm_compute; reflexivity.
Defined.

(** The session of the scenario is closed right after it was created. *)
Lemma create_then_close_witness :
  let w1 := fst (createSession w_new (options_for "s1") "uuid-1" 1000%Z) in
  let w2 := fst (closeSession w1 (c_sessionId c1)) in
  snd (closeSession w1 (c_sessionId c1)) = closed_ok (c_sessionId c1)
  /\ getSession w2 (c_sessionId c1) = None
  /\ ws_terminated ∘ ws <$> session_at w2 (c_session c1) = Some true.
Proof.
  apply (create_then_close w_new (options_for "s1") "uuid-1" 1000%Z c1).
  - vm_compute; reflexivity.
Defined.

(** The transport of the session of the scenario closes before it opened. *)
Lemma close_while_connecting_witness :
  let w1 := fst (createSession w_new (options_for "s1") "uuid-1" 1000%Z) in
  let w2 := ws_on_close w1 c1 1006%Z in
  getSession w2 (c_sessionId c1) = None
  /\ promise_at w2 (c_promise c1) = Some Unsettled
  /\ armed w2 (c_promise c1) = true
  /\ promise_at (connectTimeout_fires w2 c1) (c_promise c1)
     = Some (Rejected ConnectTimeout).
Proof.
  apply (close_while_connecting w_new (options_for "s1") "uuid-1" 1000%Z c1 1006%Z).
  - vm_compute; reflexivity.
Defined.

(** The text request of the scenario, answered in two text deltas. *)
Lemma text_request_answered_witness :
  let w1 := fst (sendText w_connected "s1" "hola" absent "req-1" 2000%Z) in
  let w3 := _handleOpenAIEvent (dispatch_all w1 0 [(ev "response.text.delta" (Some "bue"), 2100%Z); (ev "response.text.delta" (Some "nas"), 2200%Z)]) 0 (ev "response.done" None) 2300%Z in
  let answer := String.concat "" (text_payloads [(ev "response.text.delta" (Some "bue"), 2100%Z); (ev "response.text.delta" (Some "nas"), 2200%Z)]) in
  (exists r,
     promise_at w3 (length (promises w_connected)) = Some (Resolved (VResult r))
     /\ response_text r = answer
     /\ input_transcript r = None
     /\ duration_ms r = (2300%Z - 2000%Z)%Z
     /\ session_id r = "s1"
     /\ request_id r = "req-1")
  /\ (exists has_audio,
        history_at w3 0
        = history_at w_connected 0
          ++ [ {| role := role_user; content := "hola"; timestamp := 2300%Z;
                  content_type := None; has_audio := None |};
               {| role := role_assistant; content := answer; timestamp := 2300%Z;
                  content_type := None; has_audio := Some has_audio |} ])
  /\ pending_at w3 0 = pending_at w_connected 0
  /\ armed w3 (length (promises w_connected)) = false.
Proof.
  apply (text_request_answered w_connected "s1" "hola" absent "req-1" 2000%Z 0 [(ev "response.text.delta" (Some "bue"), 2100%Z); (ev "response.text.delta" (Some "nas"), 2200%Z)] (ev "response.done" None) 2300%Z).
  - vm_compute; reflexivity.
  - vm_compute; reflexivity.
  - vm_compute; reflexivity.
  - discriminate.
  - repeat first [apply Forall_nil_2 | apply Forall_cons_2; [split; vm_compute; reflexivity|]].
  - reflexivity.
Defined.

(** The text request of the scenario, answered by an error event. *)
Lemma text_request_refused_witness :
  let w1 := fst (sendText w_connected "s1" "hola" absent "req-1" 2000%Z) in
  let w3 := _handleOpenAIEvent (dispatch_all w1 0 [(ev "response.text.delta" (Some "bue"), 2100%Z); (ev "response.text.delta" (Some "nas"), 2200%Z)]) 0 ({| type := "error"; delta := None; transcript := None; error := Some {| message := Some "rate limit" |} |}) 2300%Z in
  promise_at w3 (length (promises w_connected))
  = Some (Rejected (OpenAIError
       match error ({| type := "error"; delta := None; transcript := None; error := Some {| message := Some "rate limit" |} |}) with
       | Some {| message := Some m |} =>
           if String.eqb m "" then "Error desconocido de OpenAI" else m
       | _ => "Error desconocido de OpenAI"
       end))
  /\ history_at w3 0 = history_at w_connected 0
  /\ pending_at w3 0 = pending_at w_connected 0
  /\ armed w3 (length (promises w_connected)) = false.
Proof.
  apply (text_request_refused w_connected "s1" "hola" absent "req-1" 2000%Z 0 [(ev "response.text.delta" (Some "bue"), 2100%Z); (ev "response.text.delta" (Some "nas"), 2200%Z)] ({| type := "error"; delta := None; transcript := None; error := Some {| message := Some "rate limit" |} |}) 2300%Z).
  - vm_compute; reflexivity.
  - vm_compute; reflexivity.
  - vm_compute; reflexivity.
  - discriminate.
  - repeat first [apply Forall_nil_2 | apply Forall_cons_2; [vm_compute; reflexivity|]].
  - reflexivity.
Defined.

(** Two text requests in flight on the session of the scenario. *)
Lemma answer_goes_to_latest_witness :
  let w1 := fst (sendText w_connected "s1" "uno" absent "req-1" 2000%Z) in
  let w2 := fst (sendText w1 "s1" "dos" absent "req-2" 2001%Z) in
  let w3 := _handleOpenAIEvent (dispatch_all w2 0 [(ev "response.text.delta" (Some "bue"), 2100%Z)]) 0 (ev "response.done" None) 2300%Z in
  let w4 := _handleOpenAIEvent w3 0 (ev "response.done" None) 2400%Z in
  (exists r2,
     promise_at w3 (length (promises w_connected) + 1) = Some (Resolved (VResult r2))
     /\ request_id r2 = "req-2"
     /\ response_text r2 = String.concat "" (text_payloads [(ev "response.text.delta" (Some "bue"), 2100%Z)]))
  /\ promise_at w3 (length (promises w_connected)) = Some Unsettled
  /\ is_Some (JSMap.get "req-1" (pending_at w3 0))
  /\ (exists r1,
        promise_at w4 (length (promises w_connected)) = Some (Resolved (VResult r1))
        /\ request_id r1 = "req-1"
        /\ response_text r1 = "").
Proof.
  apply (answer_goes_to_latest w_connected "s1" "uno" "dos" absent absent "req-1" "req-2" 2000%Z 2001%Z 0 [(ev "response.text.delta" (Some "bue"), 2100%Z)] (ev "response.done" None) (ev "response.done" None) 2300%Z 2400%Z).
  - vm_compute; reflexivity.
  - vm_compute; reflexivity.
  - vm_compute; reflexivity.
  - vm_compute; reflexivity.
  - discriminate.
  - discriminate.
  - discriminate.
  - repeat first [apply Forall_nil_2 | apply Forall_cons_2; [split; vm_compute; reflexivity|]].
  - reflexivity.
  - reflexivity.
Defined.

(** An audio request on the session of the scenario, transcribed and answered with one audio chunk. *)
Lemma audio_request_answered_witness :
  let w1 := fst (sendAudio w_connected "s1" "AAAA" {| opt_returnAudio := None |} "req-1" 2000%Z) in
  let w3 := _handleOpenAIEvent (dispatch_all w1 0 [({| type := "conversation.item.input_audio_transcription.completed"; delta := None; transcript := Some "hola"; error := None |}, 2100%Z); (ev "response.audio.delta" (Some "QUJD"), 2200%Z)]) 0 (ev "response.done" None) 2300%Z in
  let said := default "" (last (transcriptions [({| type := "conversation.item.input_audio_transcription.completed"; delta := None; transcript := Some "hola"; error := None |}, 2100%Z); (ev "response.audio.delta" (Some "QUJD"), 2200%Z)])) in
  (exists r,
     promise_at w3 (length (promises w_connected)) = Some (Resolved (VResult r))
     /\ input_transcript r = Some said
     /\ duration_ms r = (2300%Z - 2000%Z)%Z
     /\ request_id r = "req-1"
     /\ audio_base64 r
        = match audio_payloads [({| type := "conversation.item.input_audio_transcription.completed"; delta := None; transcript := Some "hola"; error := None |}, 2100%Z); (ev "response.audio.delta" (Some "QUJD"), 2200%Z)] with
          | [] => None
          | chunks => Some (String.concat "" chunks)
          end)
  /\ (exists answer,
        history_at w3 0
        = history_at w_connected 0
          ++ [ {| role := role_user;
                  content := if String.eqb said "" then "[audio]" else said;
                  timestamp := 2300%Z;
                  content_type := Some "audio"; has_audio := None |};
               {| role := role_assistant; content := answer; timestamp := 2300%Z;
                  content_type := None;
                  has_audio := Some (0 <? length (audio_payloads [({| type := "conversation.item.input_audio_transcription.completed"; delta := None; transcript := Some "hola"; error := None |}, 2100%Z); (ev "response.audio.delta" (Some "QUJD"), 2200%Z)]))%nat |} ])
  /\ pending_at w3 0 = pending_at w_connected 0.
Proof.
  apply (audio_request_answered w_connected "s1" "AAAA" "req-1" 2000%Z 0 [({| type := "conversation.item.input_audio_transcription.completed"; delta := None; transcript := Some "hola"; error := None |}, 2100%Z); (ev "response.audio.delta" (Some "QUJD"), 2200%Z)] (ev "response.done" None) 2300%Z).
  - vm_compute; reflexivity.
  - vm_compute; reflexivity.
  - vm_compute; reflexivity.
  - discriminate.
  - repeat first [apply Forall_nil_2 | apply Forall_cons_2; [vm_compute; reflexivity|]].
  - reflexivity.
Defined.

(** The messages of the audio request of the scenario. *)
Lemma sendAudio_streams_payload_witness :
  exists chunks,
    sent_at (fst (sendAudio w_connected "s1" "AAAA" absent "req-1" 2000%Z)) 0
    = sent_at w_connected 0
      ++ [input_audio_buffer_clear]
      ++ map input_audio_buffer_append chunks
      ++ [ input_audio_buffer_commit (String.append "audio_" "req-1");
           response_create (String.append "res_" "req-1")
             (match opt_returnAudio absent with
              | Some false => [modality_text]
              | _ => [modality_text; modality_audio]
              end) ]
    /\ String.concat "" chunks = "AAAA"
    /\ Forall (fun a => 0 < String.length a <= CHUNK_SIZE) chunks.
Proof.
  apply (sendAudio_streams_payload w_connected "s1" "AAAA" absent "req-1" 2000%Z 0).
  - vm_compute; reflexivity.
  - vm_compute; reflexivity.
Defined.

(** The transport of the scenario fails while the text request is pending. *)
Lemma transport_error_rejects_pending_witness :
  let w' := ws_on_error (world sys_text_pending) c1 "ECONNRESET" in
  (forall k p,
     (k, p) ∈ pending_at (world sys_text_pending) (c_session c1) ->
     (promise_at (world sys_text_pending) (p_promise p) = Some Unsettled
      /\ promise_at w' (p_promise p) = Some (Rejected (TransportError "ECONNRESET")))
     \/ (promise_at (world sys_text_pending) (p_promise p) = Some (Rejected NOT_OPEN)
         /\ promise_at w' (p_promise p) = Some (Rejected NOT_OPEN)))
  /\ pending_at w' (c_session c1) = []
  /\ ss_status <$> getSession w' (c_sessionId c1) = Some status_error
  /\ (forall text options uuid now,
        sendText w' (c_sessionId c1) text options uuid now
        = (w', inl (SessionUnavailable status_error)))
  /\ (forall audio options uuid now,
        sendAudio w' (c_sessionId c1) audio options uuid now
        = (w', inl (SessionUnavailable status_error))).
Proof.
  apply (transport_error_rejects_pending default_config sys_text_pending c1 "ECONNRESET").
  - exact sys_text_pending_reachable.
  - vm_compute; reflexivity.
Defined.

(** The transport of the scenario closes while the text request is pending. *)
Lemma transport_close_rejects_pending_witness :
  let w' := ws_on_close (world sys_text_pending) c1 1006%Z in
  (forall k p,
     (k, p) ∈ pending_at (world sys_text_pending) (c_session c1) ->
     (promise_at (world sys_text_pending) (p_promise p) = Some Unsettled
      /\ promise_at w' (p_promise p) = Some (Rejected (SessionClosed 1006%Z)))
     \/ (promise_at (world sys_text_pending) (p_promise p) = Some (Rejected NOT_OPEN)
         /\ promise_at w' (p_promise p) = Some (Rejected NOT_OPEN)))
  /\ pending_at w' (c_session c1) = []
  /\ status_at w' (c_session c1) = Some status_closed
  /\ getSession w' (c_sessionId c1) = None
  /\ (forall text options uuid now,
        sendText w' (c_sessionId c1) text options uuid now
        = (w', inl (SessionNotFound (c_sessionId c1))))
  /\ (forall audio options uuid now,
        sendAudio w' (c_sessionId c1) audio options uuid now
        = (w', inl (SessionNotFound (c_sessionId c1)))).
Proof.
  apply (transport_close_rejects_pending default_config sys_text_pending c1 1006%Z).
  - exact sys_text_pending_reachable.
  - vm_compute. eexists. reflexivity.
Defined.

(** The text request of the scenario times out and its answer arrives afterwards. *)
Lemma late_answer_dropped_witness :
  let w1 := fst (sendText w_connected "s1" "hola" absent "req-1" 2000%Z) in
  let call := {| call_session := 0; call_requestId := "req-1";
                 call_promise := length (promises w_connected) |} in
  let w3 := responseTimeout_fires (dispatch_all w1 0 [(ev "response.text.delta" (Some "bue"), 2100%Z)]) call in
  snd (sendText w_connected "s1" "hola" absent "req-1" 2000%Z) = inr call
  /\ promise_at w3 (length (promises w_connected))
     = Some (Rejected (ResponseTimeout (responseTimeoutMs (config w_connected))))
  /\ dispatch_all w3 0 [(ev "response.text.delta" (Some "nas"), 2200%Z); ((ev "response.done" None), 40000%Z)] = w3
  /\ history_at (dispatch_all w3 0 [(ev "response.text.delta" (Some "nas"), 2200%Z); ((ev "response.done" None), 40000%Z)]) 0 = history_at w_connected 0.
Proof.
  apply (late_answer_dropped w_connected "s1" "hola" absent "req-1" 2000%Z 0 [(ev "response.text.delta" (Some "bue"), 2100%Z)] [(ev "response.text.delta" (Some "nas"), 2200%Z); ((ev "response.done" None), 40000%Z)]).
  - vm_compute; reflexivity.
  - vm_compute; reflexivity.
  - vm_compute; reflexivity.
  - repeat first [apply Forall_nil_2 | apply Forall_cons_2; [vm_compute; reflexivity|]].
Defined.

(** A manager limited to one session, holding one. *)
Lemma registry_within_limit_witness :
  (Z.of_nat (JSMap.size (sessions (world sys_limited))) <= maxSessions limited_config)%Z
  /\ (Z.of_nat (JSMap.size (sessions (world sys_limited))) = maxSessions limited_config ->
      forall options uuid now,
        createSession (world sys_limited) options uuid now
        = (world sys_limited, inl (LimitReached (maxSessions limited_config)))).
Proof.
  apply (registry_within_limit limited_config sys_limited).
  - exact sys_limited_reachable.
  - vm_compute; reflexivity.
Defined.

(** The sessions of the scenario, listed. *)
Lemma registered_sessions_listed_witness :
  NoDup (JSMap.keys (sessions (world sys_text_pending)))
  /\ Forall2 (fun k r => exists summary, r = Some summary /\ ss_session_id summary = k)
       (JSMap.keys (sessions (world sys_text_pending))) (listSessions (world sys_text_pending)).
Proof.
  apply (registered_sessions_listed default_config sys_text_pending).
  - exact sys_text_pending_reachable.
Defined.

(** The sweep of the scenario long after the last activity. *)
Lemma idle_sweep_removes_idle_witness :
  JSMap.get "s1" (sessions (_cleanupIdleSessions (world sys_text_pending) 999999%Z))
  = match JSMap.get "s1" (sessions (world sys_text_pending)) with
    | Some l =>
        match lastActivityAt_at (world sys_text_pending) l with
        | Some t => if (sessionMaxIdleMs default_config <? 999999%Z - t)%Z then None else Some l
        | None => Some l
        end
    | None => None
    end.
Proof.
  apply (idle_sweep_removes_idle default_config sys_text_pending 999999%Z "s1").
  - exact sys_text_pending_reachable.
Defined.

(** The manager of the scenario destroyed. *)
Lemma destroy_closes_everything_witness :
  sessions (destroy (world sys_text_pending)) = []
  /\ listSessions (destroy (world sys_text_pending)) = []
  /\ forall k l,
       JSMap.get k (sessions (world sys_text_pending)) = Some l ->
       ws_terminated ∘ ws <$> session_at (destroy (world sys_text_pending)) l = Some true.
Proof.
  apply (destroy_closes_everything default_config sys_text_pending).
  - exact sys_text_pending_reachable.
Defined.

End RunWitnesses.
